(** * GraphAnon: the labelled graph and its alpha-proximity heuristics

    A shallow embedding of [src/labelled_graph/labelled_graph.cpp].

    - [uint32_t] values are integers of [Z] kept in [0, 2^32) with the
      wrap-around written out ([wrap32]);
    - [std::vector] is a list read with stdpp's lookup, and
      [std::unordered_set<uint32_t>] is a [gset Z];
    - behaviour that C++ leaves undefined (an index outside a vector, a
      shift by 32 or more, a division by zero) is the result [None] of the
      option monad;
    - a loop without a bound takes a number of rounds it may make and ends
      in one of the outcomes [Done], [Undefined] and [OutOfFuel];
    - [float] values are modelled by the rationals they denote (no NaN);
    - [rand()] reads successive elements of a stream of draws. *)

From Stdlib Require Import ZArith QArith Qabs Lia Lqa Ascii String.
From stdpp Require Import base option list gmap sets numbers.

Local Open Scope Z_scope.

Set Warnings "-clear-no-such-hyp".

(** ** Machine integers *)

Definition wrap32 (z : Z) : Z := z mod 2 ^ 32.

(** ** Loops in the option monad *)

Fixpoint foldlM {A B : Type} (f : A → B → option A) (a : A) (l : list B)
  : option A :=
  match l with
  | [] => Some a
  | x :: l' => a' ← f a x; foldlM f a' l'
  end.

(** ** The object state *)

Record LabelledGraph := mkGraph {
  n_ : Z;                              (* number of vertices *)
  l_ : Z;                              (* number of labels *)
  m_ : Z;                              (* number of edges *)
  adjacency_list_ : list (gset Z);
  vertex_labels_ : list Z
}.

(** [v[i]] on a vector: undefined outside the vector. *)
Definition at_ {A : Type} (v : list A) (i : Z) : option A :=
  if decide (0 ≤ i) then v !! Z.to_nat i else None.

(** A [LabelDistribution] is built from a vector of counts and keeps it. *)
Definition LabelDistribution := list Z.

(** [for( i = 0; i < l_; ++i ) counts.push_back( 0 )] *)
Definition zero_counts (l : Z) : list Z := replicate (Z.to_nat l) 0.

(** [++counts[ i ]] *)
Definition incr (counts : list Z) (i : Z) : option (list Z) :=
  c ← at_ counts i; Some (<[Z.to_nat i := wrap32 (c + 1)]> counts).

Definition get_global_ld (g : LabelledGraph) : option LabelDistribution :=
  foldlM incr (zero_counts (l_ g)) (vertex_labels_ g).

Definition get_neighbourhood_ld (g : LabelledGraph) (v : Z)
  : option LabelDistribution :=
  lv ← at_ (vertex_labels_ g) v;
  counts ← incr (zero_counts (l_ g)) lv;
  adj ← at_ (adjacency_list_ g) v;
  foldlM (λ counts u, lu ← at_ (vertex_labels_ g) u; incr counts lu)
         counts (elements adj).

Definition Qlt_bool (x y : Q) : bool := negb (Qle_bool y x).

(** ** The pseudo-random source

    [rand()] returns the next draw of the process-wide generator, a value
    between 0 and [RAND_MAX]. *)

Record Rng := mkRng { draws : nat → Z; pos : nat }.

Definition RAND_MAX : Z := 2147483647.

Definition rand (r : Rng) : Z * Rng :=
  (draws r (pos r) mod (RAND_MAX + 1), mkRng (draws r) (S (pos r))).

(** ** The graph substrate *)

Definition set_adjacency (g : LabelledGraph) (adj : list (gset Z)) (m : Z)
  : LabelledGraph :=
  mkGraph (n_ g) (l_ g) m adj (vertex_labels_ g).

(** Modelled from the spec: [UnlabelledGraph::add_edge] is defined outside
    [labelled_graph.cpp].  "add_edge(u, v) -> bool (true on success; false if
    already adjacent or u==v)"; "inserting (u,v) makes v a neighbor of u and
    u a neighbor of v". *)
Definition add_edge (u v : Z) (g : LabelledGraph)
  : option (bool * LabelledGraph) :=
  au ← at_ (adjacency_list_ g) u;
  av ← at_ (adjacency_list_ g) v;
  if decide (u = v ∨ v ∈ au) then Some (false, g)
  else Some (true,
             set_adjacency g
               (<[Z.to_nat v := {[u]} ∪ av]>
                  (<[Z.to_nat u := {[v]} ∪ au]> (adjacency_list_ g)))
               (wrap32 (m_ g + 1))).

Definition adjacent (g : LabelledGraph) (u v : Z) : bool :=
  match at_ (adjacency_list_ g) u with
  | Some au => bool_decide (v ∈ au)
  | None => false
  end.

(** The pairs [u < v] of vertices of a graph on [n] vertices. *)
Definition all_pairs (n : Z) : list (Z * Z) :=
  u ← seqZ 0 n; (λ v, (u, v)) <$> seqZ (u + 1) (n - (u + 1)).

Definition non_adjacent_pairs (g : LabelledGraph) : list (Z * Z) :=
  filter (λ p, ¬ adjacent g p.1 p.2) (all_pairs (n_ g)).

(** Modelled from the spec: [UnlabelledGraph::is_complete] is defined
    outside [labelled_graph.cpp].  The graph is complete when no pair of
    distinct vertices is left non-adjacent. *)
Definition is_complete (g : LabelledGraph) : bool :=
  bool_decide (non_adjacent_pairs g = []).

(** Modelled from the spec: [UnlabelledGraph::add_random_edge] is defined
    outside [labelled_graph.cpp].  "adds an edge between two distinct,
    currently non-adjacent vertices chosen uniformly at random among
    non-adjacent pairs; no-op/false if the graph is complete". *)
Definition add_random_edge (g : LabelledGraph) (r : Rng)
  : option (bool * LabelledGraph * Rng) :=
  match non_adjacent_pairs g with
  | [] => Some (false, g, r)
  | p :: ps =>
      let '(k, r') := rand r in
      '(u, v) ← (p :: ps) !! Z.to_nat (k mod Z.of_nat (length (p :: ps)));
      '(ok, g') ← add_edge u v g;
      Some (ok, g', r')
  end.

(** ** Bit operations on 32-bit masks *)

(** [1 << k]: undefined when the shift count is not below the width. *)
Definition shl32 (x k : Z) : option Z :=
  if decide (0 ≤ k < 32) then Some (wrap32 (Z.shiftl x k)) else None.

(** [ffs]: one plus the index of the least significant set bit, 0 for 0. *)
Fixpoint ffs_from (k : nat) (i : Z) (x : Z) : Z :=
  match k with
  | O => 0
  | S k' => if Z.testbit x i then i + 1 else ffs_from k' (i + 1) x
  end.

Definition ffs (x : Z) : Z := ffs_from 32 0 x.

(** [__builtin_popcount] *)
Definition popcount (x : Z) : Z :=
  Z.of_nat (length (filter (λ i, Z.testbit x i) (seqZ 0 32))).

(** [std::random_shuffle], as libstdc++ writes it: for each position [i]
    from the second on, swap it with a position drawn in [0, i]. *)
Definition swap {A : Type} (l : list A) (i j : nat) : list A :=
  match l !! i, l !! j with
  | Some a, Some b => <[i := b]> (<[j := a]> l)
  | _, _ => l
  end.

Fixpoint shuffle_from {A : Type} (k : nat) (i : nat) (l : list A) (r : Rng)
  : list A * Rng :=
  match k with
  | O => (l, r)
  | S k' =>
      let '(x, r') := rand r in
      let j := Z.to_nat (x mod (Z.of_nat i + 1)) in
      shuffle_from k' (S i) (swap l i j) r'
  end.

Definition random_shuffle {A : Type} (l : list A) (r : Rng) : list A * Rng :=
  shuffle_from (length l - 1) 1 l r.

(** ** Outcomes of the unbounded loops *)

Inductive outcome (A : Type) : Type :=
  | Done (a : A)        (* the call returned *)
  | Undefined           (* the run met undefined behaviour *)
  | OutOfFuel.          (* the loop was cut off *)
Arguments Done {A} a.
Arguments Undefined {A}.
Arguments OutOfFuel {A}.

Section Proximity.

(** [LabelDistribution::distance] and [LabelDistribution::get_deficiencies]
    are declared in a header that is not part of [labelled_graph.cpp]; the
    graph code is verified for every such pair of functions. *)
Variable distance : LabelDistribution → LabelDistribution → Q.
Variable get_deficiencies : LabelDistribution → LabelDistribution → Q → Z.

(** One round of the loop of [is_alpha_proximal]. *)
Definition proximal_step (g : LabelledGraph) (global : LabelDistribution)
    (max_distance : Q) (v : Z) : option Q :=
  neighbourhood ← get_neighbourhood_ld g v;
  let distance := distance global neighbourhood in
  Some (if Qlt_bool max_distance distance then distance else max_distance).

Definition max_distance_of (g : LabelledGraph) (global : LabelDistribution)
  : option Q :=
  foldlM (proximal_step g global) (0%Q) (seqZ 0 (n_ g)).

Definition is_alpha_proximal (alpha : Q) (g : LabelledGraph) : option bool :=
  global ← get_global_ld g;
  max_distance ← max_distance_of g global;
  Some (Qle_bool max_distance alpha).

(** [d] is the distance of the closed neighbourhood of [v] to [global]. *)
Definition vertex_distance (g : LabelledGraph) (global : LabelDistribution)
    (v : Z) (d : Q) : Prop :=
  ∃ neighbourhood,
    get_neighbourhood_ld g v = Some neighbourhood ∧
    (d == distance global neighbourhood)%Q.

(** [M] is the maximum of the distances of the vertices [0 .. n_ - 1]. *)
Definition max_vertex_distance (g : LabelledGraph)
    (global : LabelDistribution) (M : Q) : Prop :=
  (∃ v, 0 ≤ v < n_ g ∧ vertex_distance g global v M) ∧
  ∀ v d, 0 ≤ v < n_ g → vertex_distance g global v d → (d <= M)%Q.

(** *** [hopeful] *)

Fixpoint hopeful_loop (fuel : nat) (alpha : Q) (leaks_privacy : bool)
    (g : LabelledGraph) (r : Rng) : outcome (LabelledGraph * Rng) :=
  if leaks_privacy && negb (is_complete g) then
    match fuel with
    | O => OutOfFuel
    | S fuel' =>
        match is_alpha_proximal alpha g with
        | None => Undefined
        | Some true => hopeful_loop fuel' alpha false g r
        | Some false =>
            match add_random_edge g r with
            | None => Undefined
            | Some (_, g', r') => hopeful_loop fuel' alpha leaks_privacy g' r'
            end
        end
    end
  else Done (g, r).

Definition hopeful (fuel : nat) (alpha : Q) (g : LabelledGraph) (r : Rng)
  : outcome (LabelledGraph * Rng) :=
  match is_alpha_proximal alpha g with
  | None => Undefined
  | Some proximal => hopeful_loop fuel alpha (negb proximal) g r
  end.

(** *** [run_greedy_iteration] *)

(** A visit record: a vertex and its deficiency mask. *)
Definition visit_record : Type := Z * Z.

(** The state the three nested loops work on: the pool, the graph and
    [num_edges_added]. *)
Definition greedy_state : Type := list visit_record * LabelledGraph * Z.

(** The first loop: one vertex is classified and, if deficient, pushed. *)
Definition classify_step (alpha : Q) (g : LabelledGraph)
    (global : LabelDistribution) (visit_order : list visit_record) (i : Z)
  : option (list visit_record) :=
  neighbourhood ← get_neighbourhood_ld g i;
  let defs := wrap32 (get_deficiencies neighbourhood global alpha) in
  Some (if decide (0 < defs) then visit_order ++ [(i, defs)]
        else visit_order).

Definition build_visit_order (alpha : Q) (g : LabelledGraph)
    (global : LabelDistribution) : option (list visit_record) :=
  foldlM (classify_step alpha g global) [] (seqZ 0 (n_ g)).

(** The mate search: [it_mate] runs from the given position to the end of
    the pool; [k] counts the positions left. *)
Fixpoint mate_loop (k : nat) (it_mate : nat) (v v_label_bitmask l : Z)
    (st : greedy_state) : option greedy_state :=
  match k with
  | O => Some st
  | S k' =>
      let '(visit_order, g, num_edges_added) := st in
      '(u, mask) ← visit_order !! it_mate;
      if decide (Z.land mask v_label_bitmask ≠ 0) then
        lu ← at_ (vertex_labels_ g) u;
        if decide (lu = l) then
          '(ok, g') ← add_edge v u g;
          if ok : bool then
            Some (<[it_mate := (u, Z.lxor mask v_label_bitmask)]> visit_order,
                  g', wrap32 (num_edges_added + 1))
          else mate_loop k' (S it_mate) v v_label_bitmask l st
        else mate_loop k' (S it_mate) v v_label_bitmask l st
      else mate_loop k' (S it_mate) v v_label_bitmask l st
  end.

(** The search of one label, from the entry after position [it]. *)
Definition find_mate (it : nat) (v v_label_bitmask l : Z) (st : greedy_state)
  : option greedy_state :=
  mate_loop (length st.1.1 - S it) (S it) v v_label_bitmask l st.

(** The loop over the deficient labels of the vertex at position [it];
    [k] counts the rounds left of the [num_def_labels]. *)
Fixpoint label_loop (k : nat) (it : nat) (v v_label_bitmask defs : Z)
    (st : greedy_state) : option greedy_state :=
  match k with
  | O => Some st
  | S k' =>
      let l := wrap32 (ffs defs - 1) in
      st' ← find_mate it v v_label_bitmask l st;
      bit ← shl32 1 (wrap32 (l - 1));
      label_loop k' it v v_label_bitmask (Z.lxor defs bit) st'
  end.

(** The loop over the pool; [k] counts the entries left. *)
Fixpoint visit_loop (k : nat) (it : nat) (st : greedy_state)
  : option greedy_state :=
  match k with
  | O => Some st
  | S k' =>
      '(v, defs) ← st.1.1 !! it;
      lv ← at_ (vertex_labels_ st.1.2) v;
      v_label_bitmask ← shl32 1 lv;
      let num_def_labels := popcount defs in
      st' ← label_loop (Z.to_nat num_def_labels) it v v_label_bitmask defs st;
      visit_loop k' (S it) st'
  end.

Definition run_greedy_iteration (alpha : Q) (g : LabelledGraph) (r : Rng)
  : option (Z * LabelledGraph * Rng) :=
  global ← get_global_ld g;
  pool ← build_visit_order alpha g global;
  let '(visit_order, r') := random_shuffle pool r in
  '(_, g', num_edges_added) ←
     visit_loop (length visit_order) 0 (visit_order, g, 0);
  Some (num_edges_added, g', r').

(** *** [greedy] *)

Fixpoint greedy_loop (fuel : nat) (alpha : Q) (leaks_privacy : bool)
    (g : LabelledGraph) (r : Rng) : outcome (LabelledGraph * Rng) :=
  if leaks_privacy && negb (is_complete g) then
    match fuel with
    | O => OutOfFuel
    | S fuel' =>
        match run_greedy_iteration alpha g r with
        | None => Undefined
        | Some (num_new_edges, g1, r1) =>
            match is_alpha_proximal alpha g1 with
            | None => Undefined
            | Some true => greedy_loop fuel' alpha false g1 r1
            | Some false =>
                if decide (num_new_edges = 0) then
                  match add_random_edge g1 r1 with
                  | None => Undefined
                  | Some (_, g2, r2) =>
                      greedy_loop fuel' alpha leaks_privacy g2 r2
                  end
                else greedy_loop fuel' alpha leaks_privacy g1 r1
            end
        end
    end
  else Done (g, r).

Definition greedy (fuel : nat) (alpha : Q) (g : LabelledGraph) (r : Rng)
  : outcome (LabelledGraph * Rng) :=
  match is_alpha_proximal alpha g with
  | None => Undefined
  | Some proximal => greedy_loop fuel alpha (negb proximal) g r
  end.

End Proximity.

(** ** The label distributions of the spec *)

Definition population (counts : LabelDistribution) : Z := foldr Z.add 0 counts.

Definition proportion (counts : LabelDistribution) (c : Z) : Q :=
  (inject_Z c / inject_Z (population counts))%Q.

(** Modelled from the spec: [LabelDistribution::distance] is defined outside
    [labelled_graph.cpp].  "total-variation distance: half the sum of
    absolute differences of per-label proportions". *)
Definition LabelDistribution_distance (a b : LabelDistribution) : Q :=
  ((1 # 2) *
   foldr Qplus 0
     (zip_with (λ x y, Qabs (proportion a x - proportion b y)) a b))%Q.

(** Modelled from the spec: the mask of [LabelDistribution::get_deficiencies]
    for a given slack: the labels whose proportion in [this] is below the
    one in [global] by more than [slack]. *)
Definition deficiencies_beyond (slack : Q) (this global : LabelDistribution)
  : Z :=
  foldr Z.lor 0
    (imap (λ i '(x, y),
             if Qlt_bool slack (proportion global y - proportion this x)
             then Z.shiftl 1 (Z.of_nat i) else 0)
          (zip this global)).

(** Modelled from the spec: [LabelDistribution::get_deficiencies] is defined
    outside [labelled_graph.cpp].  "for each label i ... set bit i when this
    distribution's proportion is below global's proportion by more than the
    slack that alpha allows"; the slack is taken to be [alpha], for which
    the mask is empty when the distance is at most [alpha]. *)
Definition LabelDistribution_get_deficiencies
    (this global : LabelDistribution) (alpha : Q) : Z :=
  deficiencies_beyond alpha this global.

(** Modelled from the spec: the other reading it offers for the same
    function, "proportion below global by more than alpha/l". *)
Definition LabelDistribution_get_deficiencies_per_label
    (this global : LabelDistribution) (alpha : Q) : Z :=
  deficiencies_beyond (alpha / inject_Z (Z.of_nat (length global)))
    this global.

(** ** Construction *)

(** [init()]: [n_] empty adjacency sets and [n_] labels 0 are pushed, and
    the edge count is reset. *)
Definition init (g : LabelledGraph) : LabelledGraph :=
  mkGraph (n_ g) (l_ g) 0
    (adjacency_list_ g ++ replicate (Z.to_nat (n_ g)) ∅)
    (vertex_labels_ g ++ replicate (Z.to_nat (n_ g)) 0).

(** [LabelledGraph( num_vertices, num_labels )].  Modelled from the spec:
    the constructor of [UnlabelledGraph] is defined outside the sources at
    hand; it is taken to record the vertex count and leave the vectors
    empty ("created with fixed n/l at construction"). *)
Definition LabelledGraph_new (num_vertices num_labels : Z) : LabelledGraph :=
  init (mkGraph num_vertices num_labels 0 [] []).

(** ** [evenly_distribute_labels] *)

Definition set_labels (g : LabelledGraph) (labels : list Z) : LabelledGraph :=
  mkGraph (n_ g) (l_ g) (m_ g) (adjacency_list_ g) labels.

(** [rand() % n]: undefined for [n = 0]. *)
Definition rand_mod (n : Z) (r : Rng) : option (Z * Rng) :=
  if decide (n = 0) then None
  else let '(x, r') := rand r in Some (x mod n, r').

(** The loop that gives [cur_label] to [vertices_per_label] vertices that
    still have label 0. *)
Fixpoint assign_loop (fuel : nat) (cur_label num_assigned
    vertices_per_label : Z) (g : LabelledGraph) (r : Rng)
  : outcome (LabelledGraph * Rng) :=
  if decide (num_assigned < vertices_per_label) then
    match fuel with
    | O => OutOfFuel
    | S fuel' =>
        match rand_mod (n_ g) r with
        | None => Undefined
        | Some (v, r') =>
            match at_ (vertex_labels_ g) v with
            | None => Undefined
            | Some lab =>
                if decide (lab = 0) then
                  assign_loop fuel' cur_label (wrap32 (num_assigned + 1))
                    vertices_per_label
                    (set_labels g
                       (<[Z.to_nat v := cur_label]> (vertex_labels_ g))) r'
                else
                  assign_loop fuel' cur_label
                    (wrap32 (wrap32 (num_assigned - 1) + 1))
                    vertices_per_label g r'
            end
        end
    end
  else Done (g, r).

(** The loop over the labels [1 .. l_ - 1]. *)
Fixpoint quota_loop (fuel : nat) (cur_labels : list Z)
    (vertices_per_label labels_left : Z) (g : LabelledGraph) (r : Rng)
  : outcome (Z * LabelledGraph * Rng) :=
  match cur_labels with
  | [] => Done (labels_left, g, r)
  | cur_label :: rest =>
      match assign_loop fuel cur_label 0 vertices_per_label g r with
      | Done (g', r') =>
          quota_loop fuel rest vertices_per_label
            (wrap32 (labels_left - vertices_per_label)) g' r'
      | Undefined => Undefined
      | OutOfFuel => OutOfFuel
      end
  end.

(** [while( s.count( l ) > 0 ) l = rand() % l_] *)
Fixpoint pick_loop (fuel : nat) (l : Z) (s : gset Z) (num_labels : Z)
    (r : Rng) : outcome (Z * Rng) :=
  if decide (l ∈ s) then
    match fuel with
    | O => OutOfFuel
    | S fuel' =>
        match rand_mod num_labels r with
        | None => Undefined
        | Some (l', r') => pick_loop fuel' l' s num_labels r'
        end
    end
  else Done (l, r).

(** The loop that hands out the remainder. *)
Fixpoint remainder_loop (fuel : nat) (labels_left : Z) (s : gset Z)
    (g : LabelledGraph) (r : Rng) : outcome (LabelledGraph * Rng) :=
  if decide (0 < labels_left) then
    match fuel with
    | O => OutOfFuel
    | S fuel' =>
        match rand_mod (n_ g) r with
        | None => Undefined
        | Some (v, r1) =>
            match at_ (vertex_labels_ g) v with
            | None => Undefined
            | Some lab =>
                if decide (lab = 0) then
                  match rand_mod (l_ g) r1 with
                  | None => Undefined
                  | Some (l0, r2) =>
                      match pick_loop fuel l0 s (l_ g) r2 with
                      | Done (l, r3) =>
                          remainder_loop fuel' (wrap32 (labels_left - 1))
                            ({[l]} ∪ s)
                            (set_labels g
                               (<[Z.to_nat v := l]> (vertex_labels_ g))) r3
                      | Undefined => Undefined
                      | OutOfFuel => OutOfFuel
                      end
                  end
                else
                  match rand_mod (l_ g) r1 with
                  | None => Undefined
                  | Some (x, r2) =>
                      if decide (x = 0) then
                        remainder_loop fuel' (wrap32 (labels_left - 1)) s g r2
                      else remainder_loop fuel' labels_left s g r2
                  end
            end
        end
    end
  else Done (g, r).

(** Each loop may make [fuel] rounds. *)
Definition evenly_distribute_labels (fuel : nat) (g : LabelledGraph)
    (r : Rng) : outcome (LabelledGraph * Rng) :=
  if decide (l_ g = 0) then Undefined
  else
    let vertices_per_label := n_ g / l_ g in
    let labels_left := wrap32 (n_ g - vertices_per_label) in
    match quota_loop fuel (seqZ 1 (l_ g - 1)) vertices_per_label
            labels_left g r with
    | Done (labels_left, g', r') =>
        if decide (0 < labels_left) then
          remainder_loop fuel labels_left ∅ g' r'
        else Done (g', r')
    | Undefined => Undefined
    | OutOfFuel => OutOfFuel
    end.

(** The number of vertices that carry the label [c]. *)
Definition label_count (g : LabelledGraph) (c : Z) : nat :=
  length (filter (λ x, x = c) (vertex_labels_ g)).

(** ** Text streams

    The part of the C++ stream library that the constructor from a file
    and [print] use, on texts as lists of characters. *)

Definition text : Type := list ascii.

Definition newline : ascii := "010"%char.
Definition blank : ascii := " "%char.

(** [isspace] in the C locale. *)
Definition is_space (c : ascii) : bool :=
  let n := nat_of_ascii c in
  (n =? 32)%nat || ((9 <=? n)%nat && (n <=? 13)%nat).

Definition digit_of (d : Z) : ascii := ascii_of_nat (48 + Z.to_nat d).

Definition digit_value (c : ascii) : option Z :=
  let n := Z.of_nat (nat_of_ascii c) in
  if decide (48 ≤ n ≤ 57) then Some (n - 48) else None.

(** A character that stands for a decimal digit. *)
Definition is_digit (c : ascii) : Prop := ∃ d, 0 ≤ d ≤ 9 ∧ c = digit_of d.

(** [out << x] for an unsigned 32-bit [x]: its decimal digits. *)
Fixpoint show_digits (fuel : nat) (z : Z) (acc : text) : text :=
  match fuel with
  | O => acc
  | S fuel' =>
      let acc' := digit_of (z mod 10) :: acc in
      if decide (z < 10) then acc' else show_digits fuel' (z / 10) acc'
  end.

Definition show_uint32 (z : Z) : text := show_digits 10 z [].

(** An input stream: what is left to read, [eofbit] and [failbit]. *)
Record istream := mk_istream {
  buffer : text;
  eofbit : bool;
  failbit : bool
}.

(** [std::ifstream infile( filename )]: a file that cannot be opened
    gives a stream that has failed. *)
Definition open_file (contents : option text) : istream :=
  match contents with
  | Some t => mk_istream t false false
  | None => mk_istream [] false true
  end.

(** [std::istringstream iss( line )] *)
Definition istringstream (line : text) : istream := mk_istream line false false.

(** The characters before the first newline, and what follows it. *)
Fixpoint split_line (t : text) : text * option text :=
  match t with
  | [] => ([], None)
  | c :: t' =>
      if decide (c = newline) then ([], Some t')
      else let '(l, rest) := split_line t' in (c :: l, rest)
  end.

(** [std::getline( in, line )]: a stream that is not good is marked as
    failed and [line] is left as it is; otherwise [line] receives the
    characters up to the newline, which is consumed; reaching the end sets
    [eofbit], and [failbit] too if nothing was read. *)
Definition getline (i : istream) (line : text) : istream * text :=
  if eofbit i || failbit i then (mk_istream (buffer i) (eofbit i) true, line)
  else
    match split_line (buffer i) with
    | (l, Some rest) => (mk_istream rest false false, l)
    | (l, None) =>
        (mk_istream [] true (bool_decide (l = [])), l)
    end.

Fixpoint skip_space (t : text) : text :=
  match t with
  | c :: t' => if is_space c then skip_space t' else t
  | [] => []
  end.

(** The digits at the head of a text: their value, whether there was one,
    and the rest. *)
Fixpoint read_digits (t : text) (acc : Z) (any : bool) : Z * bool * text :=
  match t with
  | c :: t' =>
      match digit_value c with
      | Some d => read_digits t' (acc * 10 + d) true
      | None => (acc, any, t)
      end
  | [] => (acc, any, [])
  end.

Definition UINT32_MAX : Z := 2 ^ 32 - 1.

(** [in >> x] for an unsigned 32-bit [x] (as libstdc++ does it): on a
    stream that is not good, or that ends after white space, the stream
    fails and [x] keeps its value; otherwise an optional sign and the
    digits are read: no digit stores 0 and fails, a value above
    [UINT32_MAX] stores [UINT32_MAX] and fails, a minus sign negates in 32
    bits.  Reading up to the end of the text sets [eofbit]. *)
Definition extract_uint32 (i : istream) (x : Z) : istream * Z :=
  if eofbit i || failbit i then (mk_istream (buffer i) (eofbit i) true, x)
  else
    match skip_space (buffer i) with
    | [] => (mk_istream [] true true, x)
    | c :: t =>
        let '(negative, t1) :=
          if decide (c = "-"%char) then (true, t)
          else if decide (c = "+"%char) then (false, t)
          else (false, c :: t) in
        let '(value, any, rest) := read_digits t1 0 false in
        let eof := bool_decide (rest = []) in
        if any : bool then
          if decide (UINT32_MAX < value)
          then (mk_istream rest eof true, UINT32_MAX)
          else (mk_istream rest eof false,
                if negative : bool then wrap32 (- value) else value)
        else (mk_istream rest eof true, 0)
    end.

(** The numbers of a line after the label, each followed by a blank. *)
Definition tokens (vs : list Z) : text :=
  vs ≫= (λ v, show_uint32 v ++ [blank]).

(** ** [print] *)

Section Serialization.

(** The order in which an [unordered_set] is iterated is not specified. *)
Variable iteration_order : gset Z → list Z.

(** The line of vertex [i]. *)
Definition print_vertex (g : LabelledGraph) (out : text) (i : Z)
  : option text :=
  label ← at_ (vertex_labels_ g) i;
  adj ← at_ (adjacency_list_ g) i;
  Some (out ++ show_uint32 label ++ [blank]
          ++ foldl (λ out v, out ++ show_uint32 v ++ [blank]) []
               (iteration_order adj)
          ++ [newline]).

(** The line of vertex [i] without its newline. *)
Definition vertex_text (g : LabelledGraph) (i : Z) : text :=
  match at_ (vertex_labels_ g) i, at_ (adjacency_list_ g) i with
  | Some label, Some adj =>
      show_uint32 label ++ blank :: tokens (iteration_order adj)
  | _, _ => []
  end.

Definition print (g : LabelledGraph) : option text :=
  foldlM (print_vertex g)
    (show_uint32 (n_ g) ++ [blank] ++ show_uint32 (l_ g) ++ [newline])
    (seqZ 0 (n_ g)).

End Serialization.

(** ** The constructor from a file *)

(** What a construction leaves behind: the object, the file stream, and
    what was written to [std::cout] and [std::cerr]. *)
Record construction := mk_construction {
  graph : LabelledGraph;
  infile : istream;
  cout : text;
  cerr : text
}.

Definition parse_error_message : text :=
  list_ascii_of_string
    "Did not parse a positive number of vertices from input file. Did you format the file correctly and specify the correct path?"
  ++ [newline].

(** [while( iss >> v ) { add_edge( u, v ); }] *)
Fixpoint neighbours_loop (fuel : nat) (iss : istream) (v u : Z)
    (g : LabelledGraph) : outcome LabelledGraph :=
  match fuel with
  | O => OutOfFuel
  | S fuel' =>
      let '(iss', v') := extract_uint32 iss v in
      if failbit iss' then Done g
      else
        match add_edge u v' g with
        | None => Undefined
        | Some (_, g') => neighbours_loop fuel' iss' v' u g'
        end
  end.

(** One round of the loop over the vertices: the line of [u] is read, its
    first number is the label of [u], the others are neighbours of [u].
    The local [v] is not initialised: [v0] stands for what it holds. *)
Definition read_vertex (v0 : Z) (st : LabelledGraph * istream * text) (u : Z)
  : outcome (LabelledGraph * istream * text) :=
  let '(g, infile, line) := st in
  let '(infile, line) := getline infile line in
  let iss := istringstream line in
  match at_ (vertex_labels_ g) u with
  | None => Undefined
  | Some old =>
      let '(iss, label) := extract_uint32 iss old in
      let g := set_labels g (<[Z.to_nat u := label]> (vertex_labels_ g)) in
      match neighbours_loop (S (length line)) iss v0 u g with
      | Done g' => Done (g', infile, line)
      | Undefined => Undefined
      | OutOfFuel => OutOfFuel
      end
  end.

Fixpoint read_vertices (v0 : Z) (st : LabelledGraph * istream * text)
    (us : list Z) : outcome (LabelledGraph * istream * text) :=
  match us with
  | [] => Done st
  | u :: us' =>
      match read_vertex v0 st u with
      | Done st' => read_vertices v0 st' us'
      | Undefined => Undefined
      | OutOfFuel => OutOfFuel
      end
  end.

(** The first line of the file and the vertex count read from it. *)
Definition first_line (contents : option text) : istream * text :=
  getline (open_file contents) [].

Definition parsed_vertex_count (contents : option text) (n0 : Z) : Z :=
  (extract_uint32 (istringstream (first_line contents).2) n0).2.

(** [LabelledGraph( filename )].  [contents] is the text of the file, if it
    can be opened; [n0], [l0] and [m0] stand for what the members [n_],
    [l_] and [m_] hold when the body starts, and [v0] for the local [v]:
    none of them is initialised by [labelled_graph.cpp]. *)
Definition LabelledGraph_from_file (filename : text) (contents : option text)
    (n0 l0 m0 v0 : Z) : outcome construction :=
  let line := [] in
  let cout := filename ++ [newline] in
  let infile := open_file contents in
  let '(infile, line) := getline infile line in
  let iss := istringstream line in
  let '(iss, n) := extract_uint32 iss n0 in
  let '(iss, l) := extract_uint32 iss l0 in
  let g := mkGraph n l m0 [] [] in
  if decide (n ≤ 0) then
    Done (mk_construction g infile cout parse_error_message)
  else
    match read_vertices v0 (init g, infile, line) (seqZ 0 n) with
    | Done (g', infile', _) => Done (mk_construction g' infile' cout [])
    | Undefined => Undefined
    | OutOfFuel => OutOfFuel
    end.

(** ** What the distributions count

    The counts as the spec words them, to compare [get_global_ld] and
    [get_neighbourhood_ld] with. *)

(** The number of elements of [labels] equal to [c]. *)
Definition occurrences (c : Z) (labels : list Z) : Z :=
  Z.of_nat (length (filter (λ x, x = c) labels)).

(** [counts] gives, for every label, the number of vertices that carry it. *)
Definition is_global_distribution (g : LabelledGraph)
    (counts : LabelDistribution) : Prop :=
  ∀ c, 0 ≤ c < l_ g →
    at_ counts c = Some (wrap32 (occurrences c (vertex_labels_ g))).

(** [counts] gives, for every label, the number of vertices that carry it
    among [v] and the neighbours of [v]. *)
Definition is_closed_neighbourhood_distribution (g : LabelledGraph) (v : Z)
    (counts : LabelDistribution) : Prop :=
  ∃ lv adj ls,
    at_ (vertex_labels_ g) v = Some lv ∧
    at_ (adjacency_list_ g) v = Some adj ∧
    Forall2 (λ u lu, at_ (vertex_labels_ g) u = Some lu) (elements adj) ls ∧
    ∀ c, 0 ≤ c < l_ g →
      at_ counts c = Some (wrap32 (occurrences c (lv :: ls))).

(** ** Well-formed graphs

    The invariant of the data model: [n_] vertices, one label in [0, l_)
    each, adjacency sets over the vertices, no self-loop, symmetric. *)

Record wf (g : LabelledGraph) : Prop := mk_wf {
  wf_n : 0 ≤ n_ g < 2 ^ 32;
  wf_l : 0 ≤ l_ g < 2 ^ 32;
  wf_adj_length : length (adjacency_list_ g) = Z.to_nat (n_ g);
  wf_labels_length : length (vertex_labels_ g) = Z.to_nat (n_ g);
  wf_labels : ∀ i x, vertex_labels_ g !! i = Some x → 0 ≤ x < l_ g;
  wf_adj_range : ∀ u v, adjacent g u v = true → 0 ≤ v < n_ g;
  wf_irrefl : ∀ u, adjacent g u u = false;
  wf_sym : ∀ u v, adjacent g u v = adjacent g v u
}.

(** [g'] has the vertices, labels and edges of [g], and maybe more edges. *)
Record extends (g g' : LabelledGraph) : Prop := mk_extends {
  ext_n : n_ g' = n_ g;
  ext_l : l_ g' = l_ g;
  ext_labels : vertex_labels_ g' = vertex_labels_ g;
  ext_length : length (adjacency_list_ g') = length (adjacency_list_ g);
  ext_edges : ∀ u v, adjacent g u v = true → adjacent g' u v = true
}.


(** The number of pairs of vertices that can still receive an edge. *)
Definition missing_edges (g : LabelledGraph) : nat :=
  length (non_adjacent_pairs g).

(** [edges_added P g g' k]: [g'] is [g] after [k] successful calls of
    [add_edge], each between two vertices of [P]. *)
Inductive edges_added (P : Z → Prop)
  : LabelledGraph → LabelledGraph → nat → Prop :=
  | added_none g : edges_added P g g 0
  | added_one g u v g1 g' k :
      P u → P v →
      add_edge u v g = Some (true, g1) →
      edges_added P g1 g' k →
      edges_added P g g' (S k).

(** ** Sample inputs *)

(** Vertices 0, 1, 2 and 4 form a clique and vertex 3 is isolated; the
    labels are 1, 1, 1, 1, 2 out of three. *)
Definition clique_and_loner : LabelledGraph :=
  mkGraph 5 3 6
    [{[1; 2; 4]}; {[0; 2; 4]}; {[0; 1; 4]}; ∅; {[0; 1; 2]}]
    [1; 1; 1; 1; 2].

(** A generator whose draws are read from a list, then 1 for ever. *)
Definition rng_of (l : list Z) : Rng := mkRng (λ i, l !!! i) 0.

(** Three isolated vertices with the labels 1, 2 and 3 out of four. *)
Definition three_loners : LabelledGraph :=
  mkGraph 3 4 0 [∅; ∅; ∅] [1; 2; 3].

(** [read_up_to g k gc]: [gc] is what the constructor has built when it
    has read the lines of the vertices below [k] of the text of [g]: their
    labels, and the edges with an end below [k]. *)
Record read_up_to (g : LabelledGraph) (k : Z) (gc : LabelledGraph)
  : Prop := mk_read_up_to {
  rd_n : n_ gc = n_ g;
  rd_l : l_ gc = l_ g;
  rd_adj_length :
    length (adjacency_list_ gc) = length (adjacency_list_ g);
  rd_labels_length :
    length (vertex_labels_ gc) = length (vertex_labels_ g);
  rd_labels : ∀ i, 0 ≤ i < k →
    at_ (vertex_labels_ gc) i = at_ (vertex_labels_ g) i;
  rd_edges : ∀ w x,
    adjacent gc w x = true ↔ adjacent g w x = true ∧ (w < k ∨ x < k)
}.

(** A test of [wf] that can be run. *)
Definition wf_check (g : LabelledGraph) : bool :=
  bool_decide (0 ≤ n_ g < 2 ^ 32) && bool_decide (0 ≤ l_ g < 2 ^ 32) &&
  bool_decide (length (adjacency_list_ g) = Z.to_nat (n_ g)) &&
  bool_decide (length (vertex_labels_ g) = Z.to_nat (n_ g)) &&
  forallb (λ x, bool_decide (0 ≤ x < l_ g)) (vertex_labels_ g) &&
  forallb
    (λ u, match at_ (adjacency_list_ g) u with
          | Some s =>
              forallb
                (λ v, bool_decide (0 ≤ v < n_ g ∧ v ≠ u) && adjacent g v u)
                (elements s)
          | None => false
          end)
    (seqZ 0 (n_ g)).

(** A clique on the vertices 0 to 3, labelled 1, 1, 2, 2, and the isolated
    vertices 4 and 5, labelled 1 and 2. *)
Definition clique_and_pair : LabelledGraph :=
  mkGraph 6 3 6
    [{[1; 2; 3]}; {[0; 2; 3]}; {[0; 1; 3]}; {[0; 1; 2]}; ∅; ∅]
    [1; 1; 2; 2; 1; 2].

(** [three_loners] with the edge between the vertices 0 and 1. *)
Definition three_loners_joined : LabelledGraph :=
  mkGraph 3 4 1 [{[1]}; {[0]}; ∅] [1; 2; 3].

(** [l] is the lowest label of the mask [defs]. *)
Definition lowest_set_bit (defs l : Z) : Prop :=
  0 ≤ l < 32 ∧ Z.testbit defs l = true ∧
  ∀ i, 0 ≤ i < l → Z.testbit defs i = false.

(** The labels [l], [l - 1], ... : [k] of them. *)
Definition descending (l : Z) (k : nat) : list Z :=
  (λ i, l - i) <$> seqZ 0 (Z.of_nat k).

(** ** Further definitions *)

(** [get_neighbourhood_ld] with the neighbours of [v] visited in the order
    [us] instead of the order of [elements]. *)
Definition get_neighbourhood_ld_in_order (g : LabelledGraph) (v : Z)
    (us : list Z) : option LabelDistribution :=
  lv ← at_ (vertex_labels_ g) v;
  counts ← incr (zero_counts (l_ g)) lv;
  foldlM (λ counts u, lu ← at_ (vertex_labels_ g) u; incr counts lu)
         counts us.

(** [g'] is [g] but for the values of the labels. *)
Definition same_but_labels (g g' : LabelledGraph) : Prop :=
  n_ g' = n_ g ∧ l_ g' = l_ g ∧ m_ g' = m_ g ∧
  adjacency_list_ g' = adjacency_list_ g ∧
  length (vertex_labels_ g') = length (vertex_labels_ g).

(** Every label is in [0, l). *)
Definition labels_below (l : Z) (labels : list Z) : Prop :=
  Forall (λ x, 0 ≤ x < l) labels.

(** The first line that [print] writes and the lines of the vertices
    below [k]. *)
Definition print_lines (iteration_order : gset Z → list Z)
    (g : LabelledGraph) (k : Z) : text :=
  show_uint32 (n_ g) ++ [blank] ++ show_uint32 (l_ g) ++ [newline] ++
  (seqZ 0 k ≫= λ i, vertex_text iteration_order g i ++ [newline]).

(** The complete graph on three vertices with the labels 0, 1 and 1 out
    of two. *)
Definition triangle : LabelledGraph :=
  mkGraph 3 2 3 [{[1; 2]}; {[0; 2]}; {[0; 1]}] [0; 1; 1].
(** ** Vectors and counts *)

Lemma wrap32_idemp z : wrap32 (wrap32 z) = wrap32 z.
Proof. unfold wrap32. by rewrite Zmod_mod. Qed.

Lemma at_Some {A : Type} (v : list A) (i : Z) (x : A) :
  at_ v i = Some x ↔ 0 ≤ i ∧ v !! Z.to_nat i = Some x.
Proof. unfold at_. destruct (decide (0 ≤ i)); naive_solver. Qed.

Lemma at_is_Some {A : Type} (v : list A) (i : Z) :
  0 ≤ i < Z.of_nat (length v) → is_Some (at_ v i).
Proof.
  intros Hi. unfold at_. rewrite decide_True by lia.
  apply lookup_lt_is_Some. lia.
Qed.

Lemma at_lt {A : Type} (v : list A) (i : Z) (x : A) :
  at_ v i = Some x → 0 ≤ i < Z.of_nat (length v).
Proof.
  rewrite at_Some. intros [Hi Hx]. apply lookup_lt_Some in Hx. lia.
Qed.

Lemma incr_length counts i counts' :
  incr counts i = Some counts' → length counts' = length counts.
Proof.
  unfold incr. destruct (at_ counts i); simpl; [|done].
  intros [= <-]. apply length_insert.
Qed.

Lemma incr_is_Some counts i :
  0 ≤ i < Z.of_nat (length counts) → is_Some (incr counts i).
Proof.
  intros Hi. unfold incr. destruct (at_is_Some counts i Hi) as [c ->].
  simpl. eauto.
Qed.

Lemma zero_counts_length l : length (zero_counts l) = Z.to_nat l.
Proof. apply length_replicate. Qed.

(** A loop whose body is defined on every element and keeps an invariant
    is defined. *)
Lemma foldlM_is_Some {A B : Type} (f : A → B → option A) (I : A → Prop) l :
  (∀ a x, I a → x ∈ l → ∃ a', f a x = Some a' ∧ I a') →
  ∀ a, I a → ∃ a', foldlM f a l = Some a' ∧ I a'.
Proof.
  induction l as [|x l IH]; intros Hf a Ha; simpl; [eauto|].
  destruct (Hf a x Ha) as (a' & -> & Ha'); [left|]. simpl.
  apply IH; [|done]. intros a0 y H0 Hy. apply Hf; [done | by right].
Qed.

Lemma elem_of_seqZ_0 (n v : Z) : v ∈ seqZ 0 n ↔ 0 ≤ v < n.
Proof. rewrite elem_of_seqZ. lia. Qed.

Lemma get_global_ld_is_Some g : wf g → is_Some (get_global_ld g).
Proof.
  intros Hwf. unfold get_global_ld.
  destruct (foldlM_is_Some incr (λ c, length c = Z.to_nat (l_ g))
              (vertex_labels_ g)) with (a := zero_counts (l_ g))
    as (c & -> & _); [| apply zero_counts_length | eauto].
  intros c x Hc Hx. apply list_elem_of_lookup in Hx as [i Hi].
  apply (wf_labels g Hwf) in Hi.
  destruct (incr_is_Some c x) as [c' Hc']; [lia|].
  exists c'. split; [done|]. by rewrite (incr_length _ _ _ Hc').
Qed.

Lemma get_neighbourhood_ld_is_Some g v :
  wf g → 0 ≤ v < n_ g → is_Some (get_neighbourhood_ld g v).
Proof.
  intros Hwf Hv. unfold get_neighbourhood_ld.
  destruct (at_is_Some (vertex_labels_ g) v) as [lv Hlv];
    [rewrite (wf_labels_length g Hwf); lia|].
  rewrite Hlv. simpl.
  pose proof Hlv as Hlv'. apply at_Some in Hlv' as [_ Hlv'].
  apply (wf_labels g Hwf) in Hlv'.
  destruct (incr_is_Some (zero_counts (l_ g)) lv) as [c Hc];
    [rewrite zero_counts_length; lia|].
  rewrite Hc. simpl.
  destruct (at_is_Some (adjacency_list_ g) v) as [adj Hadj];
    [rewrite (wf_adj_length g Hwf); lia|].
  rewrite Hadj. simpl.
  destruct (foldlM_is_Some
              (λ counts u, lu ← at_ (vertex_labels_ g) u; incr counts lu)
              (λ c, length c = Z.to_nat (l_ g)) (elements adj))
    with (a := c) as (c' & -> & _); [| | eauto].
  - intros c0 u Hc0 Hu. apply elem_of_elements in Hu.
    assert (0 ≤ u < n_ g) as Hur.
    { apply (wf_adj_range g Hwf v). unfold adjacent. rewrite Hadj.
      by apply bool_decide_eq_true. }
    destruct (at_is_Some (vertex_labels_ g) u) as [lu Hlu];
      [rewrite (wf_labels_length g Hwf); lia|].
    rewrite Hlu. simpl.
    pose proof Hlu as Hlu'. apply at_Some in Hlu' as [_ Hlu'].
    apply (wf_labels g Hwf) in Hlu'.
    destruct (incr_is_Some c0 lu) as [c1 Hc1]; [lia|].
    exists c1. split; [done|]. by rewrite (incr_length _ _ _ Hc1).
  - by rewrite (incr_length _ _ _ Hc), zero_counts_length.
Qed.

(** ** The counts of the distributions *)

Lemma occurrences_cons c a labels :
  occurrences c (a :: labels) =
  (if decide (a = c) then 1 else 0) + occurrences c labels.
Proof.
  unfold occurrences. rewrite filter_cons.
  destruct (decide (a = c)); simpl; lia.
Qed.

Lemma incr_loop_counts labels : ∀ counts counts',
  (∀ j x, counts !! j = Some x → x = wrap32 x) →
  foldlM incr counts labels = Some counts' →
  ∀ c x, 0 ≤ c → counts !! Z.to_nat c = Some x →
    counts' !! Z.to_nat c = Some (wrap32 (x + occurrences c labels)).
Proof.
  induction labels as [|a labels IH]; intros counts counts' Hrange; simpl.
  { intros [= <-] c x _ Hx. rewrite Hx. f_equal.
    change (occurrences c []) with 0. rewrite Z.add_0_r. by eapply Hrange. }
  destruct (incr counts a) as [c1|] eqn:Hincr; simpl; [|done].
  unfold incr in Hincr.
  destruct (at_ counts a) as [y|] eqn:Hy; simpl in Hincr; [|done].
  injection Hincr as <-. pose proof (at_lt _ _ _ Hy) as Ha.
  apply at_Some in Hy as [_ Hy].
  intros Hrun c x Hc Hx. rewrite occurrences_cons.
  assert (∀ j z, <[Z.to_nat a := wrap32 (y + 1)]> counts !! j = Some z →
                 z = wrap32 z) as Hrange1.
  { intros j z Hz. destruct (decide (j = Z.to_nat a)) as [->|Hne].
    - rewrite list_lookup_insert_eq in Hz by lia. injection Hz as <-.
      by rewrite wrap32_idemp.
    - rewrite list_lookup_insert_ne in Hz by done. by eapply Hrange. }
  destruct (decide (a = c)) as [->|Hne].
  - assert (y = x) as -> by congruence.
    rewrite (IH _ _ Hrange1 Hrun c (wrap32 (x + 1)) Hc)
      by (rewrite list_lookup_insert_eq; [done | lia]).
    f_equal. unfold wrap32. rewrite Zplus_mod_idemp_l. f_equal. lia.
  - rewrite (IH _ _ Hrange1 Hrun c x Hc)
      by (rewrite list_lookup_insert_ne; [done | lia]).
    done.
Qed.

Lemma zero_counts_lookup l c :
  0 ≤ c < l → zero_counts l !! Z.to_nat c = Some 0.
Proof. intros Hc. unfold zero_counts. apply lookup_replicate_2. lia. Qed.

Lemma zero_counts_range l j x : zero_counts l !! j = Some x → x = wrap32 x.
Proof. unfold zero_counts. by intros [-> _]%lookup_replicate. Qed.

Lemma get_global_ld_counts g global :
  get_global_ld g = Some global → is_global_distribution g global.
Proof.
  unfold get_global_ld. intros Hrun c Hc. apply at_Some. split; [lia|].
  eapply incr_loop_counts in Hrun;
    [| apply zero_counts_range | | by apply zero_counts_lookup]; [|lia].
  by rewrite Hrun.
Qed.

Lemma neighbour_loop_labels labels us : ∀ counts counts',
  foldlM (λ counts u, lu ← at_ labels u; incr counts lu) counts us
    = Some counts' →
  ∃ ls, Forall2 (λ u lu, at_ labels u = Some lu) us ls ∧
        foldlM incr counts ls = Some counts'.
Proof.
  induction us as [|u us IH]; intros counts counts'; simpl.
  { intros [= <-]. exists []. split; [constructor | done]. }
  destruct (at_ labels u) as [lu|] eqn:Hlu; simpl; [|done].
  destruct (incr counts lu) as [c1|] eqn:Hincr; simpl; [|done].
  intros (ls & Hls & Hrun)%IH. exists (lu :: ls). split; [by constructor|].
  simpl. by rewrite Hincr.
Qed.

Lemma get_neighbourhood_ld_counts g v nb :
  get_neighbourhood_ld g v = Some nb →
  is_closed_neighbourhood_distribution g v nb.
Proof.
  unfold get_neighbourhood_ld.
  destruct (at_ (vertex_labels_ g) v) as [lv|] eqn:Hlv; simpl; [|done].
  destruct (incr (zero_counts (l_ g)) lv) as [c1|] eqn:Hincr; simpl; [|done].
  destruct (at_ (adjacency_list_ g) v) as [adj|] eqn:Hadj; simpl; [|done].
  intros (ls & Hls & Hrun)%neighbour_loop_labels.
  exists lv, adj, ls. repeat (split; [done|]).
  intros c Hc. apply at_Some. split; [lia|].
  assert (foldlM incr (zero_counts (l_ g)) (lv :: ls) = Some nb) as Hall
    by (simpl; by rewrite Hincr).
  eapply incr_loop_counts in Hall;
    [| apply zero_counts_range | | by apply zero_counts_lookup]; [|lia].
  by rewrite Hall.
Qed.

(** ** The proximity test *)

Section ProximityTest.

Variable distance : LabelDistribution → LabelDistribution → Q.

Lemma Qlt_bool_true x y : Qlt_bool x y = true ↔ (x < y)%Q.
Proof.
  unfold Qlt_bool. rewrite negb_true_iff.
  destruct (Qle_bool y x) eqn:E.
  - apply Qle_bool_iff in E. split; [done|]. intros H.
    exfalso. by apply (Qlt_not_le x y).
  - split; [|done]. intros _. apply Qnot_le_lt. intros H.
    apply Qle_bool_iff in H. congruence.
Qed.

Lemma proximal_step_spec g global mx v mx' :
  proximal_step distance g global mx v = Some mx' →
  ∃ nb, get_neighbourhood_ld g v = Some nb ∧
    (mx <= mx')%Q ∧ (distance global nb <= mx')%Q ∧
    (mx' = mx ∨ mx' = distance global nb).
Proof.
  unfold proximal_step.
  destruct (get_neighbourhood_ld g v) as [nb|]; simpl; [|done].
  intros [= <-]. exists nb. split; [done|].
  destruct (Qlt_bool mx (distance global nb)) eqn:E.
  - apply Qlt_bool_true in E.
    repeat split; [by apply Qlt_le_weak | apply Qle_refl | by right].
  - assert (distance global nb <= mx)%Q as Hle.
    { apply Qnot_lt_le. intros H. apply Qlt_bool_true in H. congruence. }
    repeat split; [apply Qle_refl | done | by left].
Qed.

(** What the loop of [is_alpha_proximal] leaves in [max_distance]. *)
Lemma max_loop_spec g global vs : ∀ mx M,
  foldlM (proximal_step distance g global) mx vs = Some M →
  (mx <= M)%Q ∧
  (∀ v, v ∈ vs → ∃ nb, get_neighbourhood_ld g v = Some nb ∧
                        (distance global nb <= M)%Q) ∧
  (M = mx ∨ ∃ v nb, v ∈ vs ∧ get_neighbourhood_ld g v = Some nb ∧
                     M = distance global nb).
Proof.
  induction vs as [|v vs IH]; intros mx M; simpl.
  - intros [= <-]. split; [apply Qle_refl|]. split; [|by left].
    intros v Hv. by apply elem_of_nil in Hv.
  - destruct (proximal_step distance g global mx v) as [mx1|] eqn:E;
      simpl; [|done].
    intros HM. apply IH in HM as (Hle & Hall & Hwit).
    apply proximal_step_spec in E as (nb & Hnb & Hmx & Hd & Hcase).
    split; [by eapply Qle_trans|]. split.
    + intros w Hw. apply elem_of_cons in Hw as [->|Hw]; [|by apply Hall].
      exists nb. split; [done|]. by eapply Qle_trans.
    + destruct Hwit as [->|(w & nbw & Hw & Hnbw & ->)].
      * destruct Hcase as [->| ->]; [by left|].
        right. exists v, nb. split; [left | done].
      * right. exists w, nbw. split; [by right | done].
Qed.

Lemma max_distance_of_is_Some g global :
  wf g → is_Some (max_distance_of distance g global).
Proof.
  intros Hwf. unfold max_distance_of.
  destruct (foldlM_is_Some (proximal_step distance g global) (λ _, True)
              (seqZ 0 (n_ g))) with (a := 0%Q) as (M & -> & _);
    [| done | eauto].
  intros mx v _ Hv. apply elem_of_seqZ_0 in Hv.
  unfold proximal_step.
  destruct (get_neighbourhood_ld_is_Some g v Hwf Hv) as [nb ->].
  simpl. eauto.
Qed.

Lemma is_alpha_proximal_is_Some alpha g :
  wf g → is_Some (is_alpha_proximal distance alpha g).
Proof.
  intros Hwf. unfold is_alpha_proximal.
  destruct (get_global_ld_is_Some g Hwf) as [global ->]. simpl.
  destruct (max_distance_of_is_Some g global Hwf) as [M ->]. simpl. eauto.
Qed.

(** The value of the loop is the maximum, when distances are not
    negative. *)
Lemma max_distance_of_max g global mx M :
  (∀ a b, (0 <= distance a b)%Q) →
  max_distance_of distance g global = Some mx →
  max_vertex_distance distance g global M → (mx == M)%Q.
Proof.
  intros Hpos Hmx [(v0 & Hv0 & nb0 & Hnb0 & HM0) Hub].
  apply max_loop_spec in Hmx as (H0 & Hall & Hwit).
  apply Qle_antisym.
  - destruct Hwit as [->|(w & nbw & Hw & Hnbw & ->)].
    + rewrite HM0. apply Hpos.
    + apply elem_of_seqZ_0 in Hw. apply (Hub w); [done|].
      exists nbw. split; [done | reflexivity].
  - destruct (Hall v0) as (nb & Hnb & Hle); [by apply elem_of_seqZ_0|].
    rewrite HM0. congruence.
Qed.

(** C1. [is_alpha_proximal(alpha)] computes the global label distribution
    and, for every vertex [0 .. n_ - 1], the distribution of its closed
    neighbourhood (the vertex and its neighbours); it is defined on every
    well-formed graph; and, distances being non-negative, it returns true
    if and only if the maximum over the vertices of the distance between
    the vertex's closed-neighbourhood distribution and the global
    distribution is at most [alpha]. *)
Theorem is_alpha_proximal_iff_max_le (alpha : Q) (g : LabelledGraph) :
  (∀ a b, (0 <= distance a b)%Q) →
  (wf g → is_Some (is_alpha_proximal distance alpha g)) ∧
  ∀ result, is_alpha_proximal distance alpha g = Some result →
    ∃ global,
      get_global_ld g = Some global ∧
      is_global_distribution g global ∧
      (∀ v, 0 ≤ v < n_ g → ∃ neighbourhood,
         get_neighbourhood_ld g v = Some neighbourhood ∧
         is_closed_neighbourhood_distribution g v neighbourhood) ∧
      ∀ M, max_vertex_distance distance g global M →
           (result = true ↔ (M <= alpha)%Q).
Proof.
  intros Hpos. split; [apply is_alpha_proximal_is_Some|].
  intros result. unfold is_alpha_proximal.
  destruct (get_global_ld g) as [global|] eqn:Hglobal; simpl; [|done].
  destruct (max_distance_of distance g global) as [mx|] eqn:Hmx;
    simpl; [|done].
  intros [= <-]. exists global. split; [done|].
  split; [by apply get_global_ld_counts|]. split.
  - intros v Hv. apply max_loop_spec in Hmx as (_ & Hall & _).
    destruct (Hall v) as (nb & Hnb & _); [by apply elem_of_seqZ_0|].
    exists nb. split; [done | by apply get_neighbourhood_ld_counts].
  - intros M HM. rewrite Qle_bool_iff.
    by rewrite (max_distance_of_max g global mx M Hpos Hmx HM).
Qed.

(** The test in the form of the spec's monotonicity property: with
    [alpha] not negative, the result is true exactly when every vertex is
    within [alpha] of the global distribution. *)
Lemma is_alpha_proximal_iff_all_le (alpha : Q) (g : LabelledGraph) result :
  (0 <= alpha)%Q →
  is_alpha_proximal distance alpha g = Some result →
  ∃ global, get_global_ld g = Some global ∧
    (result = true ↔
     ∀ v d, 0 ≤ v < n_ g → vertex_distance distance g global v d → (d <= alpha)%Q).
Proof.
  intros Halpha. unfold is_alpha_proximal.
  destruct (get_global_ld g) as [global|]; simpl; [|done].
  destruct (max_distance_of distance g global) as [mx|] eqn:Hmx;
    simpl; [|done].
  intros [= <-]. exists global. split; [done|].
  apply max_loop_spec in Hmx as (H0 & Hall & Hwit).
  rewrite Qle_bool_iff. split.
  - intros Hle v d Hv (nb & Hnb & ->).
    destruct (Hall v) as (nb' & Hnb' & Hd); [by apply elem_of_seqZ_0|].
    assert (nb' = nb) as -> by congruence. by eapply Qle_trans.
  - intros Hall'. destruct Hwit as [->|(w & nbw & Hw & Hnbw & ->)]; [done|].
    apply elem_of_seqZ_0 in Hw. apply (Hall' w); [done|].
    exists nbw. split; [done | reflexivity].
Qed.

End ProximityTest.

(** ** Edge insertion *)

Lemma add_edge_true u v g g' :
  add_edge u v g = Some (true, g') →
  ∃ au av,
    at_ (adjacency_list_ g) u = Some au ∧
    at_ (adjacency_list_ g) v = Some av ∧
    u ≠ v ∧ (v ∉ au) ∧
    g' = set_adjacency g
           (<[Z.to_nat v := {[u]} ∪ av]>
              (<[Z.to_nat u := {[v]} ∪ au]> (adjacency_list_ g)))
           (wrap32 (m_ g + 1)).
Proof.
  unfold add_edge.
  destruct (at_ (adjacency_list_ g) u) as [au|]; simpl; [|done].
  destruct (at_ (adjacency_list_ g) v) as [av|]; simpl; [|done].
  destruct (decide (u = v ∨ v ∈ au)) as [|Hn]; [done|].
  intros [= <-]. exists au, av. naive_solver.
Qed.

Lemma add_edge_false u v g g' :
  add_edge u v g = Some (false, g') →
  g' = g ∧ (u = v ∨ adjacent g u v = true).
Proof.
  unfold add_edge, adjacent.
  destruct (at_ (adjacency_list_ g) u) as [au|]; simpl; [|done].
  destruct (at_ (adjacency_list_ g) v) as [av|]; simpl; [|done].
  destruct (decide (u = v ∨ v ∈ au)) as [[->|Hin]|Hn]; [| |done].
  - intros [= <-]. auto.
  - intros [= <-]. split; [done|]. right. by apply bool_decide_eq_true.
Qed.

Lemma add_edge_is_Some u v g :
  0 ≤ u < Z.of_nat (length (adjacency_list_ g)) →
  0 ≤ v < Z.of_nat (length (adjacency_list_ g)) →
  is_Some (add_edge u v g).
Proof.
  intros Hu Hv. unfold add_edge.
  destruct (at_is_Some _ _ Hu) as [au ->].
  destruct (at_is_Some _ _ Hv) as [av ->]. simpl.
  destruct (decide _); eauto.
Qed.

(** The edges after a successful insertion: the old ones and the new one,
    in both directions. *)
Lemma adjacent_add_edge u v g g' w x :
  add_edge u v g = Some (true, g') →
  adjacent g' w x =
  adjacent g w x || bool_decide (w = u ∧ x = v ∨ w = v ∧ x = u).
Proof.
  intros (au & av & Hau & Hav & Hne & Hnin & ->)%add_edge_true.
  pose proof (at_lt _ _ _ Hau) as Hu. pose proof (at_lt _ _ _ Hav) as Hv.
  apply at_Some in Hau as [_ Hau]. apply at_Some in Hav as [_ Hav].
  unfold adjacent, at_. simpl.
  destruct (decide (0 ≤ w)) as [Hw|Hw].
  2:{ symmetry. apply bool_decide_eq_false. lia. }
  destruct (decide (w = v)) as [->|Hwv].
  { rewrite list_lookup_insert_eq by (rewrite length_insert; lia).
    rewrite Hav. apply eq_true_iff_eq.
    rewrite orb_true_iff, !bool_decide_eq_true. set_solver. }
  rewrite list_lookup_insert_ne by lia.
  destruct (decide (w = u)) as [->|Hwu].
  { rewrite list_lookup_insert_eq by lia.
    rewrite Hau. apply eq_true_iff_eq.
    rewrite orb_true_iff, !bool_decide_eq_true. set_solver. }
  rewrite list_lookup_insert_ne by lia.
  rewrite (bool_decide_eq_false_2 (_ ∨ _)) by lia.
  by rewrite orb_false_r.
Qed.

(** ** The frame of the edge-adding operations *)

Lemma extends_refl g : extends g g.
Proof. by split. Qed.

Lemma extends_trans g1 g2 g3 : extends g1 g2 → extends g2 g3 → extends g1 g3.
Proof.
  intros [] []. split; try congruence. auto.
Qed.

Lemma add_edge_extends u v g ok g' :
  add_edge u v g = Some (ok, g') → extends g g'.
Proof.
  destruct ok.
  - intros H. pose proof (add_edge_true _ _ _ _ H)
      as (au & av & _ & _ & _ & _ & Hg').
    split; try (by rewrite Hg').
    + rewrite Hg'. simpl. by rewrite !length_insert.
    + intros w x Hwx. rewrite (adjacent_add_edge _ _ _ _ _ _ H), Hwx. done.
  - intros [-> _]%add_edge_false. apply extends_refl.
Qed.

Lemma add_random_edge_extends g r ok g' r' :
  add_random_edge g r = Some (ok, g', r') → extends g g'.
Proof.
  unfold add_random_edge.
  destruct (non_adjacent_pairs g) as [|p ps].
  { intros [= _ <- _]. apply extends_refl. }
  destruct (rand r) as [k r1].
  destruct ((p :: ps) !! _) as [[u v]|]; simpl; [|done].
  destruct (add_edge u v g) as [[ok1 g1]|] eqn:E; simpl; [|done].
  intros [= _ <- _]. by eapply add_edge_extends.
Qed.

(** ** The edges still missing *)

Lemma elem_of_all_pairs n u v : (u, v) ∈ all_pairs n ↔ 0 ≤ u < v ∧ v < n.
Proof.
  unfold all_pairs. rewrite list_elem_of_bind. split.
  - intros (x & Hin & Hx). apply elem_of_seqZ in Hx.
    apply list_elem_of_fmap in Hin as (y & [= -> ->] & Hy).
    apply elem_of_seqZ in Hy. lia.
  - intros Huv. exists u. split; [|apply elem_of_seqZ; lia].
    apply list_elem_of_fmap. exists v. split; [done|].
    apply elem_of_seqZ. lia.
Qed.

Lemma elem_of_non_adjacent_pairs g u v :
  (u, v) ∈ non_adjacent_pairs g ↔
  adjacent g u v = false ∧ 0 ≤ u < v ∧ v < n_ g.
Proof.
  unfold non_adjacent_pairs. rewrite list_elem_of_filter, elem_of_all_pairs.
  simpl. destruct (adjacent g u v); naive_solver.
Qed.

Lemma is_complete_true g :
  is_complete g = true ↔
  ∀ u v, 0 ≤ u < v → v < n_ g → adjacent g u v = true.
Proof.
  unfold is_complete. rewrite bool_decide_eq_true. split.
  - intros Hnil u v Hu Hv. destruct (adjacent g u v) eqn:E; [done|].
    assert ((u, v) ∈ non_adjacent_pairs g) as Hin
      by (apply elem_of_non_adjacent_pairs; auto).
    rewrite Hnil in Hin. by apply elem_of_nil in Hin.
  - intros Hall. destruct (non_adjacent_pairs g) as [|[u v] ps] eqn:E; [done|].
    assert ((u, v) ∈ non_adjacent_pairs g) as Hin by (rewrite E; left).
    apply elem_of_non_adjacent_pairs in Hin as (Hf & Hu & Hv).
    rewrite Hall in Hf; done.
Qed.

Lemma filter_length_le_impl {A : Type} (P R : A → Prop)
    `{!∀ x, Decision (P x)} `{!∀ x, Decision (R x)} (l : list A) :
  (∀ x, x ∈ l → R x → P x) →
  (length (filter R l) ≤ length (filter P l))%nat.
Proof.
  induction l as [|x l IH]; intros Himp; [done|].
  rewrite !filter_cons.
  assert (length (filter R l) ≤ length (filter P l))%nat
    by (apply IH; intros y Hy; apply Himp; by right).
  destruct (decide (R x)) as [HR|HR]; destruct (decide (P x)) as [HP|HP];
    simpl; try lia.
  exfalso. apply HP, Himp; [left | done].
Qed.

Lemma filter_length_lt_impl {A : Type} (P R : A → Prop)
    `{!∀ x, Decision (P x)} `{!∀ x, Decision (R x)} (l : list A) (x : A) :
  (∀ y, y ∈ l → R y → P y) → x ∈ l → P x → ¬ R x →
  (length (filter R l) < length (filter P l))%nat.
Proof.
  induction l as [|y l IH]; intros Himp Hx HP HR.
  { by apply elem_of_nil in Hx. }
  rewrite !filter_cons.
  assert (∀ z, z ∈ l → R z → P z) as Himp'
    by (intros z Hz; apply Himp; by right).
  pose proof (filter_length_le_impl P R l Himp') as Hle.
  apply elem_of_cons in Hx as [<-|Hx].
  - rewrite decide_False, decide_True by done. simpl. lia.
  - specialize (IH Himp' Hx HP HR).
    destruct (decide (R y)) as [HRy|HRy];
      destruct (decide (P y)) as [HPy|HPy]; simpl; try lia.
    exfalso. apply HPy, Himp; [left | done].
Qed.

(** ** Successful insertions in a well-formed graph *)

Lemma adjacent_lt g u v :
  adjacent g u v = true → 0 ≤ u < Z.of_nat (length (adjacency_list_ g)).
Proof.
  unfold adjacent. destruct (at_ (adjacency_list_ g) u) eqn:E; [|done].
  intros _. by eapply at_lt.
Qed.

Lemma add_edge_wf u v g g' :
  wf g → add_edge u v g = Some (true, g') → wf g'.
Proof.
  intros Hwf H.
  pose proof (add_edge_true _ _ _ _ H)
    as (au & av & Hau & Hav & Hne & Hnin & Hg').
  pose proof (at_lt _ _ _ Hau) as Hu. pose proof (at_lt _ _ _ Hav) as Hv.
  rewrite (wf_adj_length g Hwf) in Hu, Hv.
  assert (n_ g' = n_ g) as Hn by (by rewrite Hg').
  split.
  - rewrite Hn. apply Hwf.
  - rewrite Hg'. simpl. apply Hwf.
  - rewrite Hg'. simpl. rewrite !length_insert. apply Hwf.
  - rewrite Hg'. simpl. apply Hwf.
  - rewrite Hg'. simpl. apply Hwf.
  - intros w x. rewrite (adjacent_add_edge _ _ _ _ _ _ H), Hn.
    intros [Hwx|Hwx%bool_decide_eq_true]%orb_true_iff.
    + by apply (wf_adj_range g Hwf w).
    + destruct (wf_n g Hwf). lia.
  - intros w. rewrite (adjacent_add_edge _ _ _ _ _ _ H).
    rewrite (wf_irrefl g Hwf). simpl. apply bool_decide_eq_false. lia.
  - intros w x. rewrite !(adjacent_add_edge _ _ _ _ _ _ H).
    rewrite (wf_sym g Hwf w x). f_equal. apply bool_decide_ext. lia.
Qed.

Lemma add_edge_missing_edges u v g g' :
  wf g → add_edge u v g = Some (true, g') →
  (missing_edges g' < missing_edges g)%nat.
Proof.
  intros Hwf H.
  pose proof (add_edge_true _ _ _ _ H)
    as (au & av & Hau & Hav & Hne & Hnin & Hg').
  pose proof (at_lt _ _ _ Hau) as Hu. pose proof (at_lt _ _ _ Hav) as Hv.
  rewrite (wf_adj_length g Hwf) in Hu, Hv.
  assert (adjacent g u v = false) as Huv.
  { unfold adjacent. rewrite Hau. by apply bool_decide_eq_false. }
  assert (adjacent g v u = false) as Hvu by (by rewrite (wf_sym g Hwf)).
  unfold missing_edges, non_adjacent_pairs.
  replace (n_ g') with (n_ g) by (by rewrite Hg').
  apply (filter_length_lt_impl _ _ _ (Z.min u v, Z.max u v)).
  - intros [w x] _. simpl.
    rewrite (adjacent_add_edge _ _ _ _ _ _ H).
    destruct (adjacent g w x); simpl; tauto.
  - apply elem_of_all_pairs. destruct (wf_n g Hwf). lia.
  - simpl. destruct (Z.min_spec u v) as [[? ->]|[? ->]];
      destruct (Z.max_spec u v) as [[? ->]|[? ->]]; try lia.
    + rewrite Huv. simpl. tauto.
    + rewrite Hvu. simpl. tauto.
  - simpl. rewrite (adjacent_add_edge _ _ _ _ _ _ H).
    intros Hn. apply Hn. apply Is_true_true, orb_true_iff. right.
    apply bool_decide_eq_true. lia.
Qed.

Lemma edges_added_trans P g1 g2 g3 j k :
  edges_added P g1 g2 j → edges_added P g2 g3 k →
  edges_added P g1 g3 (j + k).
Proof.
  induction 1 as [|g u v ga gb j Hu Hv Hadd _ IH]; intros H3; [done|].
  simpl. eapply added_one; [exact Hu | exact Hv | exact Hadd | by apply IH].
Qed.

Lemma edges_added_impl (P R : Z → Prop) g g' k :
  (∀ x, P x → R x) → edges_added P g g' k → edges_added R g g' k.
Proof.
  intros Himp. induction 1 as [|g u v ga gb j Hu Hv Hadd _ IH]; [constructor|].
  apply (added_one R g u v ga gb j); auto.
Qed.

Lemma edges_added_wf P g g' k :
  wf g → edges_added P g g' k →
  wf g' ∧ (missing_edges g' + k ≤ missing_edges g)%nat.
Proof.
  intros Hwf Hadd. induction Hadd as [|g u v g1 g' k _ _ Hadd _ IH].
  { split; [done | lia]. }
  pose proof (add_edge_wf _ _ _ _ Hwf Hadd) as Hwf1.
  pose proof (add_edge_missing_edges _ _ _ _ Hwf Hadd).
  destruct (IH Hwf1). split; [done | lia].
Qed.

(** Vertices outside [P] keep their adjacency set; labels and sizes stay. *)
Lemma edges_added_frame P g g' k :
  edges_added P g g' k →
  n_ g' = n_ g ∧ l_ g' = l_ g ∧ vertex_labels_ g' = vertex_labels_ g ∧
  ∀ w, ¬ P w → at_ (adjacency_list_ g') w = at_ (adjacency_list_ g) w.
Proof.
  induction 1 as [|g u v g1 g' k Hu Hv Hadd _ IH]; [done|].
  destruct IH as (-> & -> & -> & IH).
  pose proof (add_edge_true _ _ _ _ Hadd)
    as (au & av & Hau & Hav & Hne & Hnin & Hg1).
  apply at_Some in Hau as [Hu0 _]. apply at_Some in Hav as [Hv0 _].
  rewrite Hg1. simpl. repeat split.
  intros w Hw. rewrite (IH w Hw), Hg1. simpl. unfold at_.
  destruct (decide (0 ≤ w)); [|done].
  assert (w ≠ u) by (by intros ->). assert (w ≠ v) by (by intros ->).
  rewrite !list_lookup_insert_ne by lia. done.
Qed.

(** ** The shuffle keeps the entries *)

Lemma elem_of_swap {A : Type} (l : list A) (i j : nat) (x : A) :
  x ∈ swap l i j ↔ x ∈ l.
Proof.
  unfold swap.
  destruct (l !! i) as [a|] eqn:Hi; [|done].
  destruct (l !! j) as [b|] eqn:Hj; [|done].
  pose proof (lookup_lt_Some _ _ _ Hi) as Hli.
  pose proof (lookup_lt_Some _ _ _ Hj) as Hlj.
  rewrite !list_elem_of_lookup. split.
  - intros [k Hk]. destruct (decide (k = i)) as [->|Hki].
    { rewrite list_lookup_insert_eq in Hk by (rewrite length_insert; lia).
      injection Hk as <-. eauto. }
    rewrite list_lookup_insert_ne in Hk by done.
    destruct (decide (k = j)) as [->|Hkj].
    { rewrite list_lookup_insert_eq in Hk by lia. injection Hk as <-. eauto. }
    rewrite list_lookup_insert_ne in Hk by done. eauto.
  - intros [k Hk]. destruct (decide (k = j)) as [->|Hkj].
    { exists i. rewrite list_lookup_insert_eq by (rewrite length_insert; lia).
      congruence. }
    destruct (decide (k = i)) as [->|Hki].
    { exists j. rewrite list_lookup_insert_ne by done.
      rewrite list_lookup_insert_eq by lia. congruence. }
    exists k. by rewrite !list_lookup_insert_ne by done.
Qed.

Lemma elem_of_shuffle_from {A : Type} (k : nat) : ∀ i (l : list A) r x,
  x ∈ (shuffle_from k i l r).1 ↔ x ∈ l.
Proof.
  induction k as [|k IH]; intros i l r x; simpl; [done|].
  destruct (rand r) as [y r']. rewrite IH. apply elem_of_swap.
Qed.

Lemma elem_of_random_shuffle {A : Type} (l : list A) r x :
  x ∈ (random_shuffle l r).1 ↔ x ∈ l.
Proof. apply elem_of_shuffle_from. Qed.

(** ** The random edge *)

Lemma add_random_edge_complete g r :
  is_complete g = true → add_random_edge g r = Some (false, g, r).
Proof.
  unfold is_complete, add_random_edge. intros ->%bool_decide_eq_true. done.
Qed.

(** On a graph that is not complete, [add_random_edge] inserts an edge. *)
Lemma add_random_edge_progress g r :
  wf g → is_complete g = false →
  ∃ g' r', add_random_edge g r = Some (true, g', r') ∧
           wf g' ∧ (missing_edges g' < missing_edges g)%nat.
Proof.
  intros Hwf Hc. unfold is_complete in Hc. apply bool_decide_eq_false in Hc.
  unfold add_random_edge.
  destruct (non_adjacent_pairs g) as [|p ps] eqn:Hps; [done|].
  destruct (rand r) as [k r'].
  destruct (lookup_lt_is_Some_2 (p :: ps)
              (Z.to_nat (k mod Z.of_nat (length (p :: ps))))) as [[u v] Huv].
  { pose proof (Z.mod_pos_bound k (Z.of_nat (length (p :: ps)))).
    simpl in *. lia. }
  rewrite Huv. simpl.
  apply list_elem_of_lookup_2 in Huv. rewrite <- Hps in Huv.
  apply elem_of_non_adjacent_pairs in Huv as (Hadj & Hu & Hv).
  destruct (add_edge_is_Some u v g) as [[ok g'] Hadd];
    [rewrite (wf_adj_length g Hwf); lia..|].
  rewrite Hadd. simpl. destruct ok.
  - exists g', r'. split; [done|]. split.
    + by eapply add_edge_wf.
    + by eapply add_edge_missing_edges.
  - apply add_edge_false in Hadd as [_ [->|Hadd]]; [lia | congruence].
Qed.

(** ** Masks *)

Lemma shl32_1 lv vbit : shl32 1 lv = Some vbit → 0 ≤ lv < 32 ∧ vbit = 2 ^ lv.
Proof.
  unfold shl32. destruct (decide (0 ≤ lv < 32)) as [Hlv|]; [|done].
  intros [= <-]. split; [done|]. rewrite Z.shiftl_1_l. unfold wrap32.
  apply Z.mod_small. split; [apply Z.pow_nonneg; lia|].
  apply Z.pow_lt_mono_r; lia.
Qed.

(** [mask & (1 << lv)] is the test of bit [lv]. *)
Lemma land_pow2_testbit mask lv :
  0 ≤ lv → Z.land mask (2 ^ lv) ≠ 0 ↔ Z.testbit mask lv = true.
Proof.
  intros Hlv. split.
  - intros Hne. destruct (Z.testbit mask lv) eqn:E; [done|].
    exfalso. apply Hne. apply Z.bits_inj'. intros i Hi.
    rewrite Z.land_spec, Z.bits_0, Z.pow2_bits_eqb by done.
    destruct (Z.eqb_spec lv i) as [<-|]; [by rewrite E | apply andb_false_r].
  - intros Hbit Hz.
    assert (Z.testbit (Z.land mask (2 ^ lv)) lv = true) as H.
    { rewrite Z.land_spec, Hbit, Z.pow2_bits_true; done. }
    rewrite Hz, Z.bits_0 in H. done.
Qed.

(** [mask ^= 1 << lv] clears bit [lv] when it is set. *)
Lemma lxor_pow2_clearbit mask lv :
  0 ≤ lv → Z.testbit mask lv = true →
  Z.lxor mask (2 ^ lv) = Z.clearbit mask lv.
Proof.
  intros Hlv Hbit. apply Z.bits_inj'. intros i Hi.
  rewrite Z.lxor_spec, Z.clearbit_eqb, Z.pow2_bits_eqb by done.
  destruct (Z.eqb_spec lv i) as [<-|].
  - by rewrite Hbit.
  - simpl. by rewrite xorb_false_r, andb_true_r.
Qed.

(** ** The mate search *)

(** The search from position [j0] to the end of the pool: it stops at the
    first entry whose mask has bit [lv], whose vertex has label [l] and to
    which the edge can be added. *)
Lemma mate_loop_first_fit k : ∀ j0 v lv l vo g num st',
  0 ≤ lv →
  (length vo ≤ j0 + k)%nat →
  mate_loop k j0 v (2 ^ lv) l (vo, g, num) = Some st' →
  (∃ j u mask g',
     (j0 ≤ j)%nat ∧ vo !! j = Some (u, mask) ∧
     Z.testbit mask lv = true ∧ at_ (vertex_labels_ g) u = Some l ∧
     add_edge v u g = Some (true, g') ∧
     st' = (<[j := (u, Z.clearbit mask lv)]> vo, g', wrap32 (num + 1)) ∧
     ∀ j' u' mask', (j0 ≤ j' < j)%nat → vo !! j' = Some (u', mask') →
       Z.testbit mask' lv = true → at_ (vertex_labels_ g) u' = Some l →
       add_edge v u' g = Some (false, g))
  ∨
  (st' = (vo, g, num) ∧
   ∀ j' u' mask', (j0 ≤ j')%nat → vo !! j' = Some (u', mask') →
     Z.testbit mask' lv = true → at_ (vertex_labels_ g) u' = Some l →
     add_edge v u' g = Some (false, g)).
Proof.
  induction k as [|k IH]; intros j0 v lv l vo g num st' Hlv Hlen; simpl.
  { intros [= <-]. right. split; [done|].
    intros j' u' mask' Hj' Hlook. apply lookup_lt_Some in Hlook.
    unfold visit_record in *. lia. }
  destruct (vo !! j0) as [[u mask]|] eqn:Hu; simpl; [|done].
  (* what the search does when it moves on from position [j0] *)
  assert (∀ st',
    (Z.testbit mask lv = true → at_ (vertex_labels_ g) u = Some l →
     add_edge v u g = Some (false, g)) →
    mate_loop k (S j0) v (2 ^ lv) l (vo, g, num) = Some st' →
    (∃ j u mask g',
       (j0 ≤ j)%nat ∧ vo !! j = Some (u, mask) ∧
       Z.testbit mask lv = true ∧ at_ (vertex_labels_ g) u = Some l ∧
       add_edge v u g = Some (true, g') ∧
       st' = (<[j := (u, Z.clearbit mask lv)]> vo, g', wrap32 (num + 1)) ∧
       ∀ j' u' mask', (j0 ≤ j' < j)%nat → vo !! j' = Some (u', mask') →
         Z.testbit mask' lv = true → at_ (vertex_labels_ g) u' = Some l →
         add_edge v u' g = Some (false, g))
    ∨
    (st' = (vo, g, num) ∧
     ∀ j' u' mask', (j0 ≤ j')%nat → vo !! j' = Some (u', mask') →
       Z.testbit mask' lv = true → at_ (vertex_labels_ g) u' = Some l →
       add_edge v u' g = Some (false, g))) as Hnext.
  { intros st1 Hskip Hrun.
    apply IH in Hrun as [(j & u1 & m1 & g1 & Hj & Hl & Hb & Hlab & Ha & -> & Hbefore)
                        |[-> Hall]]; [| |done|lia].
    - left. exists j, u1, m1, g1. repeat (split; [done || lia|]).
      intros j' u' mask' Hj' Hlook. destruct (decide (j' = j0)) as [->|].
      + rewrite Hu in Hlook. injection Hlook as <- <-. apply Hskip.
      + apply (Hbefore j'); [lia | done].
    - right. split; [done|].
      intros j' u' mask' Hj' Hlook. destruct (decide (j' = j0)) as [->|].
      + rewrite Hu in Hlook. injection Hlook as <- <-. apply Hskip.
      + apply (Hall j'); [lia | done]. }
  destruct (decide (Z.land mask (2 ^ lv) ≠ 0)) as [Hland|Hland].
  2:{ apply Hnext. intros Hbit. by apply land_pow2_testbit in Hbit. }
  apply land_pow2_testbit in Hland; [|done].
  destruct (at_ (vertex_labels_ g) u) as [lu|] eqn:Hlu; simpl; [|done].
  destruct (decide (lu = l)) as [->|Hne].
  2:{ apply Hnext. intros _ [= ?]. done. }
  destruct (add_edge v u g) as [[[] g1]|] eqn:E; simpl; [| |done].
  - intros [= <-]. left. exists j0, u, mask, g1.
    rewrite lxor_pow2_clearbit by done.
    repeat (split; [done|]). intros j' u' mask' Hj'. lia.
  - apply Hnext. intros _ _. by apply add_edge_false in E as [-> _].
Qed.

(** C5. In one greedy iteration, for the pool vertex [v] at position [it]
    (with label [lv]) and the label [l], the mate search looks only at the
    entries after [it]; it takes the first entry [u] whose recorded mask
    has the bit of [lv], whose label is [l] and to which the edge could be
    added: the edge [(v,u)] is added and counted, bit [lv] is cleared in
    the recorded mask of [u], and the search stops.  An entry passed over
    lacks the bit, has another label, or is one to which [add_edge]
    reported no insertion (the edge already exists).  If there is no such
    entry, pool, graph and count are left as they were. *)
Theorem find_mate_first_fit it v lv vbit l vo g num st' :
  at_ (vertex_labels_ g) v = Some lv →
  shl32 1 lv = Some vbit →
  find_mate it v vbit l (vo, g, num) = Some st' →
  (∃ j u mask g',
     (it < j)%nat ∧ vo !! j = Some (u, mask) ∧
     Z.testbit mask lv = true ∧ at_ (vertex_labels_ g) u = Some l ∧
     add_edge v u g = Some (true, g') ∧
     st' = (<[j := (u, Z.clearbit mask lv)]> vo, g', wrap32 (num + 1)) ∧
     ∀ j' u' mask', (it < j' < j)%nat → vo !! j' = Some (u', mask') →
       Z.testbit mask' lv = true → at_ (vertex_labels_ g) u' = Some l →
       add_edge v u' g = Some (false, g))
  ∨
  (st' = (vo, g, num) ∧
   ∀ j' u' mask', (it < j')%nat → vo !! j' = Some (u', mask') →
     Z.testbit mask' lv = true → at_ (vertex_labels_ g) u' = Some l →
     add_edge v u' g = Some (false, g)).
Proof.
  intros _ [Hlv ->]%shl32_1. unfold find_mate. simpl.
  intros H. apply mate_loop_first_fit in H; [|lia..].
  destruct H as [(j & u & mask & g' & Hj & H)|[-> Hall]].
  - left. exists j, u, mask, g'. split; [lia|].
    destruct H as (H1 & H2 & H3 & H4 & H5 & H6). repeat (split; [done|]).
    intros j' u' mask' Hj'. apply H6. lia.
  - right. split; [done|]. intros j' u' mask' Hj'. apply Hall. lia.
Qed.

(** ** The total-variation distance is not negative *)

Lemma foldr_Qplus_nonneg (l : list Q) :
  Forall (λ x, (0 <= x)%Q) l → (0 <= foldr Qplus 0%Q l)%Q.
Proof.
  induction 1 as [|x l Hx _ IH]; cbn [foldr]; [apply Qle_refl|].
  change (0 <= x)%Q in Hx. generalize dependent (foldr Qplus 0%Q l).
  intros s Hs. lra.
Qed.

Lemma LabelDistribution_distance_nonneg a b :
  (0 <= LabelDistribution_distance a b)%Q.
Proof.
  unfold LabelDistribution_distance.
  apply Qmult_le_0_compat; [done|]. apply foldr_Qplus_nonneg.
  generalize (proportion a) (proportion b). intros f h.
  revert b. induction a as [|x a IH]; intros [|y b]; cbn [zip_with];
    [constructor.. |].
  constructor; [apply Qabs_nonneg | apply IH].
Qed.

Section Heuristics.

Variable distance : LabelDistribution → LabelDistribution → Q.
Variable get_deficiencies : LabelDistribution → LabelDistribution → Q → Z.

(** *** The frame of one greedy iteration *)

Lemma mate_loop_extends k : ∀ it_mate v vbit l st st',
  mate_loop k it_mate v vbit l st = Some st' →
  extends st.1.2 st'.1.2.
Proof.
  induction k as [|k IH]; intros it_mate v vbit l [[vo g] num] st'; simpl.
  { intros [= <-]. apply extends_refl. }
  destruct (vo !! it_mate) as [[u mask]|]; simpl; [|done].
  destruct (decide (Z.land mask vbit ≠ 0)); [|by apply IH].
  destruct (at_ (vertex_labels_ g) u) as [lu|]; simpl; [|done].
  destruct (decide (lu = l)); [|by apply IH].
  destruct (add_edge v u g) as [[[] g1]|] eqn:E; simpl; [| by apply IH | done].
  intros [= <-]. simpl. by eapply add_edge_extends.
Qed.

Lemma label_loop_extends k : ∀ it v vbit defs st st',
  label_loop k it v vbit defs st = Some st' →
  extends st.1.2 st'.1.2.
Proof.
  induction k as [|k IH]; intros it v vbit defs st st'; simpl.
  { intros [= <-]. apply extends_refl. }
  destruct (find_mate it v vbit _ st) as [st1|] eqn:E; simpl; [|done].
  destruct (shl32 1 _) as [bit|]; simpl; [|done].
  intros H. eapply extends_trans; [|by eapply IH].
  by eapply mate_loop_extends.
Qed.

Lemma visit_loop_extends k : ∀ it st st',
  visit_loop k it st = Some st' → extends st.1.2 st'.1.2.
Proof.
  induction k as [|k IH]; intros it st st'; simpl.
  { intros [= <-]. apply extends_refl. }
  destruct (st.1.1 !! it) as [[v defs]|]; simpl; [|done].
  destruct (at_ (vertex_labels_ st.1.2) v) as [lv|]; simpl; [|done].
  destruct (shl32 1 lv) as [vbit|]; simpl; [|done].
  destruct (label_loop _ it v vbit defs st) as [st1|] eqn:E; simpl; [|done].
  intros H. eapply extends_trans; [|by eapply IH].
  by eapply label_loop_extends.
Qed.

Lemma run_greedy_iteration_extends alpha g r num g' r' :
  run_greedy_iteration get_deficiencies alpha g r = Some (num, g', r') →
  extends g g'.
Proof.
  unfold run_greedy_iteration.
  destruct (get_global_ld g) as [global|]; simpl; [|done].
  destruct (build_visit_order _ alpha g global) as [pool|]; simpl; [|done].
  destruct (random_shuffle pool r) as [vo r1].
  destruct (visit_loop _ 0 (vo, g, 0)) as [[[vo' g1] num1]|] eqn:E;
    simpl; [|done].
  intros [= _ <- _]. by apply visit_loop_extends in E.
Qed.

(** *** The frame of the two strategies *)

Lemma hopeful_loop_extends fuel alpha : ∀ leaks g r g' r',
  hopeful_loop distance fuel alpha leaks g r = Done (g', r') →
  extends g g'.
Proof.
  induction fuel as [|fuel IH]; intros leaks g r g' r'; simpl;
    destruct (leaks && negb (is_complete g));
    try done; try (intros [= <- _]; apply extends_refl).
  destruct (is_alpha_proximal distance alpha g) as [[]|]; [by apply IH| |done].
  destruct (add_random_edge g r) as [[[ok g1] r1]|] eqn:E; [|done].
  intros H. eapply extends_trans; [by eapply add_random_edge_extends|].
  by eapply IH.
Qed.

Lemma greedy_loop_extends fuel alpha : ∀ leaks g r g' r',
  greedy_loop distance get_deficiencies fuel alpha leaks g r = Done (g', r') →
  extends g g'.
Proof.
  induction fuel as [|fuel IH]; intros leaks g r g' r'; simpl;
    destruct (leaks && negb (is_complete g));
    try done; try (intros [= <- _]; apply extends_refl).
  destruct (run_greedy_iteration _ alpha g r) as [[[num g1] r1]|] eqn:E1;
    [|done].
  apply run_greedy_iteration_extends in E1.
  destruct (is_alpha_proximal distance alpha g1) as [[]|]; [| |done].
  { intros H. eapply extends_trans; [done | by eapply IH]. }
  destruct (decide (num = 0)).
  - destruct (add_random_edge g1 r1) as [[[ok g2] r2]|] eqn:E2; [|done].
    intros H. eapply extends_trans; [done|].
    eapply extends_trans; [by eapply add_random_edge_extends | by eapply IH].
  - intros H. eapply extends_trans; [done | by eapply IH].
Qed.

(** C7. [hopeful], [greedy] and [run_greedy_iteration] never remove an edge
    and never change the vertex count, the label count or a label: after a
    call that returned, [n_], [l_] and the label of every vertex are what
    they were, and every edge that was present is present. *)
Theorem strategies_only_add_edges
    (alpha : Q) (g : LabelledGraph) (r : Rng) (fuel : nat) g' r' :
  hopeful distance fuel alpha g r = Done (g', r') ∨
  greedy distance get_deficiencies fuel alpha g r = Done (g', r') ∨
  (∃ num,
     run_greedy_iteration get_deficiencies alpha g r = Some (num, g', r')) →
  n_ g' = n_ g ∧ l_ g' = l_ g ∧
  vertex_labels_ g' = vertex_labels_ g ∧
  ∀ u v, adjacent g u v = true → adjacent g' u v = true.
Proof.
  intros H. cut (extends g g'); [intros []; auto|].
  destruct H as [H|[H|[num H]]].
  - revert H. unfold hopeful.
    destruct (is_alpha_proximal distance alpha g); [|done].
    apply hopeful_loop_extends.
  - revert H. unfold greedy.
    destruct (is_alpha_proximal distance alpha g); [|done].
    apply greedy_loop_extends.
  - by eapply run_greedy_iteration_extends.
Qed.

(** *** The exit condition of the two strategies *)

Lemma hopeful_loop_exit fuel alpha : ∀ leaks g r g' r',
  (leaks = false → is_alpha_proximal distance alpha g = Some true) →
  hopeful_loop distance fuel alpha leaks g r = Done (g', r') →
  is_alpha_proximal distance alpha g' = Some true ∨ is_complete g' = true.
Proof.
  induction fuel as [|fuel IH]; intros leaks g r g' r' Hinv; simpl.
  - destruct leaks; simpl.
    + destruct (is_complete g) eqn:Hc; simpl; [|done].
      intros [= <- _]. by right.
    + intros [= <- _]. left. by apply Hinv.
  - destruct leaks; simpl.
    + destruct (is_complete g) eqn:Hc; simpl.
      { intros [= <- _]. by right. }
      destruct (is_alpha_proximal distance alpha g) as [[]|] eqn:Hp;
        [by apply IH| |done].
      destruct (add_random_edge g r) as [[[ok g1] r1]|]; [|done].
      by apply IH.
    + intros [= <- _]. left. by apply Hinv.
Qed.

Lemma greedy_loop_exit fuel alpha : ∀ leaks g r g' r',
  (leaks = false → is_alpha_proximal distance alpha g = Some true) →
  greedy_loop distance get_deficiencies fuel alpha leaks g r = Done (g', r') →
  is_alpha_proximal distance alpha g' = Some true ∨ is_complete g' = true.
Proof.
  induction fuel as [|fuel IH]; intros leaks g r g' r' Hinv; simpl.
  - destruct leaks; simpl.
    + destruct (is_complete g) eqn:Hc; simpl; [|done].
      intros [= <- _]. by right.
    + intros [= <- _]. left. by apply Hinv.
  - destruct leaks; simpl.
    + destruct (is_complete g) eqn:Hc; simpl.
      { intros [= <- _]. by right. }
      destruct (run_greedy_iteration _ alpha g r) as [[[num g1] r1]|]; [|done].
      destruct (is_alpha_proximal distance alpha g1) as [[]|] eqn:Hp;
        [by apply IH| |done].
      destruct (decide (num = 0)); [|by apply IH].
      destruct (add_random_edge g1 r1) as [[[ok g2] r2]|]; [|done].
      by apply IH.
    + intros [= <- _]. left. by apply Hinv.
Qed.

(** C2. When [hopeful(alpha)] or [greedy(alpha)] returns, the graph passes
    [is_alpha_proximal(alpha)] or it is complete, for every input graph,
    every [alpha] and every sequence of random draws. *)
Theorem strategies_exit_proximal_or_complete
    (alpha : Q) (g : LabelledGraph) (r : Rng) (fuel : nat) g' r' :
  hopeful distance fuel alpha g r = Done (g', r') ∨
  greedy distance get_deficiencies fuel alpha g r = Done (g', r') →
  is_alpha_proximal distance alpha g' = Some true ∨ is_complete g' = true.
Proof.
  intros [H|H]; revert H.
  - unfold hopeful.
    destruct (is_alpha_proximal distance alpha g) as [b|] eqn:Hp; [|done].
    apply hopeful_loop_exit. by destruct b.
  - unfold greedy.
    destruct (is_alpha_proximal distance alpha g) as [b|] eqn:Hp; [|done].
    apply greedy_loop_exit. by destruct b.
Qed.

(** *** The insertions of one greedy iteration *)

Lemma fmap_fst_insert_same (vo : list visit_record) i u mask mask' :
  vo !! i = Some (u, mask) → (<[i := (u, mask')]> vo).*1 = vo.*1.
Proof.
  unfold visit_record in *.
  intros H. rewrite list_fmap_insert. simpl. apply list_insert_id.
  by rewrite list_lookup_fmap, H.
Qed.

(** A mate search adds at most one edge, from [v] to a pool vertex, and
    counts it. *)
Lemma mate_loop_added k : ∀ it_mate v vbit l vo g num st',
  num = wrap32 num →
  mate_loop k it_mate v vbit l (vo, g, num) = Some st' →
  st'.1.1.*1 = vo.*1 ∧
  ∃ j, edges_added (λ x, x = v ∨ x ∈ vo.*1) g st'.1.2 j ∧
       st'.2 = wrap32 (num + Z.of_nat j).
Proof.
  induction k as [|k IH]; intros it_mate v vbit l vo g num st' Hnum; simpl.
  { intros [= <-]. split; [done|]. exists 0%nat. split; [constructor|].
    simpl. by rewrite Z.add_0_r. }
  destruct (vo !! it_mate) as [[u mask]|] eqn:Hu; simpl; [|done].
  destruct (decide (Z.land mask vbit ≠ 0)); [|by apply IH].
  destruct (at_ (vertex_labels_ g) u) as [lu|]; simpl; [|done].
  destruct (decide (lu = l)); [|by apply IH].
  destruct (add_edge v u g) as [[[] g1]|] eqn:E; simpl; [| by apply IH | done].
  intros [= <-]. simpl. split; [by eapply fmap_fst_insert_same|].
  exists 1%nat. split; [|done].
  apply (added_one _ g v u g1 g1 0); [by left | | done | constructor].
  right. apply list_elem_of_fmap. exists (u, mask). split; [done|].
  by eapply list_elem_of_lookup_2.
Qed.

Lemma label_loop_added k : ∀ it v vbit defs vo g num st',
  num = wrap32 num →
  label_loop k it v vbit defs (vo, g, num) = Some st' →
  st'.1.1.*1 = vo.*1 ∧
  ∃ j, edges_added (λ x, x = v ∨ x ∈ vo.*1) g st'.1.2 j ∧
       st'.2 = wrap32 (num + Z.of_nat j).
Proof.
  induction k as [|k IH]; intros it v vbit defs vo g num st' Hnum; simpl.
  { intros [= <-]. split; [done|]. exists 0%nat. split; [constructor|].
    simpl. by rewrite Z.add_0_r. }
  destruct (find_mate it v vbit _ (vo, g, num)) as [[[vo1 g1] num1]|] eqn:E;
    simpl; [|done].
  destruct (shl32 1 _) as [bit|]; simpl; [|done].
  apply mate_loop_added in E as (Hids1 & j1 & Hadd1 & Hnum1); [|done].
  simpl in *. intros H.
  apply IH in H as (Hids2 & j2 & Hadd2 & Hnum2);
    [|by rewrite Hnum1, wrap32_idemp].
  rewrite Hids1 in Hids2, Hadd2. split; [done|].
  exists (j1 + j2)%nat. split; [by eapply edges_added_trans|].
  rewrite Hnum2, Hnum1. unfold wrap32. rewrite Zplus_mod_idemp_l.
  f_equal. lia.
Qed.

Lemma visit_loop_added k : ∀ it vo g num st',
  num = wrap32 num →
  visit_loop k it (vo, g, num) = Some st' →
  st'.1.1.*1 = vo.*1 ∧
  ∃ j, edges_added (λ x, x ∈ vo.*1) g st'.1.2 j ∧
       st'.2 = wrap32 (num + Z.of_nat j).
Proof.
  induction k as [|k IH]; intros it vo g num st' Hnum; simpl.
  { intros [= <-]. split; [done|]. exists 0%nat. split; [constructor|].
    simpl. by rewrite Z.add_0_r. }
  destruct (vo !! it) as [[v defs]|] eqn:Hv; simpl; [|done].
  destruct (at_ (vertex_labels_ g) v) as [lv|]; simpl; [|done].
  destruct (shl32 1 lv) as [vbit|]; simpl; [|done].
  destruct (label_loop _ it v vbit defs (vo, g, num))
    as [[[vo1 g1] num1]|] eqn:E; simpl; [|done].
  apply label_loop_added in E as (Hids1 & j1 & Hadd1 & Hnum1); [|done].
  simpl in *. intros H.
  apply IH in H as (Hids2 & j2 & Hadd2 & Hnum2);
    [|by rewrite Hnum1, wrap32_idemp].
  rewrite Hids1 in Hids2, Hadd2. split; [done|].
  exists (j1 + j2)%nat. split.
  - eapply edges_added_trans; [|done].
    eapply edges_added_impl; [|done]. intros x [->|Hx]; [|done].
    apply list_elem_of_fmap. exists (v, defs). split; [done|].
    by eapply list_elem_of_lookup_2.
  - rewrite Hnum2, Hnum1. unfold wrap32. rewrite Zplus_mod_idemp_l.
    f_equal. lia.
Qed.

(** The vertices of the pool are the vertices with a non-empty mask. *)
Lemma build_visit_order_spec alpha g global pool :
  build_visit_order get_deficiencies alpha g global = Some pool →
  ∀ i, i ∈ pool.*1 ↔
    0 ≤ i < n_ g ∧
    ∃ nb, get_neighbourhood_ld g i = Some nb ∧
          0 < wrap32 (get_deficiencies nb global alpha).
Proof.
  unfold build_visit_order.
  assert (∀ vs acc pool,
    foldlM (classify_step get_deficiencies alpha g global) acc vs
      = Some pool →
    ∀ i, i ∈ pool.*1 ↔ i ∈ acc.*1 ∨
      (i ∈ vs ∧ ∃ nb, get_neighbourhood_ld g i = Some nb ∧
                     0 < wrap32 (get_deficiencies nb global alpha)))
    as Hgen.
  { induction vs as [|v vs IH]; intros acc pool'; simpl.
    - intros [= <-] i. split; [auto|]. intros [H|[H _]]; [done|].
      by apply elem_of_nil in H.
    - destruct (classify_step _ alpha g global acc v) as [acc1|] eqn:E;
        simpl; [|done].
      unfold classify_step in E.
      destruct (get_neighbourhood_ld g v) as [nb|] eqn:Hnb; simpl in E;
        [|done].
      injection E as <-.
      intros H i. rewrite (IH _ _ H i). clear IH H.
      destruct (decide (0 < wrap32 (get_deficiencies nb global alpha)))
        as [Hd|Hd].
      + rewrite fmap_app, elem_of_app. simpl.
        rewrite list_elem_of_singleton, elem_of_cons. split.
        * intros [[H| ->]|[H1 H2]]; eauto 6.
        * intros [H|[[->|H1] H2]]; eauto 6.
      + rewrite elem_of_cons. split.
        * intros [H|[H1 H2]]; eauto 6.
        * intros [H|[[->|H1] H2]]; eauto 6.
          destruct H2 as (nb' & Hnb' & H2). congruence. }
  intros H i. rewrite (Hgen _ _ _ H i), elem_of_seqZ_0. simpl.
  split; [intros [H0|H0]; [by apply elem_of_nil in H0 | done] | auto].
Qed.

(** What one iteration does to the graph and what it returns: the edges it
    adds join vertices of the pool, and the result
    is their number (in 32 bits). *)
Lemma run_greedy_iteration_added alpha g r num g' r' :
  run_greedy_iteration get_deficiencies alpha g r = Some (num, g', r') →
  ∃ global pool j,
    get_global_ld g = Some global ∧
    build_visit_order get_deficiencies alpha g global = Some pool ∧
    edges_added (λ x, x ∈ pool.*1) g g' j ∧
    num = wrap32 (Z.of_nat j).
Proof.
  unfold run_greedy_iteration.
  destruct (get_global_ld g) as [global|]; simpl; [|done].
  destruct (build_visit_order _ alpha g global) as [pool|] eqn:Hpool;
    simpl; [|done].
  destruct (random_shuffle pool r) as [vo r1] eqn:Hsh.
  destruct (visit_loop _ 0 (vo, g, 0)) as [[[vo' g1] num1]|] eqn:E;
    simpl; [|done].
  intros [= <- <- <-]. exists global, pool.
  apply visit_loop_added in E as (_ & j & Hadd & Hnum); [|reflexivity].
  simpl in *. exists j. split; [done|]. split; [done|]. split; [|done].
  eapply edges_added_impl; [|done]. intros x Hx. simpl in Hx.
  apply list_elem_of_fmap in Hx as (p & -> & Hp).
  apply list_elem_of_fmap. exists p. split; [done|].
  apply (elem_of_random_shuffle pool r). by rewrite Hsh.
Qed.

(** *** Termination of the two strategies *)

Lemma hopeful_loop_false fuel alpha g r :
  hopeful_loop distance fuel alpha false g r = Done (g, r).
Proof. by destruct fuel. Qed.

Lemma greedy_loop_false fuel alpha g r :
  greedy_loop distance get_deficiencies fuel alpha false g r = Done (g, r).
Proof. by destruct fuel. Qed.



(** One iteration of [greedy] keeps the graph well-formed, never adds a
    missing edge back, and returns 0 or has added an edge. *)
Lemma run_greedy_iteration_progress alpha g r num g' r' :
  wf g →
  run_greedy_iteration get_deficiencies alpha g r = Some (num, g', r') →
  wf g' ∧ (missing_edges g' ≤ missing_edges g)%nat ∧
  (num ≠ 0 → (missing_edges g' < missing_edges g)%nat).
Proof.
  intros Hwf (global & pool & j & _ & _ & Hadd & ->)%run_greedy_iteration_added.
  destruct (edges_added_wf _ _ _ _ Hwf Hadd) as [Hwf' Hle].
  split; [done|]. split; [lia|]. intros Hnum.
  destruct j; [done | lia].
Qed.



(** *** One iteration and the distances *)

(** The value of the loop of [is_alpha_proximal] is the maximum over the
    vertices, when there is a vertex and distances are not negative. *)
Lemma max_distance_of_is_max g global M :
  (∀ a b, (0 <= distance a b)%Q) → 0 < n_ g →
  max_distance_of distance g global = Some M →
  max_vertex_distance distance g global M.
Proof.
  intros Hpos Hn HM. apply max_loop_spec in HM as (H0 & Hall & Hwit). split.
  - destruct Hwit as [->|(w & nbw & Hw & Hnbw & ->)].
    + destruct (Hall 0) as (nb & Hnb & Hle); [apply elem_of_seqZ_0; lia|].
      exists 0. split; [lia|]. exists nb. split; [done|].
      apply Qle_antisym; [apply Hpos | done].
    + apply elem_of_seqZ_0 in Hw. exists w. split; [done|].
      exists nbw. split; [done | reflexivity].
  - intros v d Hv (nb & Hnb & ->).
    destruct (Hall v) as (nb' & Hnb' & Hle); [by apply elem_of_seqZ_0|].
    congruence.
Qed.

Lemma get_neighbourhood_ld_frame g g' v :
  l_ g' = l_ g → vertex_labels_ g' = vertex_labels_ g →
  at_ (adjacency_list_ g') v = at_ (adjacency_list_ g) v →
  get_neighbourhood_ld g' v = get_neighbourhood_ld g v.
Proof. unfold get_neighbourhood_ld. by intros -> -> ->. Qed.

(** C6 (as amended). After one call of [run_greedy_iteration(alpha)] the
    global distribution is what it was, and every vertex whose deficiency
    mask was empty, so that it was left out of the pool, has the
    closed-neighbourhood distribution it had, hence the same distance to
    the global distribution.  (Nothing is promised for the vertices of the
    pool, which may receive edges.) *)
Theorem run_greedy_iteration_frame_outside_pool alpha g r num g' r' :
  run_greedy_iteration get_deficiencies alpha g r = Some (num, g', r') →
  ∃ global,
    get_global_ld g = Some global ∧ get_global_ld g' = Some global ∧
    ∀ v nb,
      get_neighbourhood_ld g v = Some nb →
      ¬ 0 < wrap32 (get_deficiencies nb global alpha) →
      get_neighbourhood_ld g' v = Some nb ∧
      ∀ d, vertex_distance distance g' global v d ↔
           vertex_distance distance g global v d.
Proof.
  intros (global & pool & j & Hglobal & Hpool & Hadd & _)
    %run_greedy_iteration_added.
  apply edges_added_frame in Hadd as (Hn & Hl & Hlab & Hadj).
  exists global. split; [done|]. split.
  { unfold get_global_ld in *. by rewrite Hl, Hlab. }
  intros v nb Hnb Hdefs.
  assert (get_neighbourhood_ld g' v = get_neighbourhood_ld g v) as Heq.
  { apply get_neighbourhood_ld_frame; [done..|]. apply Hadj.
    rewrite (build_visit_order_spec _ _ _ _ Hpool).
    intros (_ & nb' & Hnb' & Hpos). apply Hdefs. congruence. }
  split; [congruence|]. intros d. unfold vertex_distance. by rewrite Heq.
Qed.

End Heuristics.

(** ** One iteration can raise the maximum *)

(** C6, counterexample.  On [clique_and_loner] with [alpha = 1/100] the
    iteration joins the isolated vertex 3 to vertex 4 and the distance of
    vertex 3, the maximum over the vertices, goes from 1/5 to 3/10. *)
Lemma run_greedy_iteration_raises_maximum :
  ∃ g' r' global M M',
    run_greedy_iteration LabelDistribution_get_deficiencies (1 # 100)
      clique_and_loner (rng_of []) = Some (1, g', r') ∧
    get_global_ld clique_and_loner = Some global ∧
    get_global_ld g' = Some global ∧
    max_vertex_distance LabelDistribution_distance
      clique_and_loner global M ∧
    max_vertex_distance LabelDistribution_distance g' global M' ∧
    (M == 1 # 5)%Q ∧ (M' == 3 # 10)%Q ∧ ¬ (M' <= M)%Q.
Proof.
  eexists _, _, _, _, _.
  split; [vm_compute; reflexivity|].
  split; [vm_compute; reflexivity|].
  split; [vm_compute; reflexivity|].
  split.
  { apply max_distance_of_is_max;
      [apply LabelDistribution_distance_nonneg | done |].
    vm_compute. reflexivity. }
  split.
  { apply max_distance_of_is_max;
      [apply LabelDistribution_distance_nonneg | done |].
    vm_compute. reflexivity. }
  split; [reflexivity|]. split; [reflexivity|].
  intros H. vm_compute in H. by apply H.
Qed.

(** The same run with the slack [alpha/l] in the deficiencies. *)
Lemma run_greedy_iteration_raises_maximum_per_label :
  ∃ g' r' global M M',
    run_greedy_iteration LabelDistribution_get_deficiencies_per_label
      (1 # 100) clique_and_loner (rng_of []) = Some (1, g', r') ∧
    get_global_ld clique_and_loner = Some global ∧
    get_global_ld g' = Some global ∧
    max_vertex_distance LabelDistribution_distance
      clique_and_loner global M ∧
    max_vertex_distance LabelDistribution_distance g' global M' ∧
    (M == 1 # 5)%Q ∧ (M' == 3 # 10)%Q ∧ ¬ (M' <= M)%Q.
Proof.
  eexists _, _, _, _, _.
  split; [vm_compute; reflexivity|].
  split; [vm_compute; reflexivity|].
  split; [vm_compute; reflexivity|].
  split.
  { apply max_distance_of_is_max;
      [apply LabelDistribution_distance_nonneg | done |].
    vm_compute. reflexivity. }
  split.
  { apply max_distance_of_is_max;
      [apply LabelDistribution_distance_nonneg | done |].
    vm_compute. reflexivity. }
  split; [reflexivity|]. split; [reflexivity|].
  intros H. vm_compute in H. by apply H.
Qed.

(** ** The labels a pool vertex is served for *)

(** A mask whose lowest set bit is bit 0 sends the loop into a shift by
    [2^32 - 1]. *)
Lemma label_loop_bit0_undefined k it v vbit defs st :
  Z.testbit defs 0 = true →
  label_loop (S k) it v vbit defs st = None.
Proof.
  intros Hbit. cbn [label_loop].
  assert (ffs defs = 1) as -> by (unfold ffs; cbn [ffs_from]; by rewrite Hbit).
  change (wrap32 (1 - 1)) with 0.
  destruct (find_mate it v vbit 0 st); reflexivity.
Qed.

Lemma ffs_from_lowest x l (k : nat) : ∀ i,
  0 ≤ i ≤ l → l < i + Z.of_nat k →
  Z.testbit x l = true → (∀ j, i ≤ j < l → Z.testbit x j = false) →
  ffs_from k i x = l + 1.
Proof.
  induction k as [|k IH]; intros i Hi Hk Hl Hlow; [lia|]. simpl.
  destruct (decide (i = l)) as [->|Hne]; [by rewrite Hl|].
  rewrite Hlow by lia. apply IH; [lia | lia | done |].
  intros j Hj. apply Hlow. lia.
Qed.

Lemma ffs_lowest defs l : lowest_set_bit defs l → ffs defs = l + 1.
Proof.
  intros (Hl & Hbit & Hlow). apply ffs_from_lowest; [lia | lia | done |].
  intros j Hj. apply Hlow. lia.
Qed.

Lemma shl32_1_pow2 k : 0 ≤ k < 32 → shl32 1 k = Some (2 ^ k).
Proof.
  intros Hk. unfold shl32. rewrite decide_True by done.
  rewrite Z.shiftl_1_l. unfold wrap32. rewrite Z.mod_small; [done|].
  split; [apply Z.pow_nonneg; lia | apply Z.pow_lt_mono_r; lia].
Qed.

(** Toggling the bit below the lowest set bit sets it. *)
Lemma lowest_set_bit_toggle defs l :
  lowest_set_bit defs l → 1 ≤ l →
  lowest_set_bit (Z.lxor defs (2 ^ (l - 1))) (l - 1).
Proof.
  intros (Hl & Hbit & Hlow) Hl1. split; [lia|]. split.
  - rewrite Z.lxor_spec, Hlow, Z.pow2_bits_true by lia. done.
  - intros i Hi. rewrite Z.lxor_spec, Hlow, Z.pow2_bits_false by lia. done.
Qed.

Lemma descending_succ l k :
  descending l (S k) = l :: descending (l - 1) k.
Proof.
  unfold descending. rewrite seqZ_cons by lia. cbn [fmap list_fmap].
  rewrite Z.sub_0_r. f_equal.
  replace (Z.pred (Z.of_nat (S k))) with (Z.of_nat k) by lia.
  change (Z.succ 0) with (1 + 0). rewrite <- fmap_add_seqZ.
  rewrite <- list_fmap_compose. apply list_fmap_ext.
  intros j i _. simpl. lia.
Qed.

(** The labels the loop serves for a vertex: from the lowest label of its
    mask downwards, one per round, whatever the other bits of the mask. *)
Lemma label_loop_descends (k : nat) : ∀ it v vbit defs l st,
  lowest_set_bit defs l → Z.of_nat k ≤ l →
  label_loop k it v vbit defs st =
  foldlM (λ st l', find_mate it v vbit l' st) st (descending l k).
Proof.
  induction k as [|k IH]; intros it v vbit defs l st Hlow Hk; [done|].
  rewrite descending_succ. cbn [label_loop foldlM].
  rewrite (ffs_lowest defs l Hlow).
  destruct Hlow as (Hl & Hbit & Hbelow).
  replace (wrap32 (l + 1 - 1)) with l
    by (unfold wrap32; rewrite Z.mod_small; lia).
  destruct (find_mate it v vbit l st) as [st1|]; [|done].
  cbn [mbind option_bind].
  replace (wrap32 (l - 1)) with (l - 1)
    by (unfold wrap32; rewrite Z.mod_small; lia).
  rewrite shl32_1_pow2 by lia. cbn [mbind option_bind].
  apply IH; [|lia]. apply lowest_set_bit_toggle; [done | lia].
Qed.

(** C4. The loop over the deficient labels does not visit the labels of the
    mask in increasing order, each once: after the label [l] of the lowest
    set bit it toggles bit [l - 1], not bit [l].  For the mask 12 (labels 2
    and 3 deficient) the two rounds search a mate for label 2 and then for
    label 1; label 3 is never searched.  On [three_loners], where vertex 0
    has that mask and vertex 2 is a later pool entry that offers label 3
    and lacks the label of vertex 0, one iteration adds the edges (0,1) and
    (1,2) only. *)
Theorem label_loop_mask_12 :
  (∀ it v vbit st,
     label_loop (Z.to_nat (popcount 12)) it v vbit 12 st =
     (st1 ← find_mate it v vbit 2 st; find_mate it v vbit 1 st1)) ∧
  ∃ g' r',
    build_visit_order LabelDistribution_get_deficiencies (1 # 10)
      three_loners [0; 1; 1; 1] = Some [(0, 12); (1, 10); (2, 6)] ∧
    run_greedy_iteration LabelDistribution_get_deficiencies (1 # 10)
      three_loners (rng_of [1; 2]) = Some (2, g', r') ∧
    adjacency_list_ g' = [{[1]}; {[0; 2]}; {[1]}].
Proof.
  split.
  - intros it v vbit st.
    change (Z.to_nat (popcount 12)) with 2%nat.
    cbn [label_loop].
    change (wrap32 (ffs 12 - 1)) with 2.
    destruct (find_mate it v vbit 2 st) as [st1|]; [|done].
    cbn [mbind option_bind].
    change (shl32 1 (wrap32 (2 - 1))) with (Some 2).
    cbn [mbind option_bind].
    change (wrap32 (ffs (Z.lxor 12 2) - 1)) with 1.
    destruct (find_mate it v vbit 1 st1) as [st2|]; [|done].
    cbn [mbind option_bind].
    change (shl32 1 (wrap32 (1 - 1))) with (Some 1).
    done.
  - eexists _, _. split; [vm_compute; reflexivity|].
    split; [vm_compute; reflexivity|]. vm_compute. reflexivity.
Qed.

(** ** Label assignment *)

(** C8. [evenly_distribute_labels] can leave label 0 on more than
    [n/l + 1] vertices: the branch that keeps a vertex at 0 with
    probability [1/l] can be taken more than once.  With 5 vertices, 3
    labels and the draws 0, 1, 0, 0, 0, 0 the labels are 1, 2, 0, 0, 0:
    label 0 is on three vertices, while [5/3 + 1 = 2]. *)
Theorem evenly_distribute_labels_uneven :
  ∃ g' r',
    evenly_distribute_labels 10 (LabelledGraph_new 5 3)
      (rng_of [0; 1; 0; 0; 0; 0]) = Done (g', r') ∧
    vertex_labels_ g' = [1; 2; 0; 0; 0] ∧
    label_count g' 0 = 3%nat ∧ label_count g' 1 = 1%nat ∧
    label_count g' 2 = 1%nat ∧ n_ g' / l_ g' + 1 = 2.
Proof.
  eexists _, _. split; [vm_compute; reflexivity|].
  repeat split; vm_compute; reflexivity.
Qed.

(** ** The constructor from a file: malformed input *)

(** The test [n_ <= 0] on the count that is stored: when it holds (on an
    unsigned count, when the count is 0), the constructor writes the error
    message to [std::cerr] and returns: the adjacency list and the label
    vector are left empty ([init] is not run) and the file stream is as
    the first [getline] left it. *)
Theorem from_file_non_positive_count
    (filename : text) (contents : option text) (n0 l0 m0 v0 : Z) :
  parsed_vertex_count contents n0 ≤ 0 →
  ∃ c,
    LabelledGraph_from_file filename contents n0 l0 m0 v0 = Done c ∧
    cerr c = parse_error_message ∧
    adjacency_list_ (graph c) = [] ∧
    vertex_labels_ (graph c) = [] ∧
    infile c = (first_line contents).1.
Proof.
  unfold parsed_vertex_count, first_line, LabelledGraph_from_file.
  destruct (getline (open_file contents) []) as [infile1 line].
  cbn [fst snd].
  destruct (extract_uint32 (istringstream line) n0) as [iss1 n].
  cbn [fst snd].
  destruct (extract_uint32 iss1 l0) as [iss2 l].
  intros Hn. rewrite decide_True by done. eauto 10.
Qed.

(** ** Decimal digits *)

Lemma digit_cases (d : Z) :
  0 ≤ d ≤ 9 →
  d = 0 ∨ d = 1 ∨ d = 2 ∨ d = 3 ∨ d = 4 ∨ d = 5 ∨ d = 6 ∨ d = 7 ∨ d = 8 ∨
  d = 9.
Proof. lia. Qed.

Lemma digit_value_of d : 0 ≤ d ≤ 9 → digit_value (digit_of d) = Some d.
Proof.
  intros H. destruct (digit_cases d H) as [->|[->|[->|[->|[->|[->|[->|[->|[->| ->]]]]]]]]];
    reflexivity.
Qed.

Lemma digit_of_plain d :
  0 ≤ d ≤ 9 →
  digit_of d ≠ newline ∧ is_space (digit_of d) = false ∧
  digit_of d ≠ "-"%char ∧ digit_of d ≠ "+"%char.
Proof.
  intros H. destruct (digit_cases d H) as [->|[->|[->|[->|[->|[->|[->|[->|[->| ->]]]]]]]]];
    done.
Qed.

Lemma show_digits_app fuel : ∀ z acc,
  ∃ ds, show_digits fuel z acc = ds ++ acc ∧ Forall is_digit ds ∧
        (fuel ≠ O → ds ≠ []).
Proof.
  induction fuel as [|fuel IH]; intros z acc; simpl.
  { exists []. by repeat split. }
  assert (is_digit (digit_of (z mod 10))) as Hd.
  { exists (z mod 10). split; [|done].
    pose proof (Z.mod_pos_bound z 10). lia. }
  destruct (decide (z < 10)).
  - exists [digit_of (z mod 10)]. repeat split; [|done].
    by constructor.
  - destruct (IH (z / 10) (digit_of (z mod 10) :: acc)) as (ds & -> & Hds & _).
    exists (ds ++ [digit_of (z mod 10)]). split; [by rewrite <- app_assoc|].
    split; [apply Forall_app; split; [done | by constructor]|].
    intros _. by destruct ds.
Qed.

Lemma show_uint32_digits z :
  Forall is_digit (show_uint32 z) ∧ show_uint32 z ≠ [].
Proof.
  destruct (show_digits_app 10 z []) as (ds & H & Hds & Hne).
  unfold show_uint32. rewrite H, app_nil_r. split; [done|]. by apply Hne.
Qed.

(** Reading back what was written. *)
Lemma read_digits_digit d t acc any :
  0 ≤ d ≤ 9 →
  read_digits (digit_of d :: t) acc any = read_digits t (acc * 10 + d) true.
Proof. intros Hd. cbn [read_digits]. by rewrite digit_value_of. Qed.

Lemma read_show_digits fuel : ∀ z acc rest any,
  0 ≤ z < 10 ^ Z.of_nat (S fuel) →
  read_digits (show_digits (S fuel) z acc ++ rest) 0 any =
  read_digits (acc ++ rest) z true.
Proof.
  induction fuel as [|fuel IH]; intros z acc rest any Hz.
  - change (10 ^ Z.of_nat 1) with 10 in Hz.
    cbn [show_digits]. rewrite decide_True by lia.
    rewrite <- app_comm_cons, read_digits_digit
      by (rewrite Z.mod_small; lia).
    rewrite Z.mod_small by lia. done.
  - remember (S fuel) as k eqn:Hk. cbn [show_digits].
    pose proof (Z.mod_pos_bound z 10 ltac:(lia)) as Hmod.
    destruct (decide (z < 10)) as [Hlt|Hge].
    + rewrite <- app_comm_cons, read_digits_digit by lia.
      rewrite Z.mod_small by lia. done.
    + rewrite IH.
      * rewrite <- app_comm_cons, read_digits_digit by lia.
        f_equal. pose proof (Z.div_mod z 10 ltac:(lia)). lia.
      * rewrite Nat2Z.inj_succ, Z.pow_succ_r in Hz by lia.
        split; [apply Z.div_pos; lia|]. apply Z.div_lt_upper_bound; lia.
Qed.

Lemma read_show_uint32 z rest :
  0 ≤ z ≤ UINT32_MAX →
  read_digits (show_uint32 z ++ rest) 0 false = read_digits rest z true.
Proof.
  intros Hz. unfold show_uint32. rewrite read_show_digits; [done|].
  change (10 ^ Z.of_nat 10) with 10000000000.
  change UINT32_MAX with 4294967295 in Hz. lia.
Qed.

(** ** Reading numbers and lines *)

Lemma is_digit_plain c :
  is_digit c →
  c ≠ newline ∧ is_space c = false ∧ c ≠ "-"%char ∧ c ≠ "+"%char.
Proof. intros (d & Hd & ->). by apply digit_of_plain. Qed.

Lemma read_digits_stop rest z :
  rest = [] ∨ (∃ t, rest = blank :: t) →
  read_digits rest z true = (z, true, rest).
Proof. by intros [->|[t ->]]. Qed.

Lemma extract_uint32_end x :
  extract_uint32 (mk_istream [] false false) x = (mk_istream [] true true, x).
Proof. done. Qed.

Lemma extract_uint32_blank t x :
  extract_uint32 (mk_istream (blank :: t) false false) x =
  extract_uint32 (mk_istream t false false) x.
Proof. done. Qed.

(** A number that was written, followed by a blank or by the end of the
    text, is read back. *)
Lemma extract_uint32_show z rest x :
  0 ≤ z ≤ UINT32_MAX →
  rest = [] ∨ (∃ t, rest = blank :: t) →
  extract_uint32 (mk_istream (show_uint32 z ++ rest) false false) x =
  (mk_istream rest (bool_decide (rest = [])) false, z).
Proof.
  intros Hz Hrest. unfold extract_uint32. cbn [eofbit failbit buffer orb].
  destruct (show_uint32_digits z) as [Hds Hne].
  destruct (show_uint32 z) as [|c ds] eqn:E; [done|].
  pose proof (Forall_inv Hds) as Hc.
  apply is_digit_plain in Hc as (_ & Hsp & Hminus & Hplus).
  rewrite <- app_comm_cons. cbn [skip_space]. rewrite Hsp.
  rewrite (decide_False (P := c = "-"%char)) by done.
  rewrite (decide_False (P := c = "+"%char)) by done.
  rewrite app_comm_cons, <- E, read_show_uint32 by done.
  rewrite read_digits_stop by done.
  rewrite decide_False by lia. done.
Qed.

Lemma tokens_cons v vs : tokens (v :: vs) = show_uint32 v ++ blank :: tokens vs.
Proof. unfold tokens. cbn [mbind list_bind]. by rewrite <- app_assoc. Qed.

Lemma foldl_tokens vs : ∀ acc,
  foldl (λ out v, out ++ show_uint32 v ++ [blank]) acc vs = acc ++ tokens vs.
Proof.
  induction vs as [|v vs IH]; intros acc; cbn [foldl].
  - unfold tokens. simpl. by rewrite app_nil_r.
  - rewrite IH, tokens_cons. by rewrite <- !app_assoc.
Qed.

Lemma split_line_app l rest :
  Forall (λ c, c ≠ newline) l →
  split_line (l ++ newline :: rest) = (l, Some rest).
Proof.
  induction 1 as [|c l Hc _ IH]; cbn [app split_line].
  - by rewrite decide_True.
  - rewrite decide_False by done. by rewrite IH.
Qed.

Lemma getline_app l rest old :
  Forall (λ c, c ≠ newline) l →
  getline (mk_istream (l ++ newline :: rest) false false) old =
  (mk_istream rest false false, l).
Proof. intros Hl. unfold getline. simpl. by rewrite split_line_app. Qed.

Lemma show_uint32_no_newline z : Forall (λ c, c ≠ newline) (show_uint32 z).
Proof.
  destruct (show_uint32_digits z) as [Hds _].
  eapply Forall_impl; [|exact Hds]. intros c Hc.
  by destruct (is_digit_plain c Hc).
Qed.

Lemma tokens_no_newline vs : Forall (λ c, c ≠ newline) (tokens vs).
Proof.
  induction vs as [|v vs IH]; [constructor|].
  rewrite tokens_cons. apply Forall_app. split;
    [apply show_uint32_no_newline | by constructor].
Qed.

Lemma tokens_length vs : (length vs ≤ length (tokens vs))%nat.
Proof.
  induction vs as [|v vs IH]; [done|].
  rewrite tokens_cons, length_app. simpl. lia.
Qed.

(** ** Reading the neighbours of a vertex *)

Lemma adjacent_add_edge_iff u v g ok g' :
  add_edge u v g = Some (ok, g') → u ≠ v →
  (∀ w x, adjacent g w x = adjacent g x w) →
  ∀ w x, adjacent g' w x = true ↔
         adjacent g w x = true ∨ (w = u ∧ x = v) ∨ (w = v ∧ x = u).
Proof.
  intros Hadd Hne Hsym w x. destruct ok.
  - rewrite (adjacent_add_edge _ _ _ _ _ _ Hadd), orb_true_iff,
      bool_decide_eq_true. tauto.
  - apply add_edge_false in Hadd as [-> [?|Huv]]; [done|].
    split; [auto|]. intros [H|[[-> ->]|[-> ->]]]; [done..|].
    by rewrite Hsym.
Qed.

(** The loop [while( iss >> v ) add_edge( u, v )] on the numbers [vs],
    each written after a blank, joins [u] to each of them. *)
Lemma neighbours_loop_tokens u vs : ∀ fuel v gc,
  (length vs < fuel)%nat →
  0 ≤ u < Z.of_nat (length (adjacency_list_ gc)) →
  (∀ x, x ∈ vs →
     0 ≤ x < Z.of_nat (length (adjacency_list_ gc)) ∧ x ≠ u ∧
     x ≤ UINT32_MAX) →
  (∀ w x, adjacent gc w x = adjacent gc x w) →
  ∃ gc',
    neighbours_loop fuel (mk_istream (blank :: tokens vs) false false) v u gc
      = Done gc' ∧
    n_ gc' = n_ gc ∧ l_ gc' = l_ gc ∧
    vertex_labels_ gc' = vertex_labels_ gc ∧
    length (adjacency_list_ gc') = length (adjacency_list_ gc) ∧
    ∀ w x, adjacent gc' w x = true ↔
           adjacent gc w x = true ∨ (w = u ∧ x ∈ vs) ∨ (x = u ∧ w ∈ vs).
Proof.
  induction vs as [|y vs IH]; intros fuel v gc Hfuel Hu Hvs Hsym;
    (destruct fuel as [|fuel]; [simpl in Hfuel; lia|]); cbn [neighbours_loop].
  - rewrite extract_uint32_blank. change (tokens []) with (@nil ascii).
    rewrite extract_uint32_end. cbn [failbit]. exists gc.
    repeat (split; [done|]). intros w x. split; [auto|].
    intros [H|[[_ H]|[_ H]]]; [done|by apply elem_of_nil in H..].
  - destruct (Hvs y) as (Hy & Hyu & Hmax); [left|].
    rewrite extract_uint32_blank, tokens_cons.
    rewrite extract_uint32_show by (eauto || lia). cbn [failbit].
    destruct (add_edge_is_Some u y gc Hu Hy) as [[ok g1] Hadd].
    rewrite Hadd.
    pose proof (add_edge_extends _ _ _ _ _ Hadd) as [Hn1 Hl1 Hlab1 Hlen1 _].
    pose proof (adjacent_add_edge_iff _ _ _ _ _ Hadd ltac:(done) Hsym)
      as Hadj1.
    destruct (IH fuel y g1) as (gc' & Hrun & Hn & Hl & Hlab & Hlen & Hadj).
    + simpl in Hfuel. lia.
    + by rewrite Hlen1.
    + intros x Hx. rewrite Hlen1. apply Hvs. by right.
    + intros w x. apply eq_true_iff_eq. rewrite !Hadj1, (Hsym w x). tauto.
    + exists gc'. split; [done|].
      split; [congruence|]. split; [congruence|]. split; [congruence|].
      split; [congruence|].
      intros w x. rewrite Hadj, Hadj1, !elem_of_cons. naive_solver.
Qed.

(** ** Writing a graph and reading it back *)

Section RoundTrip.

Variable iteration_order : gset Z → list Z.
Hypothesis iteration_order_elem : ∀ s x, x ∈ iteration_order s ↔ x ∈ s.

Variable g : LabelledGraph.
Hypothesis Hwf : wf g.

Lemma wf_at_label i :
  0 ≤ i < n_ g → ∃ label,
    at_ (vertex_labels_ g) i = Some label ∧ 0 ≤ label ≤ UINT32_MAX.
Proof.
  intros Hi. destruct (at_is_Some (vertex_labels_ g) i) as [label Hlab].
  { rewrite (wf_labels_length g Hwf). lia. }
  exists label. split; [done|]. apply at_Some in Hlab as [_ Hlab].
  apply (wf_labels g Hwf) in Hlab. pose proof (wf_l g Hwf).
  unfold UINT32_MAX. lia.
Qed.

Lemma wf_at_adjacency i :
  0 ≤ i < n_ g → ∃ s,
    at_ (adjacency_list_ g) i = Some s ∧
    ∀ x, x ∈ iteration_order s ↔ adjacent g i x = true.
Proof.
  intros Hi. destruct (at_is_Some (adjacency_list_ g) i) as [s Hs].
  { rewrite (wf_adj_length g Hwf). lia. }
  exists s. split; [done|]. intros x. unfold adjacent.
  by rewrite Hs, iteration_order_elem, bool_decide_eq_true.
Qed.

Lemma print_vertex_text out i :
  0 ≤ i < n_ g →
  print_vertex iteration_order g out i =
  Some (out ++ vertex_text iteration_order g i ++ [newline]).
Proof.
  intros Hi. unfold print_vertex, vertex_text.
  destruct (wf_at_label i Hi) as (label & -> & _).
  destruct (wf_at_adjacency i Hi) as (s & -> & _). simpl.
  rewrite foldl_tokens. simpl. by rewrite <- !app_assoc.
Qed.

Lemma print_vertices vs : ∀ out,
  (∀ i, i ∈ vs → 0 ≤ i < n_ g) →
  foldlM (print_vertex iteration_order g) out vs =
  Some (out ++ (vs ≫= λ i, vertex_text iteration_order g i ++ [newline])).
Proof.
  induction vs as [|i vs IH]; intros out Hvs; cbn [foldlM mbind list_bind].
  - by rewrite app_nil_r.
  - rewrite print_vertex_text by (apply Hvs; left). simpl.
    rewrite IH by (intros j Hj; apply Hvs; by right).
    by rewrite <- !app_assoc.
Qed.

Lemma vertex_text_no_newline i :
  Forall (λ c, c ≠ newline) (vertex_text iteration_order g i).
Proof.
  unfold vertex_text.
  destruct (at_ (vertex_labels_ g) i); [|constructor].
  destruct (at_ (adjacency_list_ g) i); [|constructor].
  apply Forall_app. split; [apply show_uint32_no_newline|].
  constructor; [done | apply tokens_no_newline].
Qed.

Lemma read_up_to_sym k gc :
  read_up_to g k gc → ∀ w x, adjacent gc w x = adjacent gc x w.
Proof.
  intros Hrd w x. apply eq_true_iff_eq.
  rewrite !(rd_edges _ _ _ Hrd), (wf_sym g Hwf w x). tauto.
Qed.

(** One round of the loop of the constructor on the line of [u]. *)
Lemma read_vertex_line v0 u gc rest line :
  read_up_to g u gc → 0 ≤ u < n_ g →
  ∃ gc',
    read_vertex v0
      (gc, mk_istream (vertex_text iteration_order g u ++ newline :: rest)
             false false, line) u
    = Done (gc', mk_istream rest false false,
            vertex_text iteration_order g u) ∧
    read_up_to g (u + 1) gc'.
Proof.
  intros Hrd Hu. unfold read_vertex.
  rewrite getline_app by apply vertex_text_no_newline.
  unfold vertex_text.
  destruct (wf_at_label u Hu) as (label & Hlabel & Hrange). rewrite Hlabel.
  destruct (wf_at_adjacency u Hu) as (s & Hs & Hin). rewrite Hs.
  pose proof (wf_n g Hwf) as Hn.
  pose proof (wf_adj_length g Hwf) as Hadjlen.
  pose proof (wf_labels_length g Hwf) as Hlablen.
  destruct (at_is_Some (vertex_labels_ gc) u) as [old ->].
  { rewrite (rd_labels_length _ _ _ Hrd), Hlablen. lia. }
  unfold istringstream. rewrite extract_uint32_show by eauto.
  rewrite bool_decide_eq_false_2 by done.
  set (gc1 := set_labels gc (<[Z.to_nat u := label]> (vertex_labels_ gc))).
  destruct (neighbours_loop_tokens u (iteration_order s)
              (S (length (show_uint32 label ++
                          blank :: tokens (iteration_order s)))) v0 gc1)
    as (gc' & -> & Hn' & Hl' & Hlab' & Hlen' & Hadj').
  - rewrite length_app. simpl.
    pose proof (tokens_length (iteration_order s)). lia.
  - simpl. rewrite (rd_adj_length _ _ _ Hrd), Hadjlen. lia.
  - intros x Hx. apply Hin in Hx. simpl.
    rewrite (rd_adj_length _ _ _ Hrd), Hadjlen.
    pose proof (wf_adj_range g Hwf _ _ Hx).
    split; [lia|]. split; [|unfold UINT32_MAX; lia].
    intros ->. by rewrite (wf_irrefl g Hwf) in Hx.
  - apply (read_up_to_sym u gc Hrd).
  - exists gc'. split; [done|]. split.
    + rewrite Hn'. apply Hrd.
    + rewrite Hl'. apply Hrd.
    + rewrite Hlen'. apply Hrd.
    + rewrite Hlab'. simpl. rewrite length_insert. apply Hrd.
    + intros i Hi. rewrite Hlab'. simpl. unfold at_.
      rewrite !decide_True by lia.
      destruct (decide (i = u)) as [->|Hne].
      * rewrite list_lookup_insert_eq
          by (rewrite (rd_labels_length _ _ _ Hrd), Hlablen; lia).
        by apply at_Some in Hlabel as [_ ->].
      * rewrite list_lookup_insert_ne by lia.
        pose proof (rd_labels _ _ _ Hrd i ltac:(lia)) as Hold.
        unfold at_ in Hold. by rewrite !decide_True in Hold by lia.
    + intros w x. rewrite Hadj', !Hin.
      change (adjacent gc1 w x) with (adjacent gc w x).
      rewrite (rd_edges _ _ _ Hrd). split.
      * intros [[H1 H2]|[[-> H]|[-> H]]].
        -- split; [done | lia].
        -- split; [done | lia].
        -- split; [by rewrite (wf_sym g Hwf) | lia].
      * intros [H1 H2].
        destruct (decide (w < u ∨ x < u)) as [|Hge]; [by left|].
        right. destruct (decide (w = u)) as [->|]; [by left|].
        right. assert (x = u) as -> by lia.
        split; [done | by rewrite (wf_sym g Hwf)].
Qed.

(** The loop of the constructor on the lines of the vertices from [u]. *)
Lemma read_vertices_lines v0 (m : nat) : ∀ u gc line tail,
  read_up_to g u gc → 0 ≤ u → u + Z.of_nat m = n_ g →
  ∃ gc' line',
    read_vertices v0
      (gc, mk_istream
             ((seqZ u (Z.of_nat m)
                 ≫= λ i, vertex_text iteration_order g i ++ [newline])
              ++ tail) false false, line)
      (seqZ u (Z.of_nat m))
    = Done (gc', mk_istream tail false false, line') ∧
    read_up_to g (n_ g) gc'.
Proof.
  induction m as [|m IH]; intros u gc line tail Hrd Hu Hm.
  - simpl in *. exists gc, line. split; [done|].
    by replace (n_ g) with u by lia.
  - rewrite seqZ_cons by lia.
    replace (Z.pred (Z.of_nat (S m))) with (Z.of_nat m) by lia.
    cbn [mbind list_bind read_vertices]. rewrite <- !app_assoc.
    cbn [app].
    destruct (read_vertex_line v0 u gc
                ((seqZ (Z.succ u) (Z.of_nat m)
                    ≫= λ i, vertex_text iteration_order g i ++ [newline])
                 ++ tail) line Hrd ltac:(lia)) as (gc1 & -> & Hrd1).
    apply IH; [done | lia | lia].
Qed.

Lemma read_up_to_all gc :
  read_up_to g (n_ g) gc →
  n_ gc = n_ g ∧ l_ gc = l_ g ∧
  vertex_labels_ gc = vertex_labels_ g ∧
  adjacency_list_ gc = adjacency_list_ g.
Proof.
  intros Hrd. pose proof (wf_n g Hwf) as Hn.
  pose proof (wf_adj_length g Hwf) as Hadjlen.
  pose proof (wf_labels_length g Hwf) as Hlablen.
  split; [apply Hrd|]. split; [apply Hrd|]. split.
  - apply list_eq. intros i.
    destruct (decide (i < length (vertex_labels_ g))%nat) as [Hi|Hi].
    + pose proof (rd_labels _ _ _ Hrd (Z.of_nat i) ltac:(lia)) as H.
      unfold at_ in H. rewrite !decide_True, Nat2Z.id in H by lia. done.
    + rewrite !lookup_ge_None_2; [done | lia |].
      rewrite (rd_labels_length _ _ _ Hrd). lia.
  - apply list_eq. intros i.
    destruct (decide (i < length (adjacency_list_ g))%nat) as [Hi|Hi].
    + destruct (lookup_lt_is_Some_2 (adjacency_list_ g) i Hi) as [s Hs].
      destruct (lookup_lt_is_Some_2 (adjacency_list_ gc) i) as [sc Hsc].
      { by rewrite (rd_adj_length _ _ _ Hrd). }
      rewrite Hs, Hsc. f_equal. apply set_eq. intros x.
      pose proof (rd_edges _ _ _ Hrd (Z.of_nat i) x) as H.
      unfold adjacent, at_ in H.
      rewrite !decide_True, Nat2Z.id, Hs, Hsc in H by lia.
      rewrite !bool_decide_eq_true in H. rewrite H.
      split; [tauto|]. intros Hx. split; [done | lia].
    + rewrite !lookup_ge_None_2; [done | lia |].
      rewrite (rd_adj_length _ _ _ Hrd). lia.
Qed.

Lemma read_up_to_init m0 :
  read_up_to g 0 (init (mkGraph (n_ g) (l_ g) m0 [] [])).
Proof.
  pose proof (wf_adj_length g Hwf) as Hadjlen.
  pose proof (wf_labels_length g Hwf) as Hlablen.
  split; simpl; try done.
  - by rewrite length_replicate.
  - by rewrite length_replicate.
  - intros i Hi. lia.
  - intros w x. split; [|intros [E H]].
    + unfold adjacent, at_. simpl.
      destruct (decide (0 ≤ w)); [|done].
      destruct (replicate _ _ !! _) as [s|] eqn:E; [|done].
      apply lookup_replicate in E as [-> _].
      intros H. apply bool_decide_eq_true in H. set_solver.
    + exfalso.
      pose proof (adjacent_lt _ _ _ E). pose proof (wf_sym g Hwf w x) as Hs.
      rewrite E in Hs. symmetry in Hs. pose proof (adjacent_lt _ _ _ Hs). lia.
Qed.

(** C10. Writing a well-formed graph with at least one vertex with
    [print], whatever the order in which the adjacency sets are iterated,
    and constructing a graph from the text gives the same vertex count,
    the same label count, the same label for every vertex and the same
    adjacency set for every vertex. *)
Theorem print_from_file_round_trip (filename : text) (n0 l0 m0 v0 : Z) :
  0 < n_ g →
  ∃ t c,
    print iteration_order g = Some t ∧
    LabelledGraph_from_file filename (Some t) n0 l0 m0 v0 = Done c ∧
    n_ (graph c) = n_ g ∧ l_ (graph c) = l_ g ∧
    vertex_labels_ (graph c) = vertex_labels_ g ∧
    adjacency_list_ (graph c) = adjacency_list_ g.
Proof.
  intros Hpos. pose proof (wf_n g Hwf) as Hn. pose proof (wf_l g Hwf) as Hl.
  set (body := seqZ 0 (n_ g)
                 ≫= λ i, vertex_text iteration_order g i ++ [newline]).
  set (header := show_uint32 (n_ g) ++ blank :: show_uint32 (l_ g)).
  exists (header ++ newline :: body).
  assert (print iteration_order g = Some (header ++ newline :: body)) as ->.
  { unfold print. rewrite print_vertices by (intros i; apply elem_of_seqZ_0).
    f_equal. unfold header. by rewrite <- !app_assoc. }
  unfold LabelledGraph_from_file, open_file.
  rewrite getline_app.
  2:{ apply Forall_app. split; [apply show_uint32_no_newline|].
      constructor; [done | apply show_uint32_no_newline]. }
  unfold istringstream, header.
  rewrite extract_uint32_show by (eauto || unfold UINT32_MAX; lia).
  rewrite bool_decide_eq_false_2 by done.
  rewrite extract_uint32_blank.
  rewrite <- (app_nil_r (show_uint32 (l_ g))).
  rewrite extract_uint32_show by (eauto || unfold UINT32_MAX; lia).
  rewrite decide_False by lia.
  destruct (read_vertices_lines v0 (Z.to_nat (n_ g)) 0
              (init (mkGraph (n_ g) (l_ g) m0 [] []))
              (show_uint32 (n_ g) ++ blank :: show_uint32 (l_ g) ++ []) [])
    as (gc' & line' & Hrun & Hrd);
    [by apply read_up_to_init | lia | lia |].
  rewrite Z2Nat.id, app_nil_r in Hrun by lia. fold body in Hrun.
  rewrite Hrun. eexists. split; [done|]. split; [done|]. simpl.
  by apply read_up_to_all.
Qed.

End RoundTrip.

(** ** The constructor from a file: a negative vertex count *)

(** [in >> x] for an unsigned [x] accepts a minus sign and negates in 32
    bits. *)
Lemma extract_uint32_negative k rest x :
  1 ≤ k ≤ UINT32_MAX →
  rest = [] ∨ (∃ t, rest = blank :: t) →
  extract_uint32
    (mk_istream ("-"%char :: show_uint32 k ++ rest) false false) x =
  (mk_istream rest (bool_decide (rest = [])) false, 2 ^ 32 - k).
Proof.
  intros Hk Hrest. unfold extract_uint32.
  cbn [eofbit failbit buffer orb skip_space].
  change (is_space "-"%char) with false. cbv iota.
  rewrite (decide_True (P := "-"%char = "-"%char)) by done.
  rewrite read_show_uint32 by lia.
  rewrite read_digits_stop by done.
  rewrite decide_False by lia.
  f_equal. unfold wrap32. unfold UINT32_MAX in Hk.
  rewrite <- (Z.mod_add (- k) 1 (2 ^ 32)) by lia.
  replace (- k + 1 * 2 ^ 32) with (2 ^ 32 - k) by lia.
  apply Z.mod_small. lia.
Qed.

Lemma negative_header_line k l (tail : text) :
  "-"%char :: show_uint32 k ++ blank :: show_uint32 l ++ newline :: tail =
  ("-"%char :: show_uint32 k ++ blank :: show_uint32 l) ++ newline :: tail.
Proof. by rewrite <- app_comm_cons, <- app_assoc, <- app_comm_cons. Qed.

(** A first line that starts with [-k] stores the count [2^32 - k], which
    is positive. *)
Lemma parsed_vertex_count_negative k l tail n0 :
  1 ≤ k ≤ UINT32_MAX →
  parsed_vertex_count
    (Some ("-"%char :: show_uint32 k ++ blank :: show_uint32 l ++
           newline :: tail)) n0 = 2 ^ 32 - k.
Proof.
  intros Hk. unfold parsed_vertex_count, first_line, open_file.
  rewrite negative_header_line, getline_app.
  2:{ constructor; [done|]. apply Forall_app.
      split; [apply show_uint32_no_newline|].
      constructor; [done | apply show_uint32_no_newline]. }
  cbn [snd]. unfold istringstream.
  rewrite extract_uint32_negative by eauto. done.
Qed.

(** The constructor writes no message for a negative count in the file,
    whatever the rest of the file is. *)
Lemma from_file_negative_count_no_message filename k l tail n0 l0 m0 v0 c :
  1 ≤ k ≤ UINT32_MAX →
  LabelledGraph_from_file filename
    (Some ("-"%char :: show_uint32 k ++ blank :: show_uint32 l ++
           newline :: tail)) n0 l0 m0 v0 = Done c →
  cerr c = [].
Proof.
  intros Hk. unfold LabelledGraph_from_file, open_file.
  rewrite negative_header_line, getline_app.
  2:{ constructor; [done|]. apply Forall_app.
      split; [apply show_uint32_no_newline|].
      constructor; [done | apply show_uint32_no_newline]. }
  unfold istringstream.
  rewrite extract_uint32_negative by eauto.
  destruct (extract_uint32 _ l0) as [iss2 l2].
  unfold UINT32_MAX in Hk. rewrite decide_False by lia.
  destruct (read_vertices _ _ _) as [[[g' infile'] line']| |]; try done.
  by intros [= <-].
Qed.

(** C9. The constructor does not report every count that is not positive:
    the test [n_ <= 0] is made on the unsigned count that [iss >> n_] has
    stored, and a negative number of the file is stored as a positive
    count.  The first line [-5 3] stores the count 4294967291.  On the
    file with the lines [-4294967295 3], [2] and [1 0] the count is 1: no
    message is written, [init] is run, the second line is consumed for
    vertex 0, and the graph has one vertex with label 2. *)
Theorem from_file_negative_count_accepted :
  parsed_vertex_count (Some (list_ascii_of_string "-5 3" ++ [newline])) 7
    = 4294967291 ∧
  ∃ c,
    LabelledGraph_from_file (list_ascii_of_string "graph.txt")
      (Some (list_ascii_of_string "-4294967295 3" ++ newline ::
             list_ascii_of_string "2" ++ newline ::
             list_ascii_of_string "1 0")) 7 8 9 10 = Done c ∧
    cerr c = [] ∧
    n_ (graph c) = 1 ∧ l_ (graph c) = 3 ∧
    vertex_labels_ (graph c) = [2] ∧
    adjacency_list_ (graph c) = [∅] ∧
    infile c = mk_istream (list_ascii_of_string "1 0") false false.
Proof.
  split; [vm_compute; reflexivity|].
  eexists. split; [vm_compute; reflexivity|].
  repeat split; vm_compute; reflexivity.
Qed.

(** ** Checking well-formedness by computation *)

Lemma wf_check_sound g : wf_check g = true → wf g.
Proof.
  unfold wf_check. rewrite !andb_true_iff, !bool_decide_eq_true.
  intros [[[[[Hn Hl] Hadj] Hlab] Hrange] Hedges].
  rewrite forallb_forall in Hrange, Hedges.
  assert (∀ u v, adjacent g u v = true →
            0 ≤ v < n_ g ∧ v ≠ u ∧ adjacent g v u = true) as Hcheck.
  { intros u v Huv. pose proof (adjacent_lt _ _ _ Huv) as Hu.
    specialize (Hedges u). unfold adjacent in Huv.
    destruct (at_ (adjacency_list_ g) u) as [s|] eqn:Hs; [|done].
    apply bool_decide_eq_true in Huv.
    assert (In u (seqZ 0 (n_ g))) as Hin.
    { apply list_elem_of_In, elem_of_seqZ_0. lia. }
    specialize (Hedges Hin). rewrite forallb_forall in Hedges.
    specialize (Hedges v). rewrite andb_true_iff, bool_decide_eq_true in Hedges.
    destruct Hedges as [[? ?] ?]; [|done].
    by apply list_elem_of_In, elem_of_elements. }
  split; try done.
  - intros i x Hx. apply list_elem_of_lookup_2, list_elem_of_In in Hx.
    apply Hrange in Hx. by apply bool_decide_eq_true in Hx.
  - intros u v Huv. by apply Hcheck in Huv as [? _].
  - intros u. destruct (adjacent g u u) eqn:E; [|done].
    apply Hcheck in E as (_ & ? & _). done.
  - intros u v. apply eq_true_iff_eq. split; intros H;
      by apply Hcheck in H as (_ & _ & ?).
Qed.

(** ** The theorems at work on the sample inputs *)

(** C1 on [clique_and_loner] with the total-variation distance and
    [alpha = 1/4]. *)
Lemma is_alpha_proximal_iff_max_le_witness :
  ∃ global,
    get_global_ld clique_and_loner = Some global ∧
    is_global_distribution clique_and_loner global ∧
    (∀ v, 0 ≤ v < 5 → ∃ neighbourhood,
       get_neighbourhood_ld clique_and_loner v = Some neighbourhood ∧
       is_closed_neighbourhood_distribution clique_and_loner v
         neighbourhood) ∧
    ∀ M, max_vertex_distance LabelDistribution_distance
           clique_and_loner global M →
         (true = true ↔ (M <= 1 # 4)%Q).
Proof.
  apply (proj2 (is_alpha_proximal_iff_max_le LabelDistribution_distance
                  (1 # 4) clique_and_loner
                  LabelDistribution_distance_nonneg) true).
  vm_compute. reflexivity.
Defined.

(** C2 on a run of [greedy] over [three_loners]. *)
Lemma strategies_exit_proximal_or_complete_witness :
  ∃ g' r',
    greedy LabelDistribution_distance LabelDistribution_get_deficiencies
      10 (1 # 10) three_loners (rng_of [1; 2]) = Done (g', r') ∧
    (is_alpha_proximal LabelDistribution_distance (1 # 10) g' = Some true ∨
     is_complete g' = true).
Proof.
  eexists _, _. split; [vm_compute; reflexivity|].
  eapply (strategies_exit_proximal_or_complete LabelDistribution_distance
            LabelDistribution_get_deficiencies (1 # 10) three_loners
            (rng_of [1; 2]) 10).
  right. vm_compute. reflexivity.
Defined.


(** C5 on the search of a mate of label 2 for vertex 0 of
    [three_loners]: the entry of vertex 1 is taken. *)
Lemma find_mate_first_fit_witness :
  (∃ j u mask g',
     (0 < j)%nat ∧ [(0, 12); (1, 10); (2, 6)] !! j = Some (u, mask) ∧
     Z.testbit mask 1 = true ∧ at_ (vertex_labels_ three_loners) u = Some 2 ∧
     add_edge 0 u three_loners = Some (true, g') ∧
     ([(0, 12); (1, 8); (2, 6)], three_loners_joined, 1) =
       (<[j := (u, Z.clearbit mask 1)]> [(0, 12); (1, 10); (2, 6)], g',
        wrap32 (0 + 1)) ∧
     ∀ j' u' mask', (0 < j' < j)%nat →
       [(0, 12); (1, 10); (2, 6)] !! j' = Some (u', mask') →
       Z.testbit mask' 1 = true →
       at_ (vertex_labels_ three_loners) u' = Some 2 →
       add_edge 0 u' three_loners = Some (false, three_loners))
  ∨
  (([(0, 12); (1, 8); (2, 6)], three_loners_joined, 1) =
     ([(0, 12); (1, 10); (2, 6)], three_loners, 0) ∧
   ∀ j' u' mask', (0 < j')%nat →
     [(0, 12); (1, 10); (2, 6)] !! j' = Some (u', mask') →
     Z.testbit mask' 1 = true →
     at_ (vertex_labels_ three_loners) u' = Some 2 →
     add_edge 0 u' three_loners = Some (false, three_loners)).
Proof.
  apply (find_mate_first_fit 0 0 1 2 2 [(0, 12); (1, 10); (2, 6)] three_loners 0
           ([(0, 12); (1, 8); (2, 6)], three_loners_joined, 1));
    vm_compute; reflexivity.
Defined.

(** C6 (as amended) on [clique_and_pair]: the iteration joins the
    vertices 4 and 5, the clique is outside the pool. *)
Lemma run_greedy_iteration_frame_outside_pool_witness :
  ∃ g' r',
    run_greedy_iteration LabelDistribution_get_deficiencies (1 # 10)
      clique_and_pair (rng_of []) = Some (1, g', r') ∧
    adjacency_list_ g' =
      [{[1; 2; 3]}; {[0; 2; 3]}; {[0; 1; 3]}; {[0; 1; 2]}; {[5]}; {[4]}] ∧
    ∃ global,
      get_global_ld clique_and_pair = Some global ∧
      get_global_ld g' = Some global ∧
      ∀ v nb,
        get_neighbourhood_ld clique_and_pair v = Some nb →
        ¬ 0 < wrap32 (LabelDistribution_get_deficiencies nb global (1 # 10)) →
        get_neighbourhood_ld g' v = Some nb ∧
        ∀ d, vertex_distance LabelDistribution_distance g' global v d ↔
             vertex_distance LabelDistribution_distance
               clique_and_pair global v d.
Proof.
  eexists _, _. split; [vm_compute; reflexivity|].
  split; [vm_compute; reflexivity|].
  eapply (run_greedy_iteration_frame_outside_pool LabelDistribution_distance
            LabelDistribution_get_deficiencies (1 # 10) clique_and_pair
            (rng_of []) 1).
  vm_compute. reflexivity.
Defined.

(** C7 on a run of [hopeful] over [clique_and_loner], which has six
    edges: the run joins the isolated vertex 3 to the vertices 1, 2 and
    4. *)
Lemma strategies_only_add_edges_witness :
  ∃ g' r',
    hopeful LabelDistribution_distance 10 (1 # 10) clique_and_loner
      (rng_of [1; 2]) = Done (g', r') ∧
    adjacency_list_ g' =
      [{[1; 2; 4]}; {[0; 2; 3; 4]}; {[0; 1; 3; 4]}; {[1; 2; 4]};
       {[0; 1; 2; 3]}] ∧
    n_ g' = n_ clique_and_loner ∧ l_ g' = l_ clique_and_loner ∧
    vertex_labels_ g' = vertex_labels_ clique_and_loner ∧
    ∀ u v, adjacent clique_and_loner u v = true → adjacent g' u v = true.
Proof.
  eexists _, _. split; [vm_compute; reflexivity|].
  split; [vm_compute; reflexivity|].
  eapply (strategies_only_add_edges LabelDistribution_distance
            LabelDistribution_get_deficiencies (1 # 10) clique_and_loner
            (rng_of [1; 2]) 10).
  left. vm_compute. reflexivity.
Defined.

(** The constructor on a file whose first line gives 0 vertices. *)
Lemma from_file_non_positive_count_witness :
  ∃ c,
    LabelledGraph_from_file (list_ascii_of_string "graph.txt")
      (Some (list_ascii_of_string "0 3" ++ newline ::
             list_ascii_of_string "1 2" ++ [newline])) 7 8 9 10 = Done c ∧
    cerr c = parse_error_message ∧
    adjacency_list_ (graph c) = [] ∧
    vertex_labels_ (graph c) = [] ∧
    infile c =
      (first_line
         (Some (list_ascii_of_string "0 3" ++ newline ::
                list_ascii_of_string "1 2" ++ [newline]))).1.
Proof.
  apply from_file_non_positive_count. vm_compute. discriminate.
Defined.

(** C10 on [clique_and_loner], the sets iterated in the order of
    [elements]. *)
Lemma print_from_file_round_trip_witness :
  ∃ t c,
    print elements clique_and_loner = Some t ∧
    LabelledGraph_from_file (list_ascii_of_string "graph.txt") (Some t)
      7 8 9 10 = Done c ∧
    n_ (graph c) = n_ clique_and_loner ∧
    l_ (graph c) = l_ clique_and_loner ∧
    vertex_labels_ (graph c) = vertex_labels_ clique_and_loner ∧
    adjacency_list_ (graph c) = adjacency_list_ clique_and_loner.
Proof.
  apply (print_from_file_round_trip elements).
  - intros s x. apply elem_of_elements.
  - apply wf_check_sound. vm_compute. reflexivity.
  - reflexivity.
Defined.

(** * Further properties of the code *)

(** ** The distributions: bounds, totals, order *)

Lemma incr_Some_iff counts i :
  is_Some (incr counts i) ↔ 0 ≤ i < Z.of_nat (length counts).
Proof.
  split; [|apply incr_is_Some]. unfold incr. intros [c Hc].
  destruct (at_ counts i) as [y|] eqn:Hy; [|done]. by eapply at_lt.
Qed.

Lemma foldlM_incr_defined labels : ∀ counts,
  is_Some (foldlM incr counts labels) ↔
  ∀ x, x ∈ labels → 0 ≤ x < Z.of_nat (length counts).
Proof.
  induction labels as [|a labels IH]; intros counts; simpl.
  { split; [|eauto]. intros _ x Hx. by apply elem_of_nil in Hx. }
  split.
  - intros Hsome x Hx.
    destruct (incr counts a) as [c1|] eqn:Hincr;
      [|by destruct Hsome as [? [=]]].
    simpl in Hsome. apply elem_of_cons in Hx as [->|Hx].
    + apply incr_Some_iff. by rewrite Hincr.
    + rewrite <- (incr_length _ _ _ Hincr). by apply IH.
  - intros Hall. destruct (incr_is_Some counts a) as [c1 Hincr];
      [apply Hall; left|].
    rewrite Hincr. simpl. apply IH. intros x Hx.
    rewrite (incr_length _ _ _ Hincr). apply Hall. by right.
Qed.

(** X1. [get_global_ld] indexes the counts by the labels without a bounds
    check: it is defined exactly when every label of the graph is in
    [0, l_). *)
Theorem get_global_ld_defined_iff (g : LabelledGraph) :
  is_Some (get_global_ld g) ↔
  ∀ x, x ∈ vertex_labels_ g → 0 ≤ x < l_ g.
Proof.
  unfold get_global_ld. rewrite foldlM_incr_defined, zero_counts_length.
  split; intros H x Hx; specialize (H x Hx); lia.
Qed.

Lemma population_insert (l : list Z) i x y :
  l !! i = Some y → population (<[i := x]> l) = population l - y + x.
Proof.
  revert i. induction l as [|a l IH]; intros [|i]; simpl; try done.
  - intros [= ->]. unfold population. simpl. lia.
  - intros Hy. unfold population in *. simpl. rewrite (IH i Hy). lia.
Qed.

Lemma population_lookup_le (l : list Z) i y :
  Forall (λ x, 0 ≤ x) l → l !! i = Some y → 0 ≤ y ≤ population l.
Proof.
  intros Hl. revert i. unfold population.
  induction Hl as [|a l Ha Hl IH]; intros [|i]; simpl; try done.
  - intros [= ->]. assert (0 ≤ foldr Z.add 0 l); [|lia].
    clear IH. induction Hl; simpl; lia.
  - intros Hy. specialize (IH i Hy). lia.
Qed.

Lemma incr_loop_population labels : ∀ counts counts',
  foldlM incr counts labels = Some counts' →
  Forall (λ x, 0 ≤ x) counts →
  population counts + Z.of_nat (length labels) < 2 ^ 32 →
  population counts' = population counts + Z.of_nat (length labels) ∧
  length counts' = length counts.
Proof.
  induction labels as [|a labels IH]; intros counts counts'; simpl.
  { intros [= <-] _ _. split; [lia | done]. }
  destruct (incr counts a) as [c1|] eqn:Hincr; simpl; [|done].
  intros Hrun Hpos Hbound. pose proof (incr_length _ _ _ Hincr) as Hlen.
  unfold incr in Hincr.
  destruct (at_ counts a) as [y|] eqn:Hy; simpl in Hincr; [|done].
  injection Hincr as <-. apply at_Some in Hy as [Ha Hy].
  pose proof (population_lookup_le _ _ _ Hpos Hy) as Hyle.
  assert (wrap32 (y + 1) = y + 1) as Hwrap
    by (unfold wrap32; apply Z.mod_small; lia).
  rewrite Hwrap in *.
  apply IH in Hrun.
  - rewrite (population_insert _ _ _ _ Hy) in Hrun.
    rewrite length_insert in Hrun. split; [lia | tauto].
  - apply Forall_insert; [done | lia].
  - rewrite (population_insert _ _ _ _ Hy). lia.
Qed.

Lemma zero_counts_population l : population (zero_counts l) = 0.
Proof.
  unfold zero_counts, population.
  induction (Z.to_nat l) as [|k IH]; simpl; [done | by rewrite IH].
Qed.

Lemma zero_counts_nonneg l : Forall (λ x, 0 ≤ x) (zero_counts l).
Proof. unfold zero_counts. by apply Forall_replicate. Qed.

(** X2. The counts of the global distribution add up to the number of
    vertices, and the counts of the distribution of a closed neighbourhood
    add up to the degree of the vertex plus one; both have one entry per
    label. *)
Theorem distributions_population (g : LabelledGraph) :
  (∀ global,
     get_global_ld g = Some global →
     Z.of_nat (length (vertex_labels_ g)) < 2 ^ 32 →
     population global = Z.of_nat (length (vertex_labels_ g)) ∧
     length global = Z.to_nat (l_ g)) ∧
  (∀ v adj neighbourhood,
     get_neighbourhood_ld g v = Some neighbourhood →
     at_ (adjacency_list_ g) v = Some adj →
     Z.of_nat (size adj) + 1 < 2 ^ 32 →
     population neighbourhood = Z.of_nat (size adj) + 1 ∧
     length neighbourhood = Z.to_nat (l_ g)).
Proof.
  split.
  - intros global Hrun Hbound. unfold get_global_ld in Hrun.
    apply incr_loop_population in Hrun as [Hpop Hlen];
      [| apply zero_counts_nonneg | rewrite zero_counts_population; lia].
    rewrite zero_counts_population in Hpop.
    rewrite zero_counts_length in Hlen. split; [lia | done].
  - intros v adj nb Hrun Hadj Hbound. unfold get_neighbourhood_ld in Hrun.
    destruct (at_ (vertex_labels_ g) v) as [lv|]; simpl in Hrun; [|done].
    destruct (incr (zero_counts (l_ g)) lv) as [c1|] eqn:Hincr;
      simpl in Hrun; [|done].
    rewrite Hadj in Hrun. simpl in Hrun.
    apply neighbour_loop_labels in Hrun as (ls & Hls & Hrun).
    assert (foldlM incr (zero_counts (l_ g)) (lv :: ls) = Some nb) as Hall
      by (simpl; by rewrite Hincr).
    apply Forall2_length in Hls.
    assert (length ls = size adj) as Hsize by (by rewrite <- Hls).
    apply incr_loop_population in Hall as [Hpop Hlen];
      [| apply zero_counts_nonneg
       | rewrite zero_counts_population; simpl length; lia].
    rewrite zero_counts_population in Hpop.
    rewrite zero_counts_length in Hlen. simpl length in Hpop.
    split; [lia | done].
Qed.

(** A loop whose rounds commute gives the same result on the elements in
    any order. *)
Lemma foldlM_Permutation {A B : Type} (f : A → B → option A) l l' :
  (∀ a x y, (a' ← f a x; f a' y) = (a' ← f a y; f a' x)) →
  l ≡ₚ l' → ∀ a, foldlM f a l = foldlM f a l'.
Proof.
  intros Hcomm. induction 1 as [|x l l' _ IH|x y l|l l' l'' _ IH1 _ IH2];
    intros a; simpl.
  - done.
  - destruct (f a x); simpl; [apply IH | done].
  - pose proof (Hcomm a y x) as H.
    destruct (f a y) as [a1|]; destruct (f a x) as [a2|]; simpl in *;
      try done.
    + destruct (f a1 x) as [a3|]; destruct (f a2 y) as [a4|]; simpl in *;
        congruence.
    + by destruct (f a1 x).
    + by destruct (f a2 y).
  - by rewrite IH1.
Qed.

Lemma incr_commute counts a b :
  (c ← incr counts a; incr c b) = (c ← incr counts b; incr c a).
Proof.
  destruct (decide (a = b)) as [->|Hne]; [done|].
  unfold incr.
  destruct (at_ counts a) as [ya|] eqn:Ha; destruct (at_ counts b) as [yb|] eqn:Hb;
    simpl.
  - apply at_Some in Ha as [Ha0 Ha]. apply at_Some in Hb as [Hb0 Hb].
    unfold at_. rewrite !decide_True by done.
    rewrite !list_lookup_insert_ne by lia. rewrite Ha, Hb. simpl.
    f_equal. apply list_insert_insert_ne. lia.
  - assert (at_ (<[Z.to_nat a := wrap32 (ya + 1)]> counts) b = None) as ->;
      [|done].
    unfold at_ in *. destruct (decide (0 ≤ b)); [|done].
    apply lookup_ge_None. rewrite length_insert. by apply lookup_ge_None.
  - assert (at_ (<[Z.to_nat b := wrap32 (yb + 1)]> counts) a = None) as ->;
      [|done].
    unfold at_ in *. destruct (decide (0 ≤ a)); [|done].
    apply lookup_ge_None. rewrite length_insert. by apply lookup_ge_None.
  - done.
Qed.

Lemma neighbour_step_commute labels counts u w :
  (c ← (lu ← at_ labels u; incr counts lu);
   lw ← at_ labels w; incr c lw) =
  (c ← (lw ← at_ labels w; incr counts lw);
   lu ← at_ labels u; incr c lu).
Proof.
  destruct (at_ labels u) as [lu|]; destruct (at_ labels w) as [lw|]; simpl.
  - apply incr_commute.
  - by destruct (incr counts lu).
  - by destruct (incr counts lw).
  - done.
Qed.

(** X3. The distribution of a closed neighbourhood does not depend on the
    order in which the adjacency set is iterated. *)
Theorem get_neighbourhood_ld_any_order (g : LabelledGraph) (v : Z)
    (adj : gset Z) (us : list Z) :
  at_ (adjacency_list_ g) v = Some adj →
  us ≡ₚ elements adj →
  get_neighbourhood_ld_in_order g v us = get_neighbourhood_ld g v.
Proof.
  intros Hadj Hperm. unfold get_neighbourhood_ld_in_order, get_neighbourhood_ld.
  rewrite Hadj.
  destruct (at_ (vertex_labels_ g) v) as [lv|]; simpl; [|done].
  destruct (incr (zero_counts (l_ g)) lv) as [c|]; simpl; [|done].
  apply foldlM_Permutation; [|done].
  intros a x y. apply neighbour_step_commute.
Qed.

(** ** The proximity test: threshold, complete graphs *)

Lemma foldlM_incr_length labels : ∀ counts counts',
  foldlM incr counts labels = Some counts' → length counts' = length counts.
Proof.
  induction labels as [|a labels IH]; intros counts counts'; simpl.
  { by intros [= <-]. }
  destruct (incr counts a) as [c1|] eqn:Hincr; simpl; [|done].
  intros Hrun. rewrite (IH _ _ Hrun). by eapply incr_length.
Qed.

Lemma get_global_ld_length g global :
  get_global_ld g = Some global → length global = Z.to_nat (l_ g).
Proof.
  intros H. apply foldlM_incr_length in H. by rewrite zero_counts_length in H.
Qed.

Lemma get_neighbourhood_ld_length g v nb :
  get_neighbourhood_ld g v = Some nb → length nb = Z.to_nat (l_ g).
Proof.
  unfold get_neighbourhood_ld.
  destruct (at_ (vertex_labels_ g) v) as [lv|]; simpl; [|done].
  destruct (incr (zero_counts (l_ g)) lv) as [c1|] eqn:Hincr; simpl; [|done].
  destruct (at_ (adjacency_list_ g) v) as [adj|]; simpl; [|done].
  intros (ls & _ & Hrun)%neighbour_loop_labels.
  apply foldlM_incr_length in Hrun.
  by rewrite Hrun, (incr_length _ _ _ Hincr), zero_counts_length.
Qed.

(** The occurrences of a label among the labels of the vertices [us]. *)
Lemma occurrences_by_vertex labels c us ls :
  Forall2 (λ u lu, at_ labels u = Some lu) us ls →
  occurrences c ls =
  Z.of_nat (length (filter (λ u, at_ labels u = Some c) us)).
Proof.
  induction 1 as [|u lu us ls Hu _ IH]; [done|].
  rewrite occurrences_cons, filter_cons, IH.
  destruct (decide (lu = c)) as [->|Hne].
  - rewrite decide_True by done. simpl. lia.
  - rewrite decide_False by congruence. lia.
Qed.

Lemma labels_by_vertex (labels : list Z) :
  Forall2 (λ u lu, at_ labels u = Some lu)
    (seqZ 0 (Z.of_nat (length labels))) labels.
Proof.
  apply Forall2_same_length_lookup. split.
  - rewrite length_seqZ. lia.
  - intros i u lu Hu Hlu. apply lookup_seqZ in Hu as [-> _].
    apply at_Some. split; [lia|]. by rewrite Z.add_0_l, Nat2Z.id.
Qed.

(** In a complete graph the closed neighbourhood of a vertex is the whole
    vertex set. *)
Lemma complete_closed_neighbourhood g v adj :
  wf g → is_complete g = true → 0 ≤ v < n_ g →
  at_ (adjacency_list_ g) v = Some adj →
  v :: elements adj ≡ₚ seqZ 0 (n_ g).
Proof.
  intros Hwf Hc Hv Hadj.
  assert (∀ x, x ∈ adj ↔ adjacent g v x = true) as Hin.
  { intros x. unfold adjacent. by rewrite Hadj, bool_decide_eq_true. }
  apply NoDup_Permutation.
  - apply NoDup_cons_2; [|apply NoDup_elements].
    rewrite elem_of_elements, Hin, (wf_irrefl g Hwf). done.
  - apply NoDup_seqZ.
  - intros x. rewrite elem_of_cons, elem_of_elements, Hin, elem_of_seqZ_0.
    split.
    + intros [->|Hx]; [done|]. by apply (wf_adj_range g Hwf v).
    + intros Hx. destruct (decide (x = v)) as [|Hne]; [by left|]. right.
      rewrite is_complete_true in Hc.
      destruct (decide (v < x)); [apply Hc; lia|].
      rewrite (wf_sym g Hwf). apply Hc; lia.
Qed.

Lemma complete_neighbourhood_is_global g v global :
  wf g → is_complete g = true → 0 ≤ v < n_ g →
  get_global_ld g = Some global →
  get_neighbourhood_ld g v = Some global.
Proof.
  intros Hwf Hc Hv Hglobal.
  destruct (get_neighbourhood_ld_is_Some g v Hwf Hv) as [nb Hnb].
  rewrite Hnb. f_equal.
  pose proof (get_neighbourhood_ld_length _ _ _ Hnb) as Hlen_nb.
  pose proof (get_global_ld_length _ _ Hglobal) as Hlen_gl.
  apply get_neighbourhood_ld_counts in Hnb
    as (lv & adj & ls & Hlv & Hadj & Hls & Hcounts).
  apply get_global_ld_counts in Hglobal.
  apply list_eq. intros i.
  destruct (decide (i < Z.to_nat (l_ g))%nat) as [Hi|Hi].
  2:{ rewrite !lookup_ge_None_2; [done | lia | lia]. }
  specialize (Hcounts (Z.of_nat i) ltac:(lia)).
  specialize (Hglobal (Z.of_nat i) ltac:(lia)).
  apply at_Some in Hcounts as [_ Hcounts].
  apply at_Some in Hglobal as [_ Hglobal].
  rewrite Nat2Z.id in Hcounts, Hglobal. rewrite Hcounts, Hglobal.
  do 2 f_equal.
  rewrite (occurrences_by_vertex (vertex_labels_ g) _ (v :: elements adj))
    by (by constructor).
  rewrite (occurrences_by_vertex (vertex_labels_ g) _
             (seqZ 0 (Z.of_nat (length (vertex_labels_ g)))))
    by apply labels_by_vertex.
  rewrite (wf_labels_length g Hwf), Z2Nat.id by (destruct (wf_n g Hwf); lia).
  f_equal. apply Permutation_length. apply filter_Permutation.
  by apply complete_closed_neighbourhood.
Qed.

Section ProximityFacts.

Variable distance : LabelDistribution → LabelDistribution → Q.
Variable get_deficiencies : LabelDistribution → LabelDistribution → Q → Z.

(** X4. The result of [is_alpha_proximal] is a threshold test: there is a
    value [M], not negative and the same for every [alpha], such that
    the call returns [M <= alpha].  So the test is monotone in [alpha], and
    false for every negative [alpha], on the empty graph too. *)
Theorem is_alpha_proximal_threshold (alpha0 : Q) (g : LabelledGraph) result :
  is_alpha_proximal distance alpha0 g = Some result →
  ∃ M, (0 <= M)%Q ∧
    (∀ alpha, is_alpha_proximal distance alpha g = Some (Qle_bool M alpha)) ∧
    (∀ alpha alpha',
       is_alpha_proximal distance alpha g = Some true →
       (alpha <= alpha')%Q →
       is_alpha_proximal distance alpha' g = Some true) ∧
    (∀ alpha, (alpha < 0)%Q →
       is_alpha_proximal distance alpha g = Some false).
Proof.
  unfold is_alpha_proximal.
  destruct (get_global_ld g) as [global|]; simpl; [|done].
  destruct (max_distance_of distance g global) as [M|] eqn:HM; simpl; [|done].
  intros _. exists M.
  apply max_loop_spec in HM as (H0 & _ & _).
  split; [done|]. split; [done|]. split.
  - intros alpha alpha' [= Hle] Hmono. f_equal.
    apply Qle_bool_iff in Hle. apply Qle_bool_iff. by eapply Qle_trans.
  - intros alpha Hneg. f_equal. destruct (Qle_bool M alpha) eqn:E; [|done].
    apply Qle_bool_iff in E. exfalso.
    apply (Qlt_not_le alpha 0 Hneg). by eapply Qle_trans.
Qed.

Lemma complete_is_proximal alpha g :
  (∀ a, (distance a a == 0)%Q) →
  wf g → is_complete g = true → (0 <= alpha)%Q →
  is_alpha_proximal distance alpha g = Some true.
Proof.
  intros Hzero Hwf Hc Halpha.
  destruct (is_alpha_proximal_is_Some distance alpha g Hwf) as [b Hb].
  rewrite Hb. f_equal. revert Hb. unfold is_alpha_proximal.
  destruct (get_global_ld g) as [global|] eqn:Hglobal; simpl; [|done].
  destruct (max_distance_of distance g global) as [M|] eqn:HM; simpl; [|done].
  intros [= <-]. apply Qle_bool_iff.
  apply max_loop_spec in HM as (_ & _ & [->|(v & nb & Hv & Hnb & ->)]);
    [done|].
  apply elem_of_seqZ_0 in Hv.
  rewrite (complete_neighbourhood_is_global g v global Hwf Hc Hv Hglobal)
    in Hnb.
  injection Hnb as <-. by rewrite Hzero.
Qed.

(** X5. On a complete well-formed graph every closed neighbourhood is the
    whole graph: its distribution is the global one, and the test returns
    true for every [alpha] that is not negative, when the distance of a
    distribution to itself is 0. *)
Theorem is_alpha_proximal_complete alpha g :
  (∀ a, (distance a a == 0)%Q) →
  wf g → is_complete g = true → (0 <= alpha)%Q →
  (∀ v global, 0 ≤ v < n_ g → get_global_ld g = Some global →
     get_neighbourhood_ld g v = Some global) ∧
  is_alpha_proximal distance alpha g = Some true.
Proof.
  intros Hzero Hwf Hc Halpha. split.
  - intros v global Hv Hglobal.
    by apply complete_neighbourhood_is_global.
  - by apply complete_is_proximal.
Qed.

End ProximityFacts.

(** ** The strategies: invariants and composition *)

Lemma add_random_edge_wf g r ok g' r' :
  wf g → add_random_edge g r = Some (ok, g', r') → wf g'.
Proof.
  intros Hwf Hrun. destruct (is_complete g) eqn:Hc.
  - rewrite (add_random_edge_complete g r Hc) in Hrun.
    by injection Hrun as _ <- _.
  - destruct (add_random_edge_progress g r Hwf Hc) as (g1 & r1 & H1 & Hwf1 & _).
    rewrite H1 in Hrun. by injection Hrun as _ <- _.
Qed.

Lemma edges_added_new_edges P g g' j :
  edges_added P g g' j →
  ∀ u v, adjacent g' u v = true → adjacent g u v = true ∨ (P u ∧ P v).
Proof.
  induction 1 as [|g a b g1 g' k Ha Hb Hadd _ IH]; intros u v Huv; [by left|].
  destruct (IH u v Huv) as [H1|H1]; [|by right].
  rewrite (adjacent_add_edge _ _ _ _ _ _ Hadd) in H1.
  apply orb_true_iff in H1 as [H1|H1]; [by left|].
  apply bool_decide_eq_true in H1 as [[-> ->]|[-> ->]]; by right.
Qed.

Section StrategyFacts.

Variable distance : LabelDistribution → LabelDistribution → Q.
Variable get_deficiencies : LabelDistribution → LabelDistribution → Q → Z.

Lemma hopeful_loop_wf fuel alpha : ∀ leaks g r g' r',
  wf g → hopeful_loop distance fuel alpha leaks g r = Done (g', r') → wf g'.
Proof.
  induction fuel as [|fuel IH]; intros leaks g r g' r' Hwf; simpl;
    destruct (leaks && negb (is_complete g));
    try done; try (by intros [= <- _]).
  destruct (is_alpha_proximal distance alpha g) as [[]|]; [by apply IH| |done].
  destruct (add_random_edge g r) as [[[ok g1] r1]|] eqn:E; [|done].
  apply IH. by eapply add_random_edge_wf.
Qed.

Lemma greedy_loop_wf fuel alpha : ∀ leaks g r g' r',
  wf g →
  greedy_loop distance get_deficiencies fuel alpha leaks g r = Done (g', r') →
  wf g'.
Proof.
  induction fuel as [|fuel IH]; intros leaks g r g' r' Hwf; simpl;
    destruct (leaks && negb (is_complete g));
    try done; try (by intros [= <- _]).
  destruct (run_greedy_iteration _ alpha g r) as [[[num g1] r1]|] eqn:E1;
    [|done].
  apply run_greedy_iteration_progress in E1 as (Hwf1 & _); [|done].
  destruct (is_alpha_proximal distance alpha g1) as [[]|]; [by apply IH| |done].
  destruct (decide (num = 0)); [|by apply IH].
  destruct (add_random_edge g1 r1) as [[[ok g2] r2]|] eqn:E2; [|done].
  apply IH. by eapply add_random_edge_wf.
Qed.

Lemma strategies_wf alpha g r fuel g' r' :
  wf g →
  hopeful distance fuel alpha g r = Done (g', r') ∨
  greedy distance get_deficiencies fuel alpha g r = Done (g', r') →
  wf g'.
Proof.
  intros Hwf [H|H]; revert H.
  - unfold hopeful.
    destruct (is_alpha_proximal distance alpha g); [|done].
    by apply hopeful_loop_wf.
  - unfold greedy.
    destruct (is_alpha_proximal distance alpha g); [|done].
    by apply greedy_loop_wf.
Qed.

Lemma strategies_exit alpha g r fuel g' r' :
  hopeful distance fuel alpha g r = Done (g', r') ∨
  greedy distance get_deficiencies fuel alpha g r = Done (g', r') →
  is_alpha_proximal distance alpha g' = Some true ∨ is_complete g' = true.
Proof.
  intros [H|H]; revert H.
  - unfold hopeful.
    destruct (is_alpha_proximal distance alpha g) as [b|] eqn:Hp; [|done].
    apply hopeful_loop_exit. by destruct b.
  - unfold greedy.
    destruct (is_alpha_proximal distance alpha g) as [b|] eqn:Hp; [|done].
    apply greedy_loop_exit. by destruct b.
Qed.

(** X6. [hopeful], [greedy] and [run_greedy_iteration] keep the graph
    well-formed: [n_] adjacency sets over the vertices, symmetric and
    without self-loop, and [n_] labels below [l_]. *)
Theorem strategies_keep_wf alpha g r fuel g' r' :
  wf g →
  hopeful distance fuel alpha g r = Done (g', r') ∨
  greedy distance get_deficiencies fuel alpha g r = Done (g', r') ∨
  (∃ num,
     run_greedy_iteration get_deficiencies alpha g r = Some (num, g', r')) →
  wf g'.
Proof.
  intros Hwf [H|[H|[num H]]].
  - eapply strategies_wf; eauto.
  - eapply strategies_wf; eauto.
  - by apply run_greedy_iteration_progress in H as [? _].
Qed.

(** X7. With a distance that is 0 between a distribution and itself and
    an [alpha] that is not negative, a call of [hopeful] or [greedy] that
    returns on a well-formed graph leaves a graph on which
    [is_alpha_proximal(alpha)] is true: a graph completed on the way is
    proximal too. *)
Theorem strategies_end_proximal alpha g r fuel g' r' :
  (∀ a, (distance a a == 0)%Q) → (0 <= alpha)%Q → wf g →
  hopeful distance fuel alpha g r = Done (g', r') ∨
  greedy distance get_deficiencies fuel alpha g r = Done (g', r') →
  is_alpha_proximal distance alpha g' = Some true.
Proof.
  intros Hzero Halpha Hwf Hrun.
  pose proof (strategies_wf _ _ _ _ _ _ Hwf Hrun) as Hwf'.
  destruct (strategies_exit _ _ _ _ _ _ Hrun) as [H|H]; [done|].
  by apply complete_is_proximal.
Qed.

Lemma strategies_noop alpha g r fuel :
  is_Some (is_alpha_proximal distance alpha g) →
  is_alpha_proximal distance alpha g = Some true ∨ is_complete g = true →
  hopeful distance fuel alpha g r = Done (g, r) ∧
  greedy distance get_deficiencies fuel alpha g r = Done (g, r).
Proof.
  intros [b Hb] Hcase. unfold hopeful, greedy. rewrite Hb.
  destruct Hcase as [H|Hc].
  - assert (b = true) as -> by congruence. simpl.
    by rewrite hopeful_loop_false, greedy_loop_false.
  - split; destruct fuel; simpl; by rewrite Hc, andb_false_r.
Qed.

(** X8. On a graph that passes the test or is complete, [hopeful] and
    [greedy] return at once: the graph is not changed and no random number
    is drawn.  So a second call after a call that returned changes
    nothing. *)
Theorem strategies_idempotent alpha g r fuel g' r' :
  wf g →
  hopeful distance fuel alpha g r = Done (g', r') ∨
  greedy distance get_deficiencies fuel alpha g r = Done (g', r') →
  ∀ fuel',
    hopeful distance fuel' alpha g' r' = Done (g', r') ∧
    greedy distance get_deficiencies fuel' alpha g' r' = Done (g', r').
Proof.
  intros Hwf Hrun fuel'.
  pose proof (strategies_wf _ _ _ _ _ _ Hwf Hrun) as Hwf'.
  apply strategies_noop.
  - by apply is_alpha_proximal_is_Some.
  - by eapply strategies_exit.
Qed.

(** X9. The edges that one greedy iteration adds join vertices that had a
    non-empty deficiency mask when the iteration began, and the result is
    the number of successful insertions (in 32 bits). *)
Theorem run_greedy_iteration_pool_edges alpha g r num g' r' :
  run_greedy_iteration get_deficiencies alpha g r = Some (num, g', r') →
  ∃ global j,
    get_global_ld g = Some global ∧
    edges_added
      (λ x, 0 ≤ x < n_ g ∧ ∃ nb,
         get_neighbourhood_ld g x = Some nb ∧
         0 < wrap32 (get_deficiencies nb global alpha)) g g' j ∧
    num = wrap32 (Z.of_nat j) ∧
    ∀ u v, adjacent g' u v = true →
      adjacent g u v = true ∨
      ((∃ nb, get_neighbourhood_ld g u = Some nb ∧
              0 < wrap32 (get_deficiencies nb global alpha)) ∧
       (∃ nb, get_neighbourhood_ld g v = Some nb ∧
              0 < wrap32 (get_deficiencies nb global alpha))).
Proof.
  intros (global & pool & j & Hglobal & Hpool & Hadd & Hnum)
    %run_greedy_iteration_added.
  exists global, j. split; [done|].
  assert (edges_added
            (λ x, 0 ≤ x < n_ g ∧ ∃ nb,
               get_neighbourhood_ld g x = Some nb ∧
               0 < wrap32 (get_deficiencies nb global alpha)) g g' j) as Hadd'.
  { eapply edges_added_impl; [|done]. intros x Hx.
    by apply (build_visit_order_spec _ _ _ _ _ Hpool). }
  split; [done|]. split; [done|].
  intros u v Huv.
  destruct (edges_added_new_edges _ _ _ _ Hadd' u v Huv)
    as [H|[[_ Hu] [_ Hv]]]; [by left | by right].
Qed.

(** X10. When no vertex has a deficient label, the pool is empty: the
    iteration returns 0, adds no edge and draws no random number. *)
Theorem run_greedy_iteration_empty_pool alpha g r num g' r' :
  run_greedy_iteration get_deficiencies alpha g r = Some (num, g', r') →
  (∀ v nb global,
     0 ≤ v < n_ g → get_global_ld g = Some global →
     get_neighbourhood_ld g v = Some nb →
     wrap32 (get_deficiencies nb global alpha) = 0) →
  num = 0 ∧ g' = g ∧ r' = r.
Proof.
  unfold run_greedy_iteration.
  destruct (get_global_ld g) as [global|] eqn:Hglobal; simpl; [|done].
  destruct (build_visit_order _ alpha g global) as [pool|] eqn:Hpool;
    simpl; [|done].
  intros Hrun Hnone.
  assert (pool = []) as ->.
  { destruct pool as [|[x m] pool]; [done|]. exfalso.
    assert (x ∈ ((x, m) :: pool).*1) as Hx by left.
    apply (build_visit_order_spec _ _ _ _ _ Hpool) in Hx
      as (Hx & nb & Hnb & Hpos).
    rewrite (Hnone x nb global Hx eq_refl Hnb) in Hpos. lia. }
  simpl in Hrun. by injection Hrun as <- <- <-.
Qed.

End StrategyFacts.

(** ** Label assignment *)

Lemma occurrences_insert (l : list Z) i x y c :
  l !! i = Some y →
  occurrences c (<[i := x]> l) =
  occurrences c l - (if decide (y = c) then 1 else 0)
                  + (if decide (x = c) then 1 else 0).
Proof.
  revert i. induction l as [|a l IH]; intros [|i]; simpl; try done.
  - intros [= ->]. rewrite !occurrences_cons. lia.
  - intros Hy. rewrite !occurrences_cons, (IH i Hy). lia.
Qed.

Lemma occurrences_nonneg c l : 0 ≤ occurrences c l.
Proof. unfold occurrences. lia. Qed.

Lemma occurrences_all_zero c (l : list Z) :
  Forall (λ x, x = 0) l →
  occurrences c l = if decide (c = 0) then Z.of_nat (length l) else 0.
Proof.
  induction 1 as [|a l -> _ IH]; [by destruct (decide (c = 0))|].
  rewrite occurrences_cons, IH. simpl length.
  destruct (decide (c = 0)) as [->|Hne].
  - rewrite decide_True by done. lia.
  - rewrite decide_False by done. lia.
Qed.

Lemma rand_mod_Some n r v r' :
  rand_mod n r = Some (v, r') → n ≠ 0 ∧ ∃ x, v = x mod n.
Proof.
  unfold rand_mod. destruct (decide (n = 0)); [done|].
  destruct (rand r) as [x r1]. intros [= <- <-]. eauto.
Qed.

Lemma wrap32_dec_inc k : 0 ≤ k < 2 ^ 32 → wrap32 (wrap32 (k - 1) + 1) = k.
Proof.
  intros Hk. unfold wrap32. rewrite Zplus_mod_idemp_l.
  replace (k - 1 + 1) with k by lia. by apply Z.mod_small.
Qed.

Lemma same_but_labels_refl g : same_but_labels g g.
Proof. by repeat split. Qed.

Lemma same_but_labels_trans g1 g2 g3 :
  same_but_labels g1 g2 → same_but_labels g2 g3 → same_but_labels g1 g3.
Proof. unfold same_but_labels. intros (?&?&?&?&?) (?&?&?&?&?). 
  repeat split; congruence. Qed.

Lemma same_but_labels_insert g i x :
  same_but_labels g (set_labels g (<[i := x]> (vertex_labels_ g))).
Proof. repeat split. simpl. apply length_insert. Qed.

(** The loop that gives [cur_label] to vertices with label 0 moves
    [vertices_per_label - num_assigned] vertices from label 0 to
    [cur_label]. *)
Lemma assign_loop_spec fuel cur vpl : ∀ num g r g' r',
  assign_loop fuel cur num vpl g r = Done (g', r') →
  cur ≠ 0 → 0 ≤ cur < l_ g → 0 ≤ num ≤ vpl → vpl < 2 ^ 32 →
  labels_below (l_ g) (vertex_labels_ g) →
  same_but_labels g g' ∧
  labels_below (l_ g) (vertex_labels_ g') ∧
  occurrences cur (vertex_labels_ g') =
    occurrences cur (vertex_labels_ g) + (vpl - num) ∧
  occurrences 0 (vertex_labels_ g') =
    occurrences 0 (vertex_labels_ g) - (vpl - num) ∧
  ∀ c, c ≠ cur → c ≠ 0 →
    occurrences c (vertex_labels_ g') = occurrences c (vertex_labels_ g).
Proof.
  induction fuel as [|fuel IH]; intros num g r g' r' Hrun Hcur Hrange Hnum
    Hvpl Hlabels; cbn [assign_loop] in Hrun;
    destruct (decide (num < vpl)) as [Hlt|Hge]; try done.
  - injection Hrun as <- <-. assert (num = vpl) as -> by lia.
    split; [apply same_but_labels_refl|]. split; [done|].
    repeat split; try lia; try done.
  - destruct (rand_mod (n_ g) r) as [[v r1]|]; [|done].
    destruct (at_ (vertex_labels_ g) v) as [lab|] eqn:Hlab; [|done].
    apply at_Some in Hlab as [Hv Hlab].
    destruct (decide (lab = 0)) as [->|Hne].
    + replace (wrap32 (num + 1)) with (num + 1) in Hrun
        by (unfold wrap32; rewrite Z.mod_small; lia).
      apply IH in Hrun as (Hsame & Hbelow & Hc & H0 & Hother);
        [| done | done | lia | done | by apply Forall_insert].
      simpl in *.
      rewrite (occurrences_insert _ _ _ _ cur Hlab) in Hc.
      rewrite (occurrences_insert _ _ _ _ 0 Hlab) in H0.
      rewrite decide_False, decide_True in Hc by done.
      rewrite decide_True, decide_False in H0 by done.
      split.
      { eapply same_but_labels_trans; [apply same_but_labels_insert | done]. }
      split; [done|]. split; [lia|]. split; [lia|].
      intros c Hc1 Hc0. rewrite (Hother c Hc1 Hc0).
      rewrite (occurrences_insert _ _ _ _ c Hlab).
      rewrite !decide_False by done. lia.
    + rewrite wrap32_dec_inc in Hrun by lia.
      by apply IH in Hrun.
  - injection Hrun as <- <-. assert (num = vpl) as -> by lia.
    split; [apply same_but_labels_refl|]. split; [done|].
    repeat split; try lia; try done.
Qed.

(** The loop over the labels [curs] gives each of them
    [vertices_per_label] vertices more, taken from label 0. *)
Lemma quota_loop_spec fuel vpl : ∀ curs left g r left' g' r',
  quota_loop fuel curs vpl left g r = Done (left', g', r') →
  NoDup curs → (∀ c, c ∈ curs → 1 ≤ c < l_ g) → 0 ≤ vpl < 2 ^ 32 →
  left = wrap32 left →
  labels_below (l_ g) (vertex_labels_ g) →
  same_but_labels g g' ∧
  labels_below (l_ g) (vertex_labels_ g') ∧
  left' = wrap32 (left - Z.of_nat (length curs) * vpl) ∧
  (∀ c, c ∈ curs →
     occurrences c (vertex_labels_ g') =
     occurrences c (vertex_labels_ g) + vpl) ∧
  occurrences 0 (vertex_labels_ g') =
    occurrences 0 (vertex_labels_ g) - Z.of_nat (length curs) * vpl ∧
  ∀ c, c ∉ curs → c ≠ 0 →
    occurrences c (vertex_labels_ g') = occurrences c (vertex_labels_ g).
Proof.
  induction curs as [|cur curs IH]; intros left g r left' g' r' Hrun Hnodup
    Hcurs Hvpl Hleft Hlabels; cbn [quota_loop] in Hrun.
  { injection Hrun as <- <- <-.
    split; [apply same_but_labels_refl|]. split; [done|].
    split; [simpl; by rewrite Z.sub_0_r|]. split.
    - intros c Hc. by apply elem_of_nil in Hc.
    - split; [simpl; lia | done]. }
  destruct (assign_loop fuel cur 0 vpl g r) as [[g1 r1]| |] eqn:Hassign;
    try done.
  pose proof (NoDup_cons_1_1 _ _ Hnodup) as Hnotin.
  apply NoDup_cons_1_2 in Hnodup.
  destruct (Hcurs cur) as [Hcur1 Hcur2]; [left|].
  apply assign_loop_spec in Hassign
    as (Hsame1 & Hbelow1 & Hc1 & H01 & Hother1);
    [| lia | lia | lia | lia | done].
  pose proof Hsame1 as (_ & Hl1 & _).
  apply IH in Hrun as (Hsame & Hbelow & Hleft' & Hin & H0 & Hout);
    [| done | | done | by rewrite wrap32_idemp | by rewrite Hl1].
  2:{ intros c Hc. rewrite Hl1. apply Hcurs. by right. }
  rewrite Hl1 in Hbelow.
  split; [by eapply same_but_labels_trans|]. split; [done|]. split.
  { rewrite Hleft'. unfold wrap32. rewrite Zminus_mod_idemp_l.
    f_equal. simpl length. lia. }
  split; [|split].
  - intros c [->|Hc]%elem_of_cons.
    + rewrite Hout by (done || lia). lia.
    + rewrite (Hin c Hc). rewrite Hother1; [done | | ].
      * intros ->. done.
      * specialize (Hcurs c (list_elem_of_further _ _ _ Hc)). lia.
  - rewrite H0, H01. simpl length. lia.
  - intros c Hc Hc0. rewrite not_elem_of_cons in Hc. destruct Hc as [Hne Hc].
    rewrite (Hout c Hc Hc0). by apply Hother1.
Qed.

Lemma pick_loop_spec fuel s num_labels : ∀ l r l' r',
  pick_loop fuel l s num_labels r = Done (l', r') →
  (l' ∉ s) ∧ (0 < num_labels → 0 ≤ l < num_labels → 0 ≤ l' < num_labels).
Proof.
  induction fuel as [|fuel IH]; intros l r l' r' Hrun;
    cbn [pick_loop] in Hrun; destruct (decide (l ∈ s)) as [Hin|Hnotin];
    try done; try (by injection Hrun as <- <-).
  destruct (rand_mod num_labels r) as [[l1 r1]|] eqn:Hrand; [|done].
  apply rand_mod_Some in Hrand as [_ [x ->]].
  apply IH in Hrun as [Hnot Hrange]. split; [done|].
  intros Hpos _. apply Hrange; [done|]. by apply Z.mod_pos_bound.
Qed.

(** The loop that hands out the remainder gives at most one vertex more,
    taken from label 0, to a label outside [s], and moves at most
    [labels_left] vertices. *)
Lemma remainder_loop_spec fuel : ∀ left s g r g' r',
  remainder_loop fuel left s g r = Done (g', r') →
  0 < l_ g → 0 ≤ left < 2 ^ 32 →
  labels_below (l_ g) (vertex_labels_ g) →
  same_but_labels g g' ∧
  labels_below (l_ g) (vertex_labels_ g') ∧
  occurrences 0 (vertex_labels_ g) - left
    ≤ occurrences 0 (vertex_labels_ g')
    ≤ occurrences 0 (vertex_labels_ g) ∧
  ∀ c, c ≠ 0 →
    occurrences c (vertex_labels_ g') = occurrences c (vertex_labels_ g) ∨
    ((c ∉ s) ∧
     occurrences c (vertex_labels_ g') =
     occurrences c (vertex_labels_ g) + 1).
Proof.
  induction fuel as [|fuel IH]; intros left s g r g' r' Hrun Hl Hleft Hlabels;
    cbn [remainder_loop] in Hrun;
    destruct (decide (0 < left)) as [Hpos|Hnpos]; try done.
  1, 3: injection Hrun as <- <-;
    (split; [apply same_but_labels_refl|]); (split; [done|]);
    (split; [lia | intros c Hc; by left]).
  destruct (rand_mod (n_ g) r) as [[v r1]|]; [|done].
  destruct (at_ (vertex_labels_ g) v) as [lab|] eqn:Hlab; [|done].
  apply at_Some in Hlab as [Hv Hlab].
  assert (wrap32 (left - 1) = left - 1) as Hwrap
    by (unfold wrap32; rewrite Z.mod_small; lia).
  destruct (decide (lab = 0)) as [->|Hne].
  - destruct (rand_mod (l_ g) r1) as [[l0 r2]|] eqn:Hrand; [|done].
    apply rand_mod_Some in Hrand as [_ [x ->]].
    destruct (pick_loop (S fuel) (x mod l_ g) s (l_ g) r2)
      as [[l r3]| |] eqn:Hpick; try done.
    apply pick_loop_spec in Hpick as [Hnotin Hrange].
    specialize (Hrange Hl (Z.mod_pos_bound x (l_ g) Hl)).
    rewrite Hwrap in Hrun.
    apply IH in Hrun as (Hsame & Hbelow & H0 & Hother);
      [| done | lia | by apply Forall_insert].
    simpl in *.
    rewrite (occurrences_insert _ _ _ _ 0 Hlab), decide_True in H0 by done.
    split.
    { eapply same_but_labels_trans; [apply same_but_labels_insert | done]. }
    split; [done|]. split.
    { destruct (decide (l = 0)); lia. }
    intros c Hc. specialize (Hother c Hc).
    rewrite (occurrences_insert _ _ _ _ c Hlab) in Hother.
    rewrite (decide_False (P := 0 = c)) in Hother by done.
    destruct (decide (l = c)) as [->|Hlc].
    + right. split; [done|].
      destruct Hother as [H|[Hin H]]; [lia|]. exfalso. apply Hin. set_solver.
    + destruct Hother as [H|[Hin H]]; [left; lia|].
      right. split; [set_solver | lia].
  - destruct (rand_mod (l_ g) r1) as [[x r2]|]; [|done].
    destruct (decide (x = 0)).
    + rewrite Hwrap in Hrun.
      apply IH in Hrun as (Hsame & Hbelow & H0 & Hother);
        [| done | lia | done].
      split; [done|]. split; [done|]. split; [lia | done].
    + apply IH in Hrun as (Hsame & Hbelow & H0 & Hother);
        [| done | lia | done].
      split; [done|]. split; [done|]. split; [lia | done].
Qed.

(** The whole of [evenly_distribute_labels], relative to the labels it
    starts from. *)
Lemma evenly_distribute_labels_spec fuel g r g' r' :
  evenly_distribute_labels fuel g r = Done (g', r') →
  0 ≤ n_ g < 2 ^ 32 → 0 ≤ l_ g →
  labels_below (l_ g) (vertex_labels_ g) →
  same_but_labels g g' ∧
  labels_below (l_ g) (vertex_labels_ g') ∧
  (∀ c, 1 ≤ c < l_ g →
     occurrences c (vertex_labels_ g') =
       occurrences c (vertex_labels_ g) + n_ g / l_ g ∨
     occurrences c (vertex_labels_ g') =
       occurrences c (vertex_labels_ g) + n_ g / l_ g + 1) ∧
  occurrences 0 (vertex_labels_ g) - (l_ g - 1) * (n_ g / l_ g)
      - n_ g `mod` l_ g
    ≤ occurrences 0 (vertex_labels_ g')
    ≤ occurrences 0 (vertex_labels_ g) - (l_ g - 1) * (n_ g / l_ g).
Proof.
  unfold evenly_distribute_labels. intros Hrun Hn Hl0 Hlabels.
  destruct (decide (l_ g = 0)) as [|Hl]; [done|].
  assert (0 < l_ g) as Hlpos by lia.
  pose proof (Z.div_pos (n_ g) (l_ g) ltac:(lia) Hlpos) as Hvpl0.
  pose proof (Z.div_le_upper_bound (n_ g) (l_ g) (n_ g) Hlpos ltac:(nia))
    as Hvpln.
  pose proof (Z.div_mod (n_ g) (l_ g) Hl) as Hdiv.
  pose proof (Z.mod_pos_bound (n_ g) (l_ g) Hlpos) as Hmod.
  destruct (quota_loop _ _ _ _ _ _) as [[[left g1] r1]| |] eqn:Hquota;
    try done.
  apply quota_loop_spec in Hquota
    as (Hsame1 & Hbelow1 & Hleft & Hin1 & H01 & Hout1);
    [| apply NoDup_seqZ
     | intros c Hc%elem_of_seqZ; lia
     | lia
     | by rewrite wrap32_idemp
     | done].
  rewrite length_seqZ in Hleft, H01.
  rewrite Z2Nat.id in Hleft, H01 by lia.
  assert (left = n_ g `mod` l_ g) as Hleft'.
  { rewrite Hleft. unfold wrap32. rewrite Zminus_mod_idemp_l.
    replace (n_ g - n_ g / l_ g - (l_ g - 1) * (n_ g / l_ g))
      with (n_ g `mod` l_ g) by lia.
    apply Z.mod_small. lia. }
  assert (∀ c, 1 ≤ c < l_ g →
            occurrences c (vertex_labels_ g1) =
            occurrences c (vertex_labels_ g) + n_ g / l_ g) as Hq.
  { intros c Hc. apply Hin1, elem_of_seqZ. lia. }
  pose proof Hsame1 as (_ & Hl1 & _).
  destruct (decide (0 < left)) as [Hpos|Hnpos].
  - apply remainder_loop_spec in Hrun as (Hsame & Hbelow & H0 & Hother);
      [| lia | lia | by rewrite Hl1].
    rewrite Hl1 in Hbelow.
    split; [by eapply same_but_labels_trans|]. split; [done|]. split.
    + intros c Hc. rewrite <- (Hq c Hc).
      destruct (Hother c) as [H|[_ H]]; [lia | by left | right; lia].
    + lia.
  - injection Hrun as <- <-. split; [done|]. split; [done|]. split.
    + intros c Hc. left. by apply Hq.
    + lia.
Qed.

Lemma labels_below_lookup l (labels : list Z) :
  labels_below l labels ↔ ∀ i x, labels !! i = Some x → 0 ≤ x < l.
Proof. unfold labels_below. by rewrite Forall_lookup. Qed.

Lemma occurrences_outside l c (labels : list Z) :
  labels_below l labels → ¬ 0 ≤ c < l → occurrences c labels = 0.
Proof.
  unfold labels_below. induction 1 as [|a ls Ha _ IH]; intros Hc; [done|].
  rewrite occurrences_cons, IH by done. rewrite decide_False; lia.
Qed.

(** X11. [evenly_distribute_labels] on a graph whose vertices all have
    label 0 (as [init] leaves them), when it returns: every label from 1
    on is on [n / l] or [n / l + 1] vertices, label 0 is on at least
    [n / l] and at most [n / l + n mod l] vertices, and no vertex has a
    label outside [0, l). *)
Theorem evenly_distribute_labels_balance fuel g r g' r' :
  0 ≤ n_ g < 2 ^ 32 → 0 ≤ l_ g →
  vertex_labels_ g = replicate (Z.to_nat (n_ g)) 0 →
  evenly_distribute_labels fuel g r = Done (g', r') →
  (∀ c, 1 ≤ c < l_ g →
     occurrences c (vertex_labels_ g') = n_ g / l_ g ∨
     occurrences c (vertex_labels_ g') = n_ g / l_ g + 1) ∧
  n_ g / l_ g ≤ occurrences 0 (vertex_labels_ g')
              ≤ n_ g / l_ g + n_ g `mod` l_ g ∧
  (∀ c, ¬ 0 ≤ c < l_ g → occurrences c (vertex_labels_ g') = 0).
Proof.
  intros Hn Hl0 Hzero Hrun.
  assert (l_ g ≠ 0) as Hl.
  { intros H0. unfold evenly_distribute_labels in Hrun.
    by rewrite decide_True in Hrun. }
  assert (Forall (λ x, x = 0) (vertex_labels_ g)) as Hall.
  { rewrite Hzero. by apply Forall_replicate. }
  apply evenly_distribute_labels_spec in Hrun
    as (_ & Hbelow & Hc & H0); [| done | done |].
  2:{ unfold labels_below. eapply List.Forall_impl; [|exact Hall].
      simpl. intros a ->. lia. }
  pose proof (Z.div_mod (n_ g) (l_ g) Hl) as Hdiv.
  split; [|split].
  - intros c Hc1. specialize (Hc c Hc1).
    rewrite (occurrences_all_zero c _ Hall), decide_False in Hc by lia.
    lia.
  - rewrite (occurrences_all_zero 0 _ Hall), decide_True in H0 by done.
    rewrite Hzero, length_replicate, Z2Nat.id in H0 by lia. lia.
  - intros c Hc1. by eapply occurrences_outside.
Qed.

Lemma adjacent_same_adjacency g g' u v :
  adjacency_list_ g' = adjacency_list_ g → adjacent g' u v = adjacent g u v.
Proof. unfold adjacent. by intros ->. Qed.

(** X12. [evenly_distribute_labels] on a well-formed graph, when it
    returns, has written labels only: the counts of vertices, labels and
    edges and the adjacency sets are as before, there is still one label
    per vertex, every label is below [l], and so the graph is well-formed
    again. *)
Theorem evenly_distribute_labels_keeps_wf fuel g r g' r' :
  wf g →
  evenly_distribute_labels fuel g r = Done (g', r') →
  same_but_labels g g' ∧ wf g'.
Proof.
  intros Hwf Hrun. destruct Hwf as [Hn Hl Hal Hll Hlab Har Hirr Hsym].
  apply evenly_distribute_labels_spec in Hrun
    as (Hsame & Hbelow & _); [| done | lia | by apply labels_below_lookup].
  split; [done|]. destruct Hsame as (En & El & Em & Eadj & Elen).
  split.
  - by rewrite En.
  - by rewrite El.
  - by rewrite Eadj, En.
  - by rewrite Elen, En.
  - rewrite El. by apply labels_below_lookup.
  - intros u v. rewrite (adjacent_same_adjacency g g') by done.
    rewrite En. apply Har.
  - intros u. rewrite (adjacent_same_adjacency g g') by done. apply Hirr.
  - intros u v. rewrite !(adjacent_same_adjacency g g') by done. apply Hsym.
Qed.

(** ** The rounds of the loop over the deficient labels *)

(** More rounds than the lowest label of the mask has labels below it:
    after label 0 was served the shift count is [2^32 - 1]. *)
Lemma label_loop_runs_out (k : nat) : ∀ it v vbit defs l st,
  lowest_set_bit defs l → l < Z.of_nat k →
  label_loop k it v vbit defs st = None.
Proof.
  induction k as [|k IH]; intros it v vbit defs l st Hlow Hk;
    [destruct Hlow; lia|].
  destruct (decide (l = 0)) as [->|Hl0].
  - apply label_loop_bit0_undefined. by destruct Hlow as (_ & ? & _).
  - cbn [label_loop]. rewrite (ffs_lowest defs l Hlow).
    pose proof Hlow as (Hl & _).
    replace (wrap32 (l + 1 - 1)) with l
      by (unfold wrap32; rewrite Z.mod_small; lia).
    destruct (find_mate it v vbit l st) as [st1|]; [|done].
    cbn [mbind option_bind].
    replace (wrap32 (l - 1)) with (l - 1)
      by (unfold wrap32; rewrite Z.mod_small; lia).
    rewrite shl32_1_pow2 by lia. cbn [mbind option_bind].
    apply (IH _ _ _ _ (l - 1));
      [apply lowest_set_bit_toggle; [done | lia] | lia].
Qed.

(** X13. The loop over the deficient labels of a pool vertex, run for [k]
    rounds (the code takes the number of set bits) on a mask whose lowest
    set bit is [l]: the rounds search a mate for the labels [l], [l - 1],
    ..., one per round, whatever the other bits of the mask; with more
    than [l] rounds the computation is undefined (after the round of label
    0 the shift count is [2^32 - 1]). *)
Theorem label_loop_serves_downwards (k it : nat) (v vbit defs l : Z)
    (st : greedy_state) :
  lowest_set_bit defs l →
  label_loop k it v vbit defs st =
  if decide (Z.of_nat k ≤ l)
  then foldlM (λ st l', find_mate it v vbit l' st) st (descending l k)
  else None.
Proof.
  intros Hlow. destruct (decide (Z.of_nat k ≤ l)) as [Hk|Hk].
  - by apply label_loop_descends.
  - apply (label_loop_runs_out k _ _ _ _ l); [done | lia].
Qed.

(** ** Construction *)

Lemma adjacent_replicate n l m (labels : list Z) u v :
  adjacent (mkGraph n l m (replicate (Z.to_nat n) ∅) labels) u v = false.
Proof.
  unfold adjacent, at_. simpl.
  destruct (decide (0 ≤ u)); [|done].
  destruct (replicate (Z.to_nat n) ∅ !! Z.to_nat u) as [s|] eqn:E; [|done].
  apply lookup_replicate in E as [-> _].
  apply bool_decide_eq_false. set_solver.
Qed.

(** X14. [init] on an object whose vectors are empty, with a vertex count
    and a positive label count that fit 32 bits, gives a well-formed
    graph: one adjacency set and one label per vertex, every label (0)
    below [l_], no edge, and [m_ = 0]. *)
Theorem init_wf (n l m : Z) :
  0 ≤ n < 2 ^ 32 → 0 < l < 2 ^ 32 →
  wf (init (mkGraph n l m [] [])) ∧
  m_ (init (mkGraph n l m [] [])) = 0 ∧
  (∀ u v, adjacent (init (mkGraph n l m [] [])) u v = false) ∧
  vertex_labels_ (init (mkGraph n l m [] [])) = replicate (Z.to_nat n) 0.
Proof.
  intros Hn Hl. unfold init. cbn [n_ l_ adjacency_list_ vertex_labels_ app].
  split; [|split; [done|]; split; [|done]].
  - split; cbn [n_ l_ adjacency_list_ vertex_labels_].
    + done.
    + lia.
    + apply length_replicate.
    + apply length_replicate.
    + intros i x [-> _]%lookup_replicate. lia.
    + intros u v. by rewrite adjacent_replicate.
    + intros u. apply adjacent_replicate.
    + intros u v. by rewrite !adjacent_replicate.
  - intros u v. apply adjacent_replicate.
Qed.

(** ** The constructor from a file: a file without text *)

(** A round of the loop over the vertices on a stream that has failed and
    an empty [line] changes nothing. *)
Lemma read_vertex_failed v0 g buf eof u old :
  at_ (vertex_labels_ g) u = Some old →
  read_vertex v0 (g, mk_istream buf eof true, []) u =
  Done (g, mk_istream buf eof true, []).
Proof.
  intros Hold. unfold read_vertex, getline.
  cbn [eofbit failbit buffer]. rewrite orb_true_r.
  unfold istringstream. rewrite Hold, extract_uint32_end.
  apply at_Some in Hold as [Hu Hold].
  rewrite list_insert_id by done.
  assert (set_labels g (vertex_labels_ g) = g) as -> by by destruct g.
  reflexivity.
Qed.

Lemma read_vertices_failed v0 buf eof us : ∀ g,
  (∀ u, u ∈ us → is_Some (at_ (vertex_labels_ g) u)) →
  read_vertices v0 (g, mk_istream buf eof true, []) us =
  Done (g, mk_istream buf eof true, []).
Proof.
  induction us as [|u us IH]; intros g Hus; [done|].
  cbn [read_vertices].
  destruct (Hus u) as [old Hold]; [left|].
  rewrite (read_vertex_failed _ _ _ _ _ _ Hold).
  apply IH. intros u' Hu'. apply Hus. by right.
Qed.

(** X15. A file that cannot be opened, or that is empty: nothing is read,
    so the vertex count and the label count are what the members held
    before.  The error message is written when that count is 0; otherwise
    the constructor builds the graph of that many vertices, all with label
    0, without an edge, and writes no message. *)
Theorem from_file_without_text (filename : text) (contents : option text)
    (n0 l0 m0 v0 : Z) :
  contents = None ∨ contents = Some [] →
  0 ≤ n0 →
  ∃ c,
    LabelledGraph_from_file filename contents n0 l0 m0 v0 = Done c ∧
    n_ (graph c) = n0 ∧ l_ (graph c) = l0 ∧
    adjacency_list_ (graph c) = replicate (Z.to_nat n0) ∅ ∧
    vertex_labels_ (graph c) = replicate (Z.to_nat n0) 0 ∧
    cerr c = (if decide (n0 = 0) then parse_error_message else []).
Proof.
  intros Hcontents Hn0.
  assert (∃ eof, getline (open_file contents) [] =
                 (mk_istream [] eof true, [])) as [eof Hget].
  { destruct Hcontents as [-> | ->]; [by exists false | by exists true]. }
  unfold LabelledGraph_from_file. rewrite Hget.
  unfold istringstream. rewrite extract_uint32_end.
  change (extract_uint32 (mk_istream [] true true) l0)
    with (mk_istream [] true true, l0).
  cbv iota beta.
  destruct (decide (n0 ≤ 0)) as [Hle|Hgt].
  - assert (n0 = 0) as -> by lia. rewrite decide_True by done.
    eexists. split; [done|]. by repeat split.
  - rewrite decide_False by lia.
    rewrite read_vertices_failed.
    + eexists. split; [done|]. by repeat split.
    + intros u Hu%elem_of_seqZ_0. apply at_is_Some.
      simpl. rewrite length_replicate. lia.
Qed.

(** ** The constructor from a file: what follows the lines it needs *)

Section RestOfFile.

Variable iteration_order : gset Z → list Z.
Hypothesis iteration_order_elem : ∀ s x, x ∈ iteration_order s ↔ x ∈ s.

(** X16. The constructor reads the first line and one line per vertex and
    no more: run on the text that [print] writes for a well-formed graph,
    followed by any text, it gives back the vertex count, the label count,
    the labels and the adjacency sets, and leaves the text that follows
    unread.  For the graph without a vertex this is so too, but then the
    error message is written. *)
Theorem print_from_file_rest (g : LabelledGraph) (filename tail : text)
    (n0 l0 m0 v0 : Z) :
  wf g →
  ∃ t c,
    print iteration_order g = Some t ∧
    LabelledGraph_from_file filename (Some (t ++ tail)) n0 l0 m0 v0 = Done c ∧
    n_ (graph c) = n_ g ∧ l_ (graph c) = l_ g ∧
    vertex_labels_ (graph c) = vertex_labels_ g ∧
    adjacency_list_ (graph c) = adjacency_list_ g ∧
    infile c = mk_istream tail false false ∧
    cerr c = (if decide (n_ g = 0) then parse_error_message else []).
Proof.
  intros Hwf. pose proof (wf_n g Hwf) as Hn. pose proof (wf_l g Hwf) as Hl.
  set (body := seqZ 0 (n_ g)
                 ≫= λ i, vertex_text iteration_order g i ++ [newline]).
  set (header := show_uint32 (n_ g) ++ blank :: show_uint32 (l_ g)).
  exists (header ++ newline :: body).
  assert (print iteration_order g = Some (header ++ newline :: body)) as ->.
  { unfold print.
    rewrite (print_vertices iteration_order iteration_order_elem g Hwf)
      by (intros i; apply elem_of_seqZ_0).
    f_equal. unfold header. by rewrite <- !app_assoc. }
  unfold LabelledGraph_from_file, open_file.
  rewrite <- app_assoc, <- app_comm_cons.
  rewrite getline_app.
  2:{ apply Forall_app. split; [apply show_uint32_no_newline|].
      constructor; [done | apply show_uint32_no_newline]. }
  unfold istringstream, header.
  rewrite extract_uint32_show by (eauto || unfold UINT32_MAX; lia).
  rewrite bool_decide_eq_false_2 by done.
  rewrite extract_uint32_blank.
  rewrite <- (app_nil_r (show_uint32 (l_ g))).
  rewrite extract_uint32_show by (eauto || unfold UINT32_MAX; lia).
  destruct (decide (n_ g ≤ 0)) as [Hle|Hgt].
  - assert (n_ g = 0) as Hn0 by lia. rewrite decide_True by done.
    eexists. split; [done|]. split; [done|]. simpl.
    pose proof (wf_labels_length g Hwf) as Hlab.
    pose proof (wf_adj_length g Hwf) as Hadj.
    rewrite Hn0 in Hlab, Hadj.
    apply nil_length_inv in Hlab. apply nil_length_inv in Hadj.
    unfold body. rewrite Hn0. by rewrite Hlab, Hadj.
  - rewrite decide_False by lia.
    destruct (read_vertices_lines iteration_order iteration_order_elem g Hwf
                v0 (Z.to_nat (n_ g)) 0
                (init (mkGraph (n_ g) (l_ g) m0 [] []))
                (show_uint32 (n_ g) ++ blank :: show_uint32 (l_ g) ++ [])
                tail)
      as (gc' & line' & Hrun & Hrd);
      [by apply (read_up_to_init iteration_order) | lia | lia |].
    rewrite Z2Nat.id in Hrun by lia. fold body in Hrun.
    rewrite Hrun. eexists. split; [done|]. simpl.
    destruct (read_up_to_all g Hwf gc' Hrd) as (? & ? & ? & ?).
    by repeat split.
Qed.

End RestOfFile.

(** ** The constructor from a file: a file that ends early *)

Lemma read_vertices_app v0 us vs : ∀ st,
  read_vertices v0 st (us ++ vs) =
  match read_vertices v0 st us with
  | Done st' => read_vertices v0 st' vs
  | Undefined => Undefined
  | OutOfFuel => OutOfFuel
  end.
Proof.
  induction us as [|u us IH]; intros st; [done|].
  cbn [app read_vertices]. by destruct (read_vertex v0 st u).
Qed.

Lemma neighbours_loop_labels fuel : ∀ iss v u g g',
  neighbours_loop fuel iss v u g = Done g' →
  vertex_labels_ g' = vertex_labels_ g.
Proof.
  induction fuel as [|fuel IH]; intros iss v u g g'; cbn [neighbours_loop];
    [done|].
  destruct (extract_uint32 iss v) as [iss' v'].
  destruct (failbit iss'); [by intros [= <-]|].
  destruct (add_edge u v' g) as [[ok g1]|] eqn:Hadd; [|done].
  intros Hrun%IH. rewrite Hrun.
  by destruct (add_edge_extends _ _ _ _ _ Hadd).
Qed.

(** The round of vertex [u] writes the label of [u] only. *)
Lemma read_vertex_labels v0 st u st' :
  read_vertex v0 st u = Done st' →
  ∀ j, j ≠ Z.to_nat u →
    vertex_labels_ st'.1.1 !! j = vertex_labels_ st.1.1 !! j.
Proof.
  destruct st as [[g ins] line]. unfold read_vertex.
  destruct (getline ins line) as [ins1 line1].
  destruct (at_ (vertex_labels_ g) u) as [old|]; [|done].
  destruct (extract_uint32 (istringstream line1) old) as [iss label].
  destruct (neighbours_loop _ _ _ _ _) as [g1| |] eqn:Hloop; try done.
  intros [= <-] j Hj. cbn [fst].
  rewrite (neighbours_loop_labels _ _ _ _ _ _ Hloop). simpl.
  by apply list_lookup_insert_ne.
Qed.

Lemma read_vertices_labels v0 us : ∀ st st',
  read_vertices v0 st us = Done st' →
  ∀ j, (∀ u, u ∈ us → j ≠ Z.to_nat u) →
    vertex_labels_ st'.1.1 !! j = vertex_labels_ st.1.1 !! j.
Proof.
  induction us as [|u us IH]; intros st st'; cbn [read_vertices].
  { by intros [= <-]. }
  destruct (read_vertex v0 st u) as [st1| |] eqn:Hu; try done.
  intros Hrun j Hj. rewrite (IH _ _ Hrun) by (intros; apply Hj; by right).
  apply (read_vertex_labels _ _ _ _ Hu), Hj. by left.
Qed.

(** A round on a stream that is at its end, but has not failed yet. *)
Lemma read_vertex_at_end v0 g line u old :
  at_ (vertex_labels_ g) u = Some old →
  read_vertex v0 (g, mk_istream [] false false, line) u =
  Done (g, mk_istream [] true true, []).
Proof.
  intros Hold. unfold read_vertex, getline.
  cbn [eofbit failbit buffer orb split_line].
  unfold istringstream. rewrite Hold, extract_uint32_end.
  apply at_Some in Hold as [Hu Hold].
  rewrite list_insert_id by done.
  assert (set_labels g (vertex_labels_ g) = g) as -> by by destruct g.
  reflexivity.
Qed.

Lemma read_vertices_at_end v0 us g line :
  (∀ u, u ∈ us → is_Some (at_ (vertex_labels_ g) u)) →
  ∃ ins' line',
    read_vertices v0 (g, mk_istream [] false false, line) us =
    Done (g, ins', line').
Proof.
  destruct us as [|u us]; intros Hus; [by eexists _, _|].
  cbn [read_vertices]. destruct (Hus u) as [old Hold]; [left|].
  rewrite (read_vertex_at_end _ _ _ _ _ Hold).
  rewrite read_vertices_failed by (intros u' Hu'; apply Hus; by right).
  by eexists _, _.
Qed.

Section FileEndsEarly.

Variable iteration_order : gset Z → list Z.
Hypothesis iteration_order_elem : ∀ s x, x ∈ iteration_order s ↔ x ∈ s.

Variable g : LabelledGraph.
Hypothesis Hwf : wf g.

Lemma read_vertices_first_lines v0 (m : nat) : ∀ u gc line tail,
  read_up_to g u gc → 0 ≤ u → u + Z.of_nat m ≤ n_ g →
  ∃ gc' line',
    read_vertices v0
      (gc, mk_istream
             ((seqZ u (Z.of_nat m)
                 ≫= λ i, vertex_text iteration_order g i ++ [newline])
              ++ tail) false false, line)
      (seqZ u (Z.of_nat m))
    = Done (gc', mk_istream tail false false, line') ∧
    read_up_to g (u + Z.of_nat m) gc'.
Proof.
  induction m as [|m IH]; intros u gc line tail Hrd Hu Hm.
  - simpl in *. exists gc, line. split; [done|]. by rewrite Z.add_0_r.
  - rewrite seqZ_cons by lia.
    replace (Z.pred (Z.of_nat (S m))) with (Z.of_nat m) by lia.
    cbn [mbind list_bind read_vertices]. rewrite <- !app_assoc.
    cbn [app].
    destruct (read_vertex_line iteration_order iteration_order_elem g Hwf
                v0 u gc
                ((seqZ (Z.succ u) (Z.of_nat m)
                    ≫= λ i, vertex_text iteration_order g i ++ [newline])
                 ++ tail) line Hrd ltac:(lia)) as (gc1 & -> & Hrd1).
    replace (u + Z.of_nat (S m)) with (Z.succ u + Z.of_nat m) by lia.
    apply IH; [done | lia | lia].
Qed.

(** X17. A file that ends early is accepted without a message: run on the
    first line that [print] writes for a well-formed graph with a vertex
    and the lines of the vertices below [k] only, the constructor gives
    the graph with all the vertices, the labels of the vertices below [k],
    label 0 for the others, and those edges of the graph that have an end
    below [k]. *)
Theorem from_file_ends_early (filename : text) (n0 l0 m0 v0 k : Z) :
  0 < n_ g → 0 ≤ k ≤ n_ g →
  print iteration_order g = Some (print_lines iteration_order g (n_ g)) ∧
  ∃ c,
    LabelledGraph_from_file filename
      (Some (print_lines iteration_order g k)) n0 l0 m0 v0 = Done c ∧
    cerr c = [] ∧
    n_ (graph c) = n_ g ∧ l_ (graph c) = l_ g ∧
    length (vertex_labels_ (graph c)) = Z.to_nat (n_ g) ∧
    (∀ i, 0 ≤ i < k →
       at_ (vertex_labels_ (graph c)) i = at_ (vertex_labels_ g) i) ∧
    (∀ i, k ≤ i < n_ g → at_ (vertex_labels_ (graph c)) i = Some 0) ∧
    (∀ w x, adjacent (graph c) w x = true ↔
            adjacent g w x = true ∧ (w < k ∨ x < k)).
Proof.
  intros Hpos Hk. pose proof (wf_n g Hwf) as Hn. pose proof (wf_l g Hwf) as Hl.
  split.
  { unfold print, print_lines.
    rewrite (print_vertices iteration_order iteration_order_elem g Hwf)
      by (intros i; apply elem_of_seqZ_0).
    by rewrite <- !app_assoc. }
  unfold print_lines.
  set (body := seqZ 0 k
                 ≫= λ i, vertex_text iteration_order g i ++ [newline]).
  unfold LabelledGraph_from_file, open_file.
  replace (show_uint32 (n_ g) ++ [blank] ++ show_uint32 (l_ g) ++
           [newline] ++ body)
    with ((show_uint32 (n_ g) ++ blank :: show_uint32 (l_ g))
          ++ newline :: body) by (by rewrite <- !app_assoc).
  rewrite getline_app.
  2:{ apply Forall_app. split; [apply show_uint32_no_newline|].
      constructor; [done | apply show_uint32_no_newline]. }
  unfold istringstream.
  rewrite extract_uint32_show by (eauto || unfold UINT32_MAX; lia).
  rewrite bool_decide_eq_false_2 by done.
  rewrite extract_uint32_blank.
  rewrite <- (app_nil_r (show_uint32 (l_ g))).
  rewrite extract_uint32_show by (eauto || unfold UINT32_MAX; lia).
  rewrite decide_False by lia.
  assert (seqZ 0 (n_ g) = seqZ 0 k ++ seqZ k (n_ g - k)) as ->.
  { rewrite <- (Z.add_0_l k) at 2. rewrite <- seqZ_app by lia.
    f_equal. lia. }
  rewrite read_vertices_app.
  destruct (read_vertices_first_lines v0 (Z.to_nat k) 0
              (init (mkGraph (n_ g) (l_ g) m0 [] []))
              (show_uint32 (n_ g) ++ blank :: show_uint32 (l_ g) ++ []) [])
    as (gc' & line' & Hrun & Hrd);
    [by apply (read_up_to_init iteration_order) | lia | lia |].
  rewrite Z2Nat.id, app_nil_r in Hrun by lia.
  rewrite Z2Nat.id, Z.add_0_l in Hrd by lia.
  fold body in Hrun. rewrite Hrun.
  pose proof (read_vertices_labels _ _ _ _ Hrun) as Hframe. cbn [fst] in Hframe.
  destruct Hrd as [En El Eadj Elab Hlabels Hedges].
  pose proof (wf_labels_length g Hwf) as Hlen.
  destruct (read_vertices_at_end v0 (seqZ k (n_ g - k)) gc' line')
    as (ins' & line'' & ->).
  { intros u Hu%elem_of_seqZ. apply at_is_Some. lia. }
  eexists. split; [done|]. simpl.
  split; [done|]. split; [done|]. split; [done|].
  split; [by rewrite Elab|]. split; [done|]. split; [|done].
  intros i Hi. unfold at_. rewrite decide_True by lia.
  rewrite Hframe by (intros u Hu%elem_of_seqZ; lia).
  simpl. apply lookup_replicate. split; [done | lia].
Qed.

End FileEndsEarly.

(** ** Label assignment without a vertex of label 0 *)

Lemma assign_loop_no_zero fuel cur vpl g : ∀ num r,
  0 ≤ num < vpl → vpl < 2 ^ 32 → 0 < n_ g →
  length (vertex_labels_ g) = Z.to_nat (n_ g) →
  (∀ x, x ∈ vertex_labels_ g → x ≠ 0) →
  assign_loop fuel cur num vpl g r = OutOfFuel.
Proof.
  induction fuel as [|fuel IH]; intros num r Hnum Hvpl Hn Hlen Hnz;
    cbn [assign_loop]; rewrite decide_True by lia; [done|].
  unfold rand_mod. rewrite decide_False by lia.
  destruct (rand r) as [x r1].
  pose proof (Z.mod_pos_bound x (n_ g) Hn) as Hx.
  destruct (at_is_Some (vertex_labels_ g) (x `mod` n_ g)) as [lab Hlab];
    [lia|].
  rewrite Hlab. apply at_Some in Hlab as [_ Hlab].
  apply list_elem_of_lookup_2, Hnz in Hlab.
  rewrite decide_False by done.
  rewrite wrap32_dec_inc by lia. by apply IH.
Qed.

(** X18. [evenly_distribute_labels] counts on vertices of label 0: on a
    graph with at least two labels, at least as many vertices as labels
    and no vertex of label 0 (a second call, say, after every vertex got
    another label), the first loop redraws for ever, whatever the random
    numbers: no number of rounds is enough. *)
Theorem evenly_distribute_labels_no_zero_label fuel g r :
  2 ≤ l_ g ≤ n_ g → n_ g < 2 ^ 32 →
  length (vertex_labels_ g) = Z.to_nat (n_ g) →
  (∀ x, x ∈ vertex_labels_ g → x ≠ 0) →
  evenly_distribute_labels fuel g r = OutOfFuel.
Proof.
  intros Hl Hn Hlen Hnz. unfold evenly_distribute_labels.
  rewrite decide_False by lia.
  assert (0 < n_ g / l_ g) as Hvpl by (apply Z.div_str_pos; lia).
  assert (n_ g / l_ g ≤ n_ g) as Hle
    by (apply Z.div_le_upper_bound; nia).
  rewrite seqZ_cons by lia. cbn [quota_loop].
  rewrite assign_loop_no_zero; [done | lia | lia | lia | done | done].
Qed.

(** ** Label assignment without a remainder *)

(** X20. When the number of labels divides the number of vertices,
    nothing is left for the second phase: [evenly_distribute_labels] on
    a graph whose vertices all have label 0, when it returns, has put
    every label of [0, l) on exactly [n / l] vertices. *)
Theorem evenly_distribute_labels_exact fuel g r g' r' :
  0 ≤ n_ g < 2 ^ 32 → 0 ≤ l_ g → n_ g `mod` l_ g = 0 →
  vertex_labels_ g = replicate (Z.to_nat (n_ g)) 0 →
  evenly_distribute_labels fuel g r = Done (g', r') →
  ∀ c, 0 ≤ c < l_ g → occurrences c (vertex_labels_ g') = n_ g / l_ g.
Proof.
  intros Hn Hl0 Hmod Hzero. unfold evenly_distribute_labels.
  destruct (decide (l_ g = 0)) as [|Hl]; [done|].
  assert (0 < l_ g) as Hlpos by lia.
  pose proof (Z.div_pos (n_ g) (l_ g) ltac:(lia) Hlpos) as Hvpl0.
  pose proof (Z.div_le_upper_bound (n_ g) (l_ g) (n_ g) Hlpos ltac:(nia))
    as Hvpln.
  pose proof (Z.div_mod (n_ g) (l_ g) Hl) as Hdiv.
  assert (Forall (λ x, x = 0) (vertex_labels_ g)) as Hall.
  { rewrite Hzero. by apply Forall_replicate. }
  destruct (quota_loop _ _ _ _ _ _) as [[[left g1] r1]| |] eqn:Hquota;
    try done.
  apply quota_loop_spec in Hquota
    as (_ & _ & Hleft & Hin1 & H01 & _);
    [| apply NoDup_seqZ
     | intros c Hc%elem_of_seqZ; lia
     | lia
     | by rewrite wrap32_idemp
     | ].
  2:{ unfold labels_below. eapply List.Forall_impl; [|exact Hall].
      simpl. intros a ->. lia. }
  rewrite length_seqZ in Hleft, H01.
  rewrite Z2Nat.id in Hleft, H01 by lia.
  assert (left = 0) as ->.
  { rewrite Hleft. unfold wrap32. rewrite Zminus_mod_idemp_l.
    replace (n_ g - n_ g / l_ g - (l_ g - 1) * (n_ g / l_ g)) with 0 by lia.
    done. }
  rewrite decide_False by lia. intros [= <- <-] c Hc.
  destruct (decide (c = 0)) as [->|Hc0].
  - rewrite H01, (occurrences_all_zero 0 _ Hall), decide_True by done.
    rewrite Hzero, length_replicate, Z2Nat.id by lia. lia.
  - rewrite Hin1 by (apply elem_of_seqZ; lia).
    rewrite (occurrences_all_zero c _ Hall), decide_False by done. lia.
Qed.

(** ** The label masks of a greedy iteration *)

(** Every entry that the loop over the pool visits has a label that can
    be shifted. *)
Lemma visit_loop_shifts k : ∀ it vo g num st',
  num = wrap32 num →
  visit_loop k it (vo, g, num) = Some st' →
  ∀ j v, (it ≤ j < it + k)%nat → vo.*1 !! j = Some v →
    ∃ lv, at_ (vertex_labels_ g) v = Some lv ∧ 0 ≤ lv < 32.
Proof.
  induction k as [|k IH]; intros it vo g num st' Hnum; simpl; [lia|].
  destruct (vo !! it) as [[v0 defs]|] eqn:Hv; simpl; [|done].
  destruct (at_ (vertex_labels_ g) v0) as [lv|] eqn:Hlv; simpl; [|done].
  destruct (shl32 1 lv) as [vbit|] eqn:Hshl; simpl; [|done].
  destruct (label_loop _ it v0 vbit defs (vo, g, num))
    as [[[vo1 g1] num1]|] eqn:E; simpl; [|done].
  pose proof (label_loop_extends _ _ _ _ _ _ _ E) as Hext.
  apply label_loop_added in E as (Hids1 & j1 & _ & Hnum1); [|done].
  simpl in *. intros Hrun j v Hj Hjv.
  destruct (decide (j = it)) as [->|Hne].
  - unfold visit_record in *. rewrite list_lookup_fmap, Hv in Hjv.
    injection Hjv as <-. exists lv. split; [done|].
    unfold shl32 in Hshl. by destruct (decide (0 ≤ lv < 32)).
  - rewrite <- (ext_labels _ _ Hext).
    assert (num1 = wrap32 num1) as Hn1 by (by rewrite Hnum1, wrap32_idemp).
    apply (IH (S it) vo1 g1 num1 st' Hn1 Hrun j v); [lia | by rewrite Hids1].
Qed.

Section LabelMasks.

Variable get_deficiencies : LabelDistribution → LabelDistribution → Q → Z.

(** X19. The mask of a label is [1 << label] in 32 bits: a call of
    [run_greedy_iteration] is defined only when every vertex of the pool
    (every vertex whose deficiency mask is not 0) has a label below 32. *)
Theorem run_greedy_iteration_labels_below_32 alpha g r num g' r' :
  run_greedy_iteration get_deficiencies alpha g r = Some (num, g', r') →
  ∀ v global nb,
    0 ≤ v < n_ g → get_global_ld g = Some global →
    get_neighbourhood_ld g v = Some nb →
    0 < wrap32 (get_deficiencies nb global alpha) →
    ∃ lv, at_ (vertex_labels_ g) v = Some lv ∧ 0 ≤ lv < 32.
Proof.
  unfold run_greedy_iteration.
  destruct (get_global_ld g) as [global|] eqn:Hglobal; simpl; [|done].
  destruct (build_visit_order _ alpha g global) as [pool|] eqn:Hpool;
    simpl; [|done].
  destruct (random_shuffle pool r) as [vo r1] eqn:Hsh.
  destruct (visit_loop _ 0 (vo, g, 0)) as [[[vo' g1] num1]|] eqn:E;
    simpl; [|done].
  intros _ v global' nb Hv [= <-] Hnb Hpos.
  assert (v ∈ pool.*1) as Hin.
  { apply (build_visit_order_spec _ _ _ _ _ Hpool). eauto. }
  assert (v ∈ vo.*1) as Hin'.
  { apply list_elem_of_fmap in Hin as ([x m] & -> & Hxm).
    apply list_elem_of_fmap. exists (x, m). split; [done|].
    replace vo with (random_shuffle pool r).1 by (by rewrite Hsh).
    by apply elem_of_random_shuffle. }
  apply list_elem_of_lookup_1 in Hin' as [j Hj].
  pose proof (lookup_lt_Some _ _ _ Hj) as Hlt. rewrite length_fmap in Hlt.
  apply (visit_loop_shifts _ _ _ _ _ _ eq_refl E j v); [|done].
  unfold visit_record in *. lia.
Qed.

End LabelMasks.

(** ** Instances of the further properties *)

(** The total-variation distance of a distribution to itself is 0. *)
Lemma LabelDistribution_distance_self a :
  (LabelDistribution_distance a a == 0)%Q.
Proof.
  unfold LabelDistribution_distance.
  assert (∀ f (b : list Z),
            (foldr Qplus 0 (zip_with (λ x y, Qabs (f x - f y)) b b) == 0)%Q)
    as Hsum.
  { intros f b. induction b as [|x b IH]; cbn [zip_with foldr]; [reflexivity|].
    rewrite IH. assert (f x - f x == 0)%Q as -> by ring. reflexivity. }
  rewrite Hsum. reflexivity.
Qed.

(** X1 on [clique_and_loner]. *)
Lemma get_global_ld_defined_iff_witness :
  is_Some (get_global_ld clique_and_loner) ∧
  Forall (λ x, 0 ≤ x < l_ clique_and_loner) (vertex_labels_ clique_and_loner).
Proof.
  assert (is_Some (get_global_ld clique_and_loner)) as Hdefined
    by (vm_compute; eexists; reflexivity).
  split; [done|]. apply list.Forall_forall.
  exact (proj1 (get_global_ld_defined_iff clique_and_loner) Hdefined).
Defined.

(** X2 on [clique_and_loner] and its vertex 0. *)
Lemma distributions_population_witness :
  (population [0; 4; 1] = 5 ∧ length [0; 4; 1] = 3%nat) ∧
  (population [0; 3; 1] = Z.of_nat (size ({[1; 2; 4]} : gset Z)) + 1 ∧
   length [0; 3; 1] = Z.to_nat (l_ clique_and_loner)).
Proof.
  split.
  - apply (proj1 (distributions_population clique_and_loner));
      [vm_compute; reflexivity | simpl; lia].
  - apply (proj2 (distributions_population clique_and_loner) 0 {[1; 2; 4]});
      [vm_compute; reflexivity | vm_compute; reflexivity
      | vm_compute; reflexivity].
Defined.

(** X3 on vertex 0 of [clique_and_loner], the neighbours taken in the
    order 4, 1, 2. *)
Lemma get_neighbourhood_ld_any_order_witness :
  get_neighbourhood_ld_in_order clique_and_loner 0 [4; 1; 2] =
  get_neighbourhood_ld clique_and_loner 0.
Proof.
  apply (get_neighbourhood_ld_any_order clique_and_loner 0 {[1; 2; 4]});
    [vm_compute; reflexivity|].
  vm_compute. apply perm_skip, perm_swap.
Defined.

(** X4 on [clique_and_loner] with the total-variation distance. *)
Lemma is_alpha_proximal_threshold_witness :
  ∃ M, (0 <= M)%Q ∧
    (∀ alpha, is_alpha_proximal LabelDistribution_distance alpha
                clique_and_loner = Some (Qle_bool M alpha)) ∧
    (∀ alpha alpha',
       is_alpha_proximal LabelDistribution_distance alpha clique_and_loner
         = Some true →
       (alpha <= alpha')%Q →
       is_alpha_proximal LabelDistribution_distance alpha' clique_and_loner
         = Some true) ∧
    (∀ alpha, (alpha < 0)%Q →
       is_alpha_proximal LabelDistribution_distance alpha clique_and_loner
         = Some false).
Proof.
  apply (is_alpha_proximal_threshold LabelDistribution_distance (1 # 4)
           clique_and_loner true).
  vm_compute. reflexivity.
Defined.

(** X5 on [triangle]. *)
Lemma is_alpha_proximal_complete_witness :
  (∀ v global, 0 ≤ v < n_ triangle → get_global_ld triangle = Some global →
     get_neighbourhood_ld triangle v = Some global) ∧
  is_alpha_proximal LabelDistribution_distance (1 # 10) triangle = Some true.
Proof.
  apply (is_alpha_proximal_complete LabelDistribution_distance (1 # 10)
           triangle LabelDistribution_distance_self).
  - apply wf_check_sound. vm_compute. reflexivity.
  - vm_compute. reflexivity.
  - vm_compute. discriminate.
Defined.

(** X6 on a run of [greedy] over [three_loners]. *)
Lemma strategies_keep_wf_witness :
  ∃ g' r',
    greedy LabelDistribution_distance LabelDistribution_get_deficiencies
      10 (1 # 10) three_loners (rng_of [1; 2]) = Done (g', r') ∧
    wf g'.
Proof.
  eexists _, _. split; [vm_compute; reflexivity|].
  eapply (strategies_keep_wf LabelDistribution_distance
            LabelDistribution_get_deficiencies (1 # 10) three_loners
            (rng_of [1; 2]) 10).
  - apply wf_check_sound. vm_compute. reflexivity.
  - right. left. vm_compute. reflexivity.
Defined.

(** X7 on a run of [hopeful] over [three_loners]. *)
Lemma strategies_end_proximal_witness :
  ∃ g' r',
    hopeful LabelDistribution_distance 10 (1 # 10) three_loners
      (rng_of [1; 2]) = Done (g', r') ∧
    is_alpha_proximal LabelDistribution_distance (1 # 10) g' = Some true.
Proof.
  eexists _, _. split; [vm_compute; reflexivity|].
  eapply (strategies_end_proximal LabelDistribution_distance
            LabelDistribution_get_deficiencies (1 # 10) three_loners
            (rng_of [1; 2]) 10 _ _ LabelDistribution_distance_self).
  - vm_compute. discriminate.
  - apply wf_check_sound. vm_compute. reflexivity.
  - left. vm_compute. reflexivity.
Defined.

(** X8 on a run of [greedy] over [three_loners]. *)
Lemma strategies_idempotent_witness :
  ∃ g' r',
    greedy LabelDistribution_distance LabelDistribution_get_deficiencies
      10 (1 # 10) three_loners (rng_of [1; 2]) = Done (g', r') ∧
    ∀ fuel',
      hopeful LabelDistribution_distance fuel' (1 # 10) g' r'
        = Done (g', r') ∧
      greedy LabelDistribution_distance LabelDistribution_get_deficiencies
        fuel' (1 # 10) g' r' = Done (g', r').
Proof.
  eexists _, _. split; [vm_compute; reflexivity|].
  eapply (strategies_idempotent LabelDistribution_distance
            LabelDistribution_get_deficiencies (1 # 10) three_loners
            (rng_of [1; 2]) 10).
  - apply wf_check_sound. vm_compute. reflexivity.
  - right. vm_compute. reflexivity.
Defined.

(** X9 on [clique_and_pair]: the iteration joins the vertices 4 and 5. *)
Lemma run_greedy_iteration_pool_edges_witness :
  ∃ g' r',
    run_greedy_iteration LabelDistribution_get_deficiencies (1 # 10)
      clique_and_pair (rng_of []) = Some (1, g', r') ∧
    ∃ global j,
      get_global_ld clique_and_pair = Some global ∧
      edges_added
        (λ x, 0 ≤ x < n_ clique_and_pair ∧ ∃ nb,
           get_neighbourhood_ld clique_and_pair x = Some nb ∧
           0 < wrap32 (LabelDistribution_get_deficiencies nb global (1 # 10)))
        clique_and_pair g' j ∧
      1 = wrap32 (Z.of_nat j) ∧
      ∀ u v, adjacent g' u v = true →
        adjacent clique_and_pair u v = true ∨
        ((∃ nb, get_neighbourhood_ld clique_and_pair u = Some nb ∧
                0 < wrap32 (LabelDistribution_get_deficiencies nb global
                              (1 # 10))) ∧
         (∃ nb, get_neighbourhood_ld clique_and_pair v = Some nb ∧
                0 < wrap32 (LabelDistribution_get_deficiencies nb global
                              (1 # 10)))).
Proof.
  eexists _, _. split; [vm_compute; reflexivity|].
  eapply (run_greedy_iteration_pool_edges LabelDistribution_get_deficiencies
            (1 # 10) clique_and_pair (rng_of []) 1).
  vm_compute. reflexivity.
Defined.

(** X10 on [triangle], where no vertex has a deficient label. *)
Lemma run_greedy_iteration_empty_pool_witness :
  ∃ g' r',
    run_greedy_iteration LabelDistribution_get_deficiencies (1 # 10)
      triangle (rng_of [1; 2]) = Some (0, g', r') ∧
    0 = 0 ∧ g' = triangle ∧ r' = rng_of [1; 2].
Proof.
  eexists _, _. split; [vm_compute; reflexivity|].
  eapply (run_greedy_iteration_empty_pool LabelDistribution_get_deficiencies
            (1 # 10) triangle (rng_of [1; 2]) 0).
  - vm_compute. reflexivity.
  - intros v nb global Hv Hglobal Hnb.
    change (0 ≤ v < 3) in Hv.
    assert (v = 0 ∨ v = 1 ∨ v = 2) as [->|[->| ->]] by lia;
      vm_compute in Hglobal, Hnb; injection Hglobal as <-;
      injection Hnb as <-; vm_compute; reflexivity.
Defined.

(** X11 on five vertices and three labels: the draws give the labels
    1, 2, 1, 2, 0. *)
Lemma evenly_distribute_labels_balance_witness :
  ∃ g' r',
    evenly_distribute_labels 10 (LabelledGraph_new 5 3)
      (rng_of [0; 1; 2; 1; 3; 2]) = Done (g', r') ∧
    vertex_labels_ g' = [1; 2; 1; 2; 0] ∧
    (∀ c, 1 ≤ c < l_ (LabelledGraph_new 5 3) →
       occurrences c (vertex_labels_ g') =
         n_ (LabelledGraph_new 5 3) / l_ (LabelledGraph_new 5 3) ∨
       occurrences c (vertex_labels_ g') =
         n_ (LabelledGraph_new 5 3) / l_ (LabelledGraph_new 5 3) + 1) ∧
    n_ (LabelledGraph_new 5 3) / l_ (LabelledGraph_new 5 3)
      ≤ occurrences 0 (vertex_labels_ g')
      ≤ n_ (LabelledGraph_new 5 3) / l_ (LabelledGraph_new 5 3)
        + n_ (LabelledGraph_new 5 3) `mod` l_ (LabelledGraph_new 5 3) ∧
    (∀ c, ¬ 0 ≤ c < l_ (LabelledGraph_new 5 3) →
       occurrences c (vertex_labels_ g') = 0).
Proof.
  eexists _, _. split; [vm_compute; reflexivity|].
  split; [vm_compute; reflexivity|].
  eapply (evenly_distribute_labels_balance 10 (LabelledGraph_new 5 3)
            (rng_of [0; 1; 2; 1; 3; 2])).
  - simpl. lia.
  - simpl. lia.
  - reflexivity.
  - vm_compute. reflexivity.
Defined.

(** X12 on the same run. *)
Lemma evenly_distribute_labels_keeps_wf_witness :
  ∃ g' r',
    evenly_distribute_labels 10 (LabelledGraph_new 5 3)
      (rng_of [0; 1; 2; 1; 3; 2]) = Done (g', r') ∧
    same_but_labels (LabelledGraph_new 5 3) g' ∧ wf g'.
Proof.
  eexists _, _. split; [vm_compute; reflexivity|].
  eapply (evenly_distribute_labels_keeps_wf 10 (LabelledGraph_new 5 3)
            (rng_of [0; 1; 2; 1; 3; 2])).
  - apply wf_check_sound. vm_compute. reflexivity.
  - vm_compute. reflexivity.
Defined.

(** X13 on the mask 12, whose lowest label is 2, with two rounds. *)
Lemma label_loop_serves_downwards_witness :
  label_loop 2 0 0 2 12 ([(0, 12); (1, 10); (2, 6)], three_loners, 0) =
  if decide (Z.of_nat 2 ≤ 2)
  then foldlM (λ st l', find_mate 0 0 2 l' st)
         ([(0, 12); (1, 10); (2, 6)], three_loners, 0) (descending 2 2)
  else None.
Proof.
  apply label_loop_serves_downwards.
  split; [lia|]. split; [reflexivity|].
  intros i Hi. assert (i = 0 ∨ i = 1) as [->| ->] by lia; reflexivity.
Defined.

(** X14 on five vertices and three labels. *)
Lemma init_wf_witness :
  wf (init (mkGraph 5 3 7 [] [])) ∧
  m_ (init (mkGraph 5 3 7 [] [])) = 0 ∧
  (∀ u v, adjacent (init (mkGraph 5 3 7 [] [])) u v = false) ∧
  vertex_labels_ (init (mkGraph 5 3 7 [] [])) = replicate (Z.to_nat 5) 0.
Proof. apply init_wf; lia. Defined.

(** X15 on a file that cannot be opened, the count member holding 4. *)
Lemma from_file_without_text_witness :
  ∃ c,
    LabelledGraph_from_file (list_ascii_of_string "graph.txt") None
      4 3 9 10 = Done c ∧
    n_ (graph c) = 4 ∧ l_ (graph c) = 3 ∧
    adjacency_list_ (graph c) = replicate (Z.to_nat 4) ∅ ∧
    vertex_labels_ (graph c) = replicate (Z.to_nat 4) 0 ∧
    cerr c = (if decide (4 = 0) then parse_error_message else []).
Proof. apply from_file_without_text; [left; reflexivity | lia]. Defined.

(** X16 on the text of [clique_and_loner] followed by more text. *)
Lemma print_from_file_rest_witness :
  ∃ t c,
    print elements clique_and_loner = Some t ∧
    LabelledGraph_from_file (list_ascii_of_string "graph.txt")
      (Some (t ++ list_ascii_of_string "and more")) 7 8 9 10 = Done c ∧
    n_ (graph c) = n_ clique_and_loner ∧
    l_ (graph c) = l_ clique_and_loner ∧
    vertex_labels_ (graph c) = vertex_labels_ clique_and_loner ∧
    adjacency_list_ (graph c) = adjacency_list_ clique_and_loner ∧
    infile c = mk_istream (list_ascii_of_string "and more") false false ∧
    cerr c = (if decide (n_ clique_and_loner = 0)
              then parse_error_message else []).
Proof.
  apply (print_from_file_rest elements).
  - intros s x. apply elem_of_elements.
  - apply wf_check_sound. vm_compute. reflexivity.
Defined.

(** X17 on the first three lines of the text of [clique_and_loner]. *)
Lemma from_file_ends_early_witness :
  print elements clique_and_loner =
    Some (print_lines elements clique_and_loner (n_ clique_and_loner)) ∧
  ∃ c,
    LabelledGraph_from_file (list_ascii_of_string "graph.txt")
      (Some (print_lines elements clique_and_loner 2)) 7 8 9 10 = Done c ∧
    cerr c = [] ∧
    n_ (graph c) = n_ clique_and_loner ∧
    l_ (graph c) = l_ clique_and_loner ∧
    length (vertex_labels_ (graph c)) = Z.to_nat (n_ clique_and_loner) ∧
    (∀ i, 0 ≤ i < 2 →
       at_ (vertex_labels_ (graph c)) i =
       at_ (vertex_labels_ clique_and_loner) i) ∧
    (∀ i, 2 ≤ i < n_ clique_and_loner →
       at_ (vertex_labels_ (graph c)) i = Some 0) ∧
    (∀ w x, adjacent (graph c) w x = true ↔
            adjacent clique_and_loner w x = true ∧ (w < 2 ∨ x < 2)).
Proof.
  apply (from_file_ends_early elements).
  - intros s x. apply elem_of_elements.
  - apply wf_check_sound. vm_compute. reflexivity.
  - reflexivity.
  - simpl. lia.
Defined.

(** X18 on [clique_and_loner], whose labels are 1 and 2. *)
Lemma evenly_distribute_labels_no_zero_label_witness :
  evenly_distribute_labels 1000 clique_and_loner (rng_of [3; 1; 4; 1; 5])
  = OutOfFuel.
Proof.
  apply evenly_distribute_labels_no_zero_label.
  - simpl. lia.
  - simpl. lia.
  - reflexivity.
  - intros x Hx. vm_compute in Hx. 
    repeat (apply elem_of_cons in Hx as [->|Hx]; [lia|]).
    by apply elem_of_nil in Hx.
Defined.

(** X19 on vertex 4 of [clique_and_pair], which is in the pool. *)
Lemma run_greedy_iteration_labels_below_32_witness :
  ∃ lv, at_ (vertex_labels_ clique_and_pair) 4 = Some lv ∧ 0 ≤ lv < 32.
Proof.
  assert (∃ g' r',
            run_greedy_iteration LabelDistribution_get_deficiencies (1 # 10)
              clique_and_pair (rng_of []) = Some (1, g', r'))
    as (g' & r' & Hrun) by (eexists _, _; vm_compute; reflexivity).
  apply (run_greedy_iteration_labels_below_32 _ _ _ _ _ _ _ Hrun 4
           [0; 3; 3] [0; 1; 0]);
    [simpl; lia | vm_compute; reflexivity..].
Defined.

(** X20 on four vertices and two labels: the draws give the labels
    1, 1, 0, 0. *)
Lemma evenly_distribute_labels_exact_witness :
  ∃ g' r',
    evenly_distribute_labels 10 (LabelledGraph_new 4 2)
      (rng_of [0; 0; 1]) = Done (g', r') ∧
    vertex_labels_ g' = [1; 1; 0; 0] ∧
    ∀ c, 0 ≤ c < l_ (LabelledGraph_new 4 2) →
      occurrences c (vertex_labels_ g') =
      n_ (LabelledGraph_new 4 2) / l_ (LabelledGraph_new 4 2).
Proof.
  eexists _, _. split; [vm_compute; reflexivity|].
  split; [vm_compute; reflexivity|].
  eapply (evenly_distribute_labels_exact 10 (LabelledGraph_new 4 2)
            (rng_of [0; 0; 1])).
  - simpl. lia.
  - simpl. lia.
  - reflexivity.
  - reflexivity.
  - vm_compute. reflexivity.
Defined.
